(** * LibreRTOS: queue, mutex and kernel core

    A shallow embedding of [src/librertos.c] (kernel state, scheduler, tick,
    suspend/resume and the intrusive list) and of the queue implementation
    that accompanies the tests ([QueueInit], [QueueRead], [QueueWrite], the
    pending variants and the accessors), followed by the properties of the
    specification that concern them.

    Integers of a C type of width [w] are values of [Z] reduced modulo
    [2^w] where the code can wrap; pointers into the queue buffer are byte
    addresses in [Z]; the buffer is a byte memory [Z -> byte]. *)

From stdpp Require Import gmap list.
From Stdlib Require Import ZArith Lia.
From Stdlib Require Import Strings.Byte.

Open Scope Z_scope.

(** ** Queue *)

Module Queue.

(** Tasks are identified by the address of their task record. *)
Definition task_ptr := nat.

(** The two wait lists of an event. *)
Inductive which_list := List_read | List_write.

(** Calls into the port layer and the kernel made by the queue code, in the
    order in which they are made. *)
Inductive trace_event :=
| Ev_CRITICAL_ENTER
| Ev_CRITICAL_EXIT
| Ev_INTERRUPTS_DISABLE
| Ev_INTERRUPTS_ENABLE
| Ev_SchedulerLock
| Ev_SchedulerUnlock
| Ev_memcpy
| Ev_TEST_CONCURRENT_ACCESS
| Ev_OSEventUnblockTasks (l : which_list) (t : task_ptr)
| Ev_OSEventPrePendTask (l : which_list) (t : task_ptr)
| Ev_OSEventPendTask (l : which_list) (t : task_ptr) (ticks_to_wait : Z).

(** [struct event_rw_t]: the read-waiters and the write-waiters, each a list
    of tasks whose [length] field is the number of tasks on it. *)
Record event_rw_t := {
  list_read : list task_ptr;
  list_write : list task_ptr
}.

(** [struct queue_t]. *)
Record queue_t := {
  item_size : Z;
  free : Z;
  used : Z;
  w_lock : Z;
  r_lock : Z;
  head_ptr : Z;
  tail_ptr : Z;
  buff_ptr : Z;
  buff_end_ptr : Z;
  event : event_rw_t
}.

(** What a queue call can see and change: the queue record, the byte
    memory that holds its buffer, the scheduler-lock nesting count, the
    running task, and the log of the calls made so far. *)
Record world := {
  que : queue_t;
  mem : Z -> byte;
  sched_lock : Z;
  current_task : task_ptr;
  trace : list trace_event
}.

(** *** Byte memory *)

Definition mem_load (m : Z -> byte) (src : Z) (n : nat) : list byte :=
  map (fun k => m (src + Z.of_nat k)) (seq 0 n).

Definition mem_store (m : Z -> byte) (dst : Z) (bs : list byte) : Z -> byte :=
  fun a =>
    if (dst <=? a) && (a <? dst + Z.of_nat (length bs))
    then nth (Z.to_nat (a - dst)) bs x00
    else m a.

(** *** A state monad over [world] *)

Definition M (A : Type) : Type := world -> A * world.

Definition ret {A} (a : A) : M A := fun w => (a, w).
Definition bind {A B} (m : M A) (k : A -> M B) : M B :=
  fun w => let (a, w') := m w in k a w'.

Notation "x <- m ;; k" := (bind m (fun x => k))
  (at level 100, m at next level, k at level 200, right associativity,
   only parsing).
Notation "m ;; k" := (bind m (fun _ => k))
  (at level 100, k at level 200, right associativity, only parsing).

Definition get_que : M queue_t := fun w => (que w, w).
Definition put_que (q : queue_t) : M unit := fun w =>
  (tt, {| que := q; mem := mem w; sched_lock := sched_lock w;
          current_task := current_task w; trace := trace w |}).
Definition get_mem : M (Z -> byte) := fun w => (mem w, w).
Definition put_mem (m : Z -> byte) : M unit := fun w =>
  (tt, {| que := que w; mem := m; sched_lock := sched_lock w;
          current_task := current_task w; trace := trace w |}).
Definition emit (e : trace_event) : M unit := fun w =>
  (tt, {| que := que w; mem := mem w; sched_lock := sched_lock w;
          current_task := current_task w; trace := trace w ++ [e] |}).
Definition add_sched_lock (d : Z) : M unit := fun w =>
  (tt, {| que := que w; mem := mem w; sched_lock := sched_lock w + d;
          current_task := current_task w; trace := trace w |}).

(** Field updates of [struct queue_t]. *)
Definition set_free (v : Z) (q : queue_t) : queue_t :=
  {| item_size := item_size q; free := v; used := used q;
     w_lock := w_lock q; r_lock := r_lock q; head_ptr := head_ptr q;
     tail_ptr := tail_ptr q; buff_ptr := buff_ptr q;
     buff_end_ptr := buff_end_ptr q; event := event q |}.
Definition set_used (v : Z) (q : queue_t) : queue_t :=
  {| item_size := item_size q; free := free q; used := v;
     w_lock := w_lock q; r_lock := r_lock q; head_ptr := head_ptr q;
     tail_ptr := tail_ptr q; buff_ptr := buff_ptr q;
     buff_end_ptr := buff_end_ptr q; event := event q |}.
Definition set_w_lock (v : Z) (q : queue_t) : queue_t :=
  {| item_size := item_size q; free := free q; used := used q;
     w_lock := v; r_lock := r_lock q; head_ptr := head_ptr q;
     tail_ptr := tail_ptr q; buff_ptr := buff_ptr q;
     buff_end_ptr := buff_end_ptr q; event := event q |}.
Definition set_r_lock (v : Z) (q : queue_t) : queue_t :=
  {| item_size := item_size q; free := free q; used := used q;
     w_lock := w_lock q; r_lock := v; head_ptr := head_ptr q;
     tail_ptr := tail_ptr q; buff_ptr := buff_ptr q;
     buff_end_ptr := buff_end_ptr q; event := event q |}.
Definition set_head_ptr (v : Z) (q : queue_t) : queue_t :=
  {| item_size := item_size q; free := free q; used := used q;
     w_lock := w_lock q; r_lock := r_lock q; head_ptr := v;
     tail_ptr := tail_ptr q; buff_ptr := buff_ptr q;
     buff_end_ptr := buff_end_ptr q; event := event q |}.
Definition set_tail_ptr (v : Z) (q : queue_t) : queue_t :=
  {| item_size := item_size q; free := free q; used := used q;
     w_lock := w_lock q; r_lock := r_lock q; head_ptr := head_ptr q;
     tail_ptr := v; buff_ptr := buff_ptr q;
     buff_end_ptr := buff_end_ptr q; event := event q |}.
Definition set_event (v : event_rw_t) (q : queue_t) : queue_t :=
  {| item_size := item_size q; free := free q; used := used q;
     w_lock := w_lock q; r_lock := r_lock q; head_ptr := head_ptr q;
     tail_ptr := tail_ptr q; buff_ptr := buff_ptr q;
     buff_end_ptr := buff_end_ptr q; event := v |}.

Definition get_list (l : which_list) (e : event_rw_t) : list task_ptr :=
  match l with List_read => list_read e | List_write => list_write e end.
Definition set_list (l : which_list) (v : list task_ptr) (e : event_rw_t)
  : event_rw_t :=
  match l with
  | List_read => {| list_read := v; list_write := list_write e |}
  | List_write => {| list_read := list_read e; list_write := v |}
  end.

(** *** Port layer and kernel calls

    The port macros and the kernel functions the queue calls are not part
    of the sources at hand; each is logged in [trace], and those with an
    effect on the queue record or on the scheduler lock are modelled. *)

Definition CRITICAL_ENTER : M unit := emit Ev_CRITICAL_ENTER.
Definition CRITICAL_EXIT : M unit := emit Ev_CRITICAL_EXIT.
Definition INTERRUPTS_DISABLE : M unit := emit Ev_INTERRUPTS_DISABLE.
Definition INTERRUPTS_ENABLE : M unit := emit Ev_INTERRUPTS_ENABLE.
Definition LIBRERTOS_TEST_CONCURRENT_ACCESS : M unit :=
  emit Ev_TEST_CONCURRENT_ACCESS.

(** Modelled from the spec: [SchedulerLock] is missing from the sources;
    "sched_lock() increments the counter". *)
Definition SchedulerLock : M unit :=
  emit Ev_SchedulerLock ;; add_sched_lock 1.

(** Modelled from the spec: [SchedulerUnlock] is missing from the sources;
    "sched_unlock() decrements and, on reaching zero, may invoke sched()".
    What the scheduler then runs is not part of the call. *)
Definition SchedulerUnlock : M unit :=
  emit Ev_SchedulerUnlock ;; add_sched_lock (-1).

(** Modelled from the spec: [GetCurrentTask] is missing from the sources;
    it returns the running task. *)
Definition GetCurrentTask : M task_ptr := fun w => (current_task w, w).

(** Modelled from the spec: [OSEventUnblockTasks] is missing from the
    sources; "removes the head task of list, re-inserts it into its
    priority's ready list. Only one task is unblocked per call". *)
Definition OSEventUnblockTasks (l : which_list) : M unit :=
  q <- get_que ;;
  match get_list l (event q) with
  | [] => ret tt
  | t :: rest =>
      put_que (set_event (set_list l rest (event q)) q) ;;
      emit (Ev_OSEventUnblockTasks l t)
  end.

(** Modelled from the spec: [OSEventPrePendTask] is missing from the
    sources; "detaches the task's event node from any prior wait list;
    prepares it to be inserted into list". *)
Definition OSEventPrePendTask (l : which_list) (t : task_ptr) : M unit :=
  q <- get_que ;;
  let e := event q in
  put_que (set_event
             {| list_read := filter (fun x => x ≠ t) (list_read e);
                list_write := filter (fun x => x ≠ t) (list_write e) |} q) ;;
  emit (Ev_OSEventPrePendTask l t).

(** Modelled from the spec: [OSEventPendTask] is missing from the sources;
    "inserts the event node into list (ordering: FIFO by insertion)", sets
    the wake deadline and takes the task off its ready list; the last two
    concern records outside the queue and are only logged. *)
Definition OSEventPendTask (l : which_list) (t : task_ptr) (ticks : Z)
  : M unit :=
  q <- get_que ;;
  put_que (set_event (set_list l (get_list l (event q) ++ [t]) (event q)) q) ;;
  emit (Ev_OSEventPendTask l t ticks).

(** Modelled from the spec: [OSEventRwInit] is missing from the sources;
    an event is "two lists", and a queue just initialised has no task
    waiting on either. *)
Definition OSEventRwInit : event_rw_t :=
  {| list_read := []; list_write := [] |}.

(** Copy the first [n] bytes of the caller's buffer into the queue memory
    at [dst]. *)
Definition memcpy_to_queue (dst : Z) (src : list byte) (n : Z) : M unit :=
  m <- get_mem ;;
  put_mem (mem_store m dst (take (Z.to_nat n) src)) ;;
  emit Ev_memcpy.

(** Copy [n] bytes from the queue memory over the start of the caller's
    buffer; the result is the caller's buffer after the copy. *)
Definition memcpy_from_queue (dst : list byte) (src : Z) (n : Z)
  : M (list byte) :=
  m <- get_mem ;;
  emit Ev_memcpy ;;
  ret (mem_load m src (Z.to_nat n) ++ drop (Z.to_nat n) dst).

Section WithLenT.

(** [len_t] is an unsigned integer type; its width comes from the project
    configuration header. *)
Variable LEN_BITS : N.

Definition len_modulus : Z := 2 ^ Z.of_N LEN_BITS.
Definition to_len_t (x : Z) : Z := x mod len_modulus.
Definition is_len_t (x : Z) : Prop := 0 <= x < len_modulus.

(** [QueueInit]. *)
Definition QueueInit (buff_ptr_ length item_size_ : Z) (w : world) : world :=
  {| que := {| item_size := item_size_;
               free := length;
               used := 0;
               w_lock := 0;
               r_lock := 0;
               head_ptr := buff_ptr_;
               tail_ptr := buff_ptr_;
               buff_ptr := buff_ptr_;
               buff_end_ptr := buff_ptr_ + (length - 1) * item_size_;
               event := OSEventRwInit |};
     mem := mem w; sched_lock := sched_lock w;
     current_task := current_task w; trace := trace w |}.

(** [QueueRead], first critical section (the reservation): the position to
    copy from and the read lock taken, or [None] when the queue is empty. *)
Definition QueueRead_reserve : M (option (Z * Z)) :=
  CRITICAL_ENTER ;;
  q <- get_que ;;
  if used q =? 0 then
    CRITICAL_EXIT ;;
    ret None
  else
    let pos_ptr := head_ptr q in
    let head' := head_ptr q + item_size q in
    let head'' := if head' >? buff_end_ptr q then buff_ptr q else head' in
    let lock := r_lock q in
    put_que (set_used (to_len_t (used q - 1))
              (set_r_lock (to_len_t (r_lock q + 1))
                (set_head_ptr head'' q))) ;;
    CRITICAL_EXIT ;;
    ret (Some (pos_ptr, lock)).

(** [QueueRead], the copy between the two critical sections. *)
Definition QueueRead_copy (pos_ptr : Z) (buff : list byte) : M (list byte) :=
  q <- get_que ;;
  buff' <- memcpy_from_queue buff pos_ptr (item_size q) ;;
  LIBRERTOS_TEST_CONCURRENT_ACCESS ;;
  ret buff'.

(** [QueueRead], second critical section (publish and unblock) and exit. *)
Definition QueueRead_commit (lock : Z) : M unit :=
  CRITICAL_ENTER ;;
  q <- get_que ;;
  (if lock =? 0 then
     put_que (set_r_lock 0 (set_free (to_len_t (free q + r_lock q)) q))
   else ret tt) ;;
  SchedulerLock ;;
  q <- get_que ;;
  (if Z.of_nat (length (list_write (event q))) =? 0 then ret tt
   else OSEventUnblockTasks List_write) ;;
  CRITICAL_EXIT ;;
  SchedulerUnlock.

(** [QueueRead]: the result and the caller's buffer after the call. *)
Definition QueueRead (buff : list byte) : M (Z * list byte) :=
  r <- QueueRead_reserve ;;
  match r with
  | None => ret (0, buff)
  | Some (pos_ptr, lock) =>
      buff' <- QueueRead_copy pos_ptr buff ;;
      QueueRead_commit lock ;;
      ret (1, buff')
  end.

(** [QueueWrite], first critical section (the reservation): the position to
    copy to and the write lock taken, or [None] when the queue is full. *)
Definition QueueWrite_reserve : M (option (Z * Z)) :=
  CRITICAL_ENTER ;;
  q <- get_que ;;
  if free q =? 0 then
    CRITICAL_EXIT ;;
    ret None
  else
    let pos_ptr := tail_ptr q in
    let tail' := tail_ptr q + item_size q in
    let tail'' := if tail' >? buff_end_ptr q then buff_ptr q else tail' in
    let lock := w_lock q in
    put_que (set_free (to_len_t (free q - 1))
              (set_w_lock (to_len_t (w_lock q + 1))
                (set_tail_ptr tail'' q))) ;;
    SchedulerLock ;;
    CRITICAL_EXIT ;;
    ret (Some (pos_ptr, lock)).

(** [QueueWrite], the copy between the two critical sections. *)
Definition QueueWrite_copy (pos_ptr : Z) (buff : list byte) : M unit :=
  q <- get_que ;;
  memcpy_to_queue pos_ptr buff (item_size q) ;;
  LIBRERTOS_TEST_CONCURRENT_ACCESS.

(** [QueueWrite], second critical section (publish and unblock) and exit. *)
Definition QueueWrite_commit (lock : Z) : M unit :=
  CRITICAL_ENTER ;;
  q <- get_que ;;
  (if lock =? 0 then
     put_que (set_w_lock 0 (set_used (to_len_t (used q + w_lock q)) q))
   else ret tt) ;;
  q <- get_que ;;
  (if Z.of_nat (length (list_read (event q))) =? 0 then ret tt
   else OSEventUnblockTasks List_read) ;;
  CRITICAL_EXIT ;;
  SchedulerUnlock.

(** [QueueWrite]. *)
Definition QueueWrite (buff : list byte) : M Z :=
  r <- QueueWrite_reserve ;;
  match r with
  | None => ret 0
  | Some (pos_ptr, lock) =>
      QueueWrite_copy pos_ptr buff ;;
      QueueWrite_commit lock ;;
      ret 1
  end.

(** [QueuePendRead]. *)
Definition QueuePendRead (ticks_to_wait : Z) : M unit :=
  if ticks_to_wait =? 0 then ret tt
  else
    SchedulerLock ;;
    INTERRUPTS_DISABLE ;;
    q <- get_que ;;
    (if used q =? 0 then
       task <- GetCurrentTask ;;
       OSEventPrePendTask List_read task ;;
       INTERRUPTS_ENABLE ;;
       OSEventPendTask List_read task ticks_to_wait
     else INTERRUPTS_ENABLE) ;;
    SchedulerUnlock.

(** [QueuePendWrite]. *)
Definition QueuePendWrite (ticks_to_wait : Z) : M unit :=
  if ticks_to_wait =? 0 then ret tt
  else
    SchedulerLock ;;
    INTERRUPTS_DISABLE ;;
    q <- get_que ;;
    (if free q =? 0 then
       task <- GetCurrentTask ;;
       OSEventPrePendTask List_write task ;;
       INTERRUPTS_ENABLE ;;
       OSEventPendTask List_write task ticks_to_wait
     else INTERRUPTS_ENABLE) ;;
    SchedulerUnlock.

(** [QueueReadPend]. *)
Definition QueueReadPend (buff : list byte) (ticks_to_wait : Z)
  : M (Z * list byte) :=
  r <- QueueRead buff ;;
  (if fst r =? 0 then QueuePendRead ticks_to_wait else ret tt) ;;
  ret r.

(** [QueueWritePend]. *)
Definition QueueWritePend (buff : list byte) (ticks_to_wait : Z) : M Z :=
  val <- QueueWrite buff ;;
  (if val =? 0 then QueuePendWrite ticks_to_wait else ret tt) ;;
  ret val.

(** [QueueUsed], [QueueFree], [QueueLength], [QueueItemSize], [QueueEmpty]
    and [QueueFull]. *)
Definition QueueUsed : M Z :=
  CRITICAL_ENTER ;; q <- get_que ;; CRITICAL_EXIT ;; ret (used q).
Definition QueueFree : M Z :=
  CRITICAL_ENTER ;; q <- get_que ;; CRITICAL_EXIT ;; ret (free q).
Definition QueueLength : M Z :=
  CRITICAL_ENTER ;;
  q <- get_que ;;
  CRITICAL_EXIT ;;
  ret (to_len_t (free q + used q + w_lock q + r_lock q)).
Definition QueueItemSize : M Z := q <- get_que ;; ret (item_size q).
Definition QueueEmpty : M Z :=
  u <- QueueUsed ;; ret (if u =? 0 then 1 else 0).
Definition QueueFull : M Z :=
  f <- QueueFree ;; ret (if f =? 0 then 1 else 0).

(** *** Calls in flight

    Between its two critical sections a [QueueRead] or [QueueWrite] holds
    its position and its lock in local variables, and an interrupt or a
    task switch can start or finish other calls.  A [frame] is such a call
    in flight; a [step] runs one stretch of code during which nothing else
    can run: a reservation, a copy, or a commit. *)

Inductive call_kind := Reading | Writing.

Record frame := {
  fr_kind : call_kind;
  fr_pos_ptr : Z;
  fr_lock : Z;
  fr_buff : list byte;
  fr_copied : bool
}.

Record system := {
  sys_world : world;
  in_flight : list frame
}.

Inductive step :=
| Step_QueueInit (buff_ptr_ length item_size_ : Z)
| Step_QueueRead (buff : list byte)
| Step_QueueWrite (buff : list byte)
| Step_copy (k : nat)
| Step_commit (k : nat)
| Step_QueueLength.

Definition exec_step (st : step) (s : system) : system :=
  let w := sys_world s in
  let fs := in_flight s in
  match st with
  | Step_QueueInit b l i =>
      {| sys_world := QueueInit b l i w; in_flight := fs |}
  | Step_QueueRead buff =>
      match QueueRead_reserve w with
      | (None, w') => {| sys_world := w'; in_flight := fs |}
      | (Some (pos, lock), w') =>
          {| sys_world := w';
             in_flight := fs ++ [{| fr_kind := Reading; fr_pos_ptr := pos;
                                    fr_lock := lock; fr_buff := buff;
                                    fr_copied := false |}] |}
      end
  | Step_QueueWrite buff =>
      match QueueWrite_reserve w with
      | (None, w') => {| sys_world := w'; in_flight := fs |}
      | (Some (pos, lock), w') =>
          {| sys_world := w';
             in_flight := fs ++ [{| fr_kind := Writing; fr_pos_ptr := pos;
                                    fr_lock := lock; fr_buff := buff;
                                    fr_copied := false |}] |}
      end
  | Step_copy k =>
      match fs !! k with
      | Some f =>
          if fr_copied f then s
          else
            match fr_kind f with
            | Reading =>
                let (buff', w') := QueueRead_copy (fr_pos_ptr f) (fr_buff f) w in
                {| sys_world := w';
                   in_flight := <[k := {| fr_kind := Reading;
                                          fr_pos_ptr := fr_pos_ptr f;
                                          fr_lock := fr_lock f;
                                          fr_buff := buff';
                                          fr_copied := true |}]> fs |}
            | Writing =>
                let (_, w') := QueueWrite_copy (fr_pos_ptr f) (fr_buff f) w in
                {| sys_world := w';
                   in_flight := <[k := {| fr_kind := Writing;
                                          fr_pos_ptr := fr_pos_ptr f;
                                          fr_lock := fr_lock f;
                                          fr_buff := fr_buff f;
                                          fr_copied := true |}]> fs |}
            end
      | None => s
      end
  | Step_commit k =>
      match fs !! k with
      | Some f =>
          if fr_copied f then
            let (_, w') :=
              match fr_kind f with
              | Reading => QueueRead_commit (fr_lock f) w
              | Writing => QueueWrite_commit (fr_lock f) w
              end in
            {| sys_world := w'; in_flight := delete k fs |}
          else s
      | None => s
      end
  | Step_QueueLength =>
      {| sys_world := snd (QueueLength w); in_flight := fs |}
  end.

Definition exec_steps (sts : list step) (s : system) : system :=
  foldl (fun s st => exec_step st s) s sts.

(** The capacity given at the most recent [QueueInit]. *)
Definition capacity_after (sts : list step) (cap : Z) : Z :=
  foldl (fun c st => match st with Step_QueueInit _ l _ => l | _ => c end)
        cap sts.

(** The length given to [QueueInit] is a value of [len_t]. *)
Definition step_ok (st : step) : Prop :=
  match st with Step_QueueInit _ l _ => is_len_t l | _ => True end.

(** *** Specification

    The invariants, the model of sequential use and the orders of calls
    that the properties below are stated with. *)

(** The four counters are counts, and together they account for every
    slot of a queue of capacity [cap]. *)
Definition counters_ok (cap : Z) (q : queue_t) : Prop :=
  0 <= used q /\ 0 <= free q /\ 0 <= w_lock q /\ 0 <= r_lock q /\
  used q + free q + w_lock q + r_lock q = cap.

(** The address of slot [i] of a buffer at [base] with items of [isz]
    bytes. *)
Definition slot (base isz i : Z) : Z := base + i * isz.

(** [Repr cap isz base hi items w]: no call is in flight, the queue of [w]
    has capacity [cap] and item size [isz] over the buffer at [base], its
    head is at slot [hi], and it holds [items], oldest first. *)
Record Repr (cap isz base hi : Z) (items : list (list byte)) (w : world)
  : Prop := {
  R_item_size : item_size (que w) = isz;
  R_buff_ptr : buff_ptr (que w) = base;
  R_buff_end_ptr : buff_end_ptr (que w) = slot base isz (cap - 1);
  R_head_ptr : head_ptr (que w) = slot base isz hi;
  R_tail_ptr :
    tail_ptr (que w) = slot base isz ((hi + Z.of_nat (length items)) mod cap);
  R_hi : 0 <= hi < cap;
  R_isz : 0 <= isz;
  R_used : used (que w) = Z.of_nat (length items);
  R_free : free (que w) = cap - Z.of_nat (length items);
  R_w_lock : w_lock (que w) = 0;
  R_r_lock : r_lock (que w) = 0;
  R_length : Z.of_nat (length items) <= cap;
  R_items : forall (k : nat) (item : list byte),
      items !! k = Some item ->
      length item = Z.to_nat isz /\
      mem_load (mem w) (slot base isz ((hi + Z.of_nat k) mod cap))
               (Z.to_nat isz) = item
}.

(** Calls made one after the other, none overlapping another. *)
Inductive call :=
| Call_QueueWrite (buff : list byte)
| Call_QueueRead (buff : list byte).

(** What a call gives back: the result, and for a read the caller's buffer
    after the call. *)
Inductive outcome :=
| Wrote (val : Z)
| Got (val : Z) (buff : list byte).

Definition run_call (c : call) (w : world) : outcome * world :=
  match c with
  | Call_QueueWrite buff =>
      let (val, w') := QueueWrite buff w in (Wrote val, w')
  | Call_QueueRead buff =>
      let (r, w') := QueueRead buff w in (Got (fst r) (snd r), w')
  end.

Fixpoint run_calls (cs : list call) (w : world) : list outcome * world :=
  match cs with
  | [] => ([], w)
  | c :: rest =>
      let (o, w1) := run_call c w in
      let (os, w2) := run_calls rest w1 in
      (o :: os, w2)
  end.

(** The caller's buffer has the size of an item. *)
Definition call_ok (isz : Z) (c : call) : Prop :=
  match c with
  | Call_QueueWrite buff | Call_QueueRead buff => length buff = Z.to_nat isz
  end.

(** Specification model, after the words of the specification: a bounded
    first-in first-out list of at most [cap] items. *)
Definition fifo_call (cap : Z) (c : call) (items : list (list byte))
  : outcome * list (list byte) :=
  match c with
  | Call_QueueWrite buff =>
      if Z.of_nat (length items) <? cap
      then (Wrote 1, items ++ [buff]) else (Wrote 0, items)
  | Call_QueueRead buff =>
      match items with
      | [] => (Got 0 buff, [])
      | item :: rest => (Got 1 item, rest)
      end
  end.

Fixpoint fifo_calls (cap : Z) (cs : list call) (items : list (list byte))
  : list outcome * list (list byte) :=
  match cs with
  | [] => ([], items)
  | c :: rest =>
      let (o, items1) := fifo_call cap c items in
      let (os, items2) := fifo_calls cap rest items1 in
      (o :: os, items2)
  end.

(** The queue of [w] holds [items]: either it has capacity zero and holds
    nothing, or it is represented as a ring in the buffer. *)
Definition Holds (cap isz base : Z) (items : list (list byte)) (w : world)
  : Prop :=
  (cap = 0 /\ items = [] /\ used (que w) = 0 /\ free (que w) = 0) \/
  (exists hi, Repr cap isz base hi items w).

(** The calls logged by [m] when run from [w]. *)
Definition events_of {A} (m : M A) (w : world) : list trace_event :=
  drop (length (trace w)) (trace (snd (m w))).

(** Whether [SchedulerLock] is called before the first [memcpy]. *)
Fixpoint lock_before_copy (evs : list trace_event) : bool :=
  match evs with
  | [] => false
  | Ev_SchedulerLock :: _ => true
  | Ev_memcpy :: _ => false
  | _ :: rest => lock_before_copy rest
  end.

(** The queue seen from the other side: [used] for [free], [r_lock] for
    [w_lock], the head for the tail and [list_write] for [list_read]. *)
Definition mirror_list (l : which_list) : which_list :=
  match l with List_read => List_write | List_write => List_read end.

Definition mirror_event (e : trace_event) : trace_event :=
  match e with
  | Ev_OSEventUnblockTasks l t => Ev_OSEventUnblockTasks (mirror_list l) t
  | Ev_OSEventPrePendTask l t => Ev_OSEventPrePendTask (mirror_list l) t
  | Ev_OSEventPendTask l t n => Ev_OSEventPendTask (mirror_list l) t n
  | _ => e
  end.

Definition mirror_que (q : queue_t) : queue_t :=
  {| item_size := item_size q;
     free := used q; used := free q;
     w_lock := r_lock q; r_lock := w_lock q;
     head_ptr := tail_ptr q; tail_ptr := head_ptr q;
     buff_ptr := buff_ptr q; buff_end_ptr := buff_end_ptr q;
     event := {| list_read := list_write (event q);
                 list_write := list_read (event q) |} |}.

Definition mirror_world (w : world) : world :=
  {| que := mirror_que (que w); mem := mem w; sched_lock := sched_lock w;
     current_task := current_task w; trace := trace w |}.

(** The blocking read as the specification words it: when the first
    attempt fails the task pends, later wakes (whatever [wake] did in
    between), and the call "re-attempts the non-blocking operation once
    and reports success/failure accordingly". *)
Definition QueueReadPend_as_claimed (wake : M unit) (buff : list byte)
    (ticks_to_wait : Z) : M (Z * list byte) :=
  r <- QueueRead buff ;;
  if fst r =? 0 then
    QueuePendRead ticks_to_wait ;;
    wake ;;
    QueueRead buff
  else ret r.

(** Where the port stands while a queue function runs: inside a critical
    section or not, with interrupts disabled by [INTERRUPTS_DISABLE] or
    not, and how many times the scheduler is locked. *)
Record port_state := {
  in_critical : bool;
  ints_disabled : bool;
  lock_depth : nat
}.

(** The discipline the queue code keeps in its calls: critical sections
    and disabled-interrupt stretches open and close in turn, the scheduler
    is unlocked only when locked, the copy runs outside the critical
    sections, a task is unblocked inside one with the scheduler locked,
    and a task is pended with the scheduler locked.  [None]: the call is
    out of place. *)
Definition port_step (p : port_state) (e : trace_event) : option port_state :=
  let '{| in_critical := c; ints_disabled := i; lock_depth := d |} := p in
  match e with
  | Ev_CRITICAL_ENTER =>
      if c then None
      else Some {| in_critical := true; ints_disabled := i; lock_depth := d |}
  | Ev_CRITICAL_EXIT =>
      if c
      then Some {| in_critical := false; ints_disabled := i; lock_depth := d |}
      else None
  | Ev_INTERRUPTS_DISABLE =>
      if i then None
      else Some {| in_critical := c; ints_disabled := true; lock_depth := d |}
  | Ev_INTERRUPTS_ENABLE =>
      if i
      then Some {| in_critical := c; ints_disabled := false; lock_depth := d |}
      else None
  | Ev_SchedulerLock =>
      Some {| in_critical := c; ints_disabled := i; lock_depth := S d |}
  | Ev_SchedulerUnlock =>
      match d with
      | O => None
      | S d' =>
          Some {| in_critical := c; ints_disabled := i; lock_depth := d' |}
      end
  | Ev_memcpy | Ev_TEST_CONCURRENT_ACCESS =>
      if c || i then None else Some p
  | Ev_OSEventUnblockTasks _ _ =>
      match d with
      | O => None
      | S _ => if c then Some p else None
      end
  | Ev_OSEventPrePendTask _ _ =>
      match d with
      | O => None
      | S _ => if i then Some p else None
      end
  | Ev_OSEventPendTask _ _ _ =>
      match d with
      | O => None
      | S _ => if c || i then None else Some p
      end
  end.

Fixpoint port_run (p : port_state) (evs : list trace_event)
  : option port_state :=
  match evs with
  | [] => Some p
  | e :: rest =>
      match port_step p e with
      | Some p' => port_run p' rest
      | None => None
      end
  end.

(** The calls [evs] keep the discipline and end as they began: outside
    any critical section, interrupts enabled, the scheduler as locked as
    before. *)
Definition disciplined (evs : list trace_event) : bool :=
  match port_run {| in_critical := false; ints_disabled := false;
                    lock_depth := 0 |} evs with
  | Some {| in_critical := false; ints_disabled := false;
            lock_depth := O |} => true
  | _ => false
  end.

(** Whether a call of [evs] pends a task. *)
Definition pends (evs : list trace_event) : bool :=
  existsb (fun e => match e with
                    | Ev_OSEventPrePendTask _ _ | Ev_OSEventPendTask _ _ _ =>
                        true
                    | _ => false
                    end) evs.

(** The fields that only [QueueInit] writes. *)
Definition layout (q : queue_t) : Z * Z * Z :=
  (item_size q, buff_ptr q, buff_end_ptr q).

(** [InFlight cap isz base h0 rd items n w]: the ring of [w] holds, from
    slot [h0] on, the items [rd] that reads in flight have reserved and
    not yet released, then the items [items] that are published, then
    [n] slots that writes in flight have reserved and not yet
    published. *)
Record InFlight (cap isz base h0 : Z) (rd items : list (list byte))
    (n : nat) (w : world) : Prop := {
  F_item_size : item_size (que w) = isz;
  F_buff_ptr : buff_ptr (que w) = base;
  F_buff_end_ptr : buff_end_ptr (que w) = slot base isz (cap - 1);
  F_head_ptr :
    head_ptr (que w) = slot base isz ((h0 + Z.of_nat (length rd)) mod cap);
  F_tail_ptr :
    tail_ptr (que w)
    = slot base isz
        ((h0 + Z.of_nat (length rd) + Z.of_nat (length items) + Z.of_nat n)
           mod cap);
  F_h0 : 0 <= h0 < cap;
  F_isz : 0 <= isz;
  F_used : used (que w) = Z.of_nat (length items);
  F_free :
    free (que w)
    = cap - Z.of_nat (length rd) - Z.of_nat (length items) - Z.of_nat n;
  F_w_lock : w_lock (que w) = Z.of_nat n;
  F_r_lock : r_lock (que w) = Z.of_nat (length rd);
  F_length :
    Z.of_nat (length rd) + Z.of_nat (length items) + Z.of_nat n <= cap;
  F_items : forall (k : nat) (item : list byte),
      (rd ++ items) !! k = Some item ->
      length item = Z.to_nat isz /\
      mem_load (mem w) (slot base isz ((h0 + Z.of_nat k) mod cap))
               (Z.to_nat isz) = item
}.

(** Writes nested in one another: the write of the first item is
    interrupted, after its reservation, by the write of the second, that
    one by the write of the third, and so on; each interrupting write
    runs to its end before the interrupted one goes on.  [d] calls are
    in flight at the start. *)
Fixpoint nested_writes (d : nat) (bs : list (list byte)) : list step :=
  match bs with
  | [] => []
  | b :: rest =>
      Step_QueueWrite b :: nested_writes (S d) rest
        ++ [Step_copy d; Step_commit d]
  end.

(** Reads nested in one another, in the same way. *)
Fixpoint nested_reads (d : nat) (bufs : list (list byte)) : list step :=
  match bufs with
  | [] => []
  | buf :: rest =>
      Step_QueueRead buf :: nested_reads (S d) rest
        ++ [Step_copy d; Step_commit d]
  end.

(** What a step hands back to its caller: the buffer of a read, when the
    read commits and returns. *)
Definition step_result (st : step) (s : system) : option (list byte) :=
  match st with
  | Step_commit k =>
      match in_flight s !! k with
      | Some f =>
          match fr_copied f, fr_kind f with
          | true, Reading => Some (fr_buff f)
          | _, _ => None
          end
      | None => None
      end
  | _ => None
  end.

(** The buffers handed back in the course of the steps [sts], in the
    order in which the reads return. *)
Fixpoint results (sts : list step) (s : system) : list (list byte) :=
  match sts with
  | [] => []
  | st :: rest =>
      match step_result st s with
      | Some b => b :: results rest (exec_step st s)
      | None => results rest (exec_step st s)
      end
  end.

(** *** The counters add up to the capacity *)

Ltac unfold_M :=
  unfold QueueRead, QueueWrite, QueueRead_reserve, QueueRead_copy,
    QueueRead_commit, QueueWrite_reserve, QueueWrite_copy,
    QueueWrite_commit, QueueLength, QueueUsed, QueueFree,
    memcpy_from_queue, memcpy_to_queue, OSEventUnblockTasks,
    SchedulerLock, SchedulerUnlock, CRITICAL_ENTER, CRITICAL_EXIT,
    LIBRERTOS_TEST_CONCURRENT_ACCESS, bind, ret, get_que, put_que,
    get_mem, put_mem, emit, add_sched_lock in *.

Lemma to_len_t_small x : is_len_t x -> to_len_t x = x.
Proof. intros H. apply Z.mod_small, H. Qed.

Lemma counters_ok_QueueInit b l i w :
  is_len_t l -> counters_ok l (que (QueueInit b l i w)).
Proof. unfold counters_ok, is_len_t; simpl; lia. Qed.

Lemma counters_ok_read_reserve cap w :
  is_len_t cap -> counters_ok cap (que w) ->
  counters_ok cap (que (snd (QueueRead_reserve w))).
Proof.
  intros Hc (Hu & Hf & Hw & Hr & Hs). unfold_M. simpl.
  destruct (used (que w) =? 0) eqn:E; simpl.
  - repeat split; assumption.
  - apply Z.eqb_neq in E. unfold is_len_t in Hc.
    rewrite !to_len_t_small by (unfold is_len_t; lia).
    unfold counters_ok; simpl; lia.
Qed.

Lemma counters_ok_write_reserve cap w :
  is_len_t cap -> counters_ok cap (que w) ->
  counters_ok cap (que (snd (QueueWrite_reserve w))).
Proof.
  intros Hc (Hu & Hf & Hw & Hr & Hs). unfold_M. simpl.
  destruct (free (que w) =? 0) eqn:E; simpl.
  - repeat split; assumption.
  - apply Z.eqb_neq in E. unfold is_len_t in Hc.
    rewrite !to_len_t_small by (unfold is_len_t; lia).
    unfold counters_ok; simpl; lia.
Qed.

Lemma counters_ok_read_copy cap pos buff w :
  counters_ok cap (que w) ->
  counters_ok cap (que (snd (QueueRead_copy pos buff w))).
Proof. intros H. unfold_M. simpl. exact H. Qed.

Lemma counters_ok_write_copy cap pos buff w :
  counters_ok cap (que w) ->
  counters_ok cap (que (snd (QueueWrite_copy pos buff w))).
Proof. intros H. unfold_M. simpl. exact H. Qed.

Lemma counters_ok_read_commit cap lock w :
  is_len_t cap -> counters_ok cap (que w) ->
  counters_ok cap (que (snd (QueueRead_commit lock w))).
Proof.
  intros Hc (Hu & Hf & Hw & Hr & Hs). unfold is_len_t in Hc. unfold_M.
  simpl. repeat (case_match; simplify_eq/=);
    rewrite ?to_len_t_small by (unfold is_len_t; lia);
    unfold counters_ok; simpl; lia.
Qed.

Lemma counters_ok_write_commit cap lock w :
  is_len_t cap -> counters_ok cap (que w) ->
  counters_ok cap (que (snd (QueueWrite_commit lock w))).
Proof.
  intros Hc (Hu & Hf & Hw & Hr & Hs). unfold is_len_t in Hc. unfold_M.
  simpl. repeat (case_match; simplify_eq/=);
    rewrite ?to_len_t_small by (unfold is_len_t; lia);
    unfold counters_ok; simpl; lia.
Qed.

Lemma counters_ok_exec_step cap st s :
  is_len_t cap -> step_ok st ->
  counters_ok cap (que (sys_world s)) ->
  counters_ok (capacity_after [st] cap) (que (sys_world (exec_step st s))).
Proof.
  intros Hc Hst H.
  destruct st as [b l i|buff|buff|k|k|];
    unfold exec_step, capacity_after; cbn [foldl sys_world in_flight].
  - exact (counters_ok_QueueInit b l i (sys_world s) Hst).
  - pose proof (counters_ok_read_reserve cap (sys_world s) Hc H) as H'.
    destruct (QueueRead_reserve (sys_world s)) as [[[pos lock]|] w']; exact H'.
  - pose proof (counters_ok_write_reserve cap (sys_world s) Hc H) as H'.
    destruct (QueueWrite_reserve (sys_world s)) as [[[pos lock]|] w']; exact H'.
  - destruct (in_flight s !! k) as [f|]; [|exact H].
    destruct (fr_copied f); [exact H|].
    destruct (fr_kind f).
    + pose proof (counters_ok_read_copy cap (fr_pos_ptr f) (fr_buff f) _ H) as H'.
      destruct (QueueRead_copy _ _ _); exact H'.
    + pose proof (counters_ok_write_copy cap (fr_pos_ptr f) (fr_buff f) _ H) as H'.
      destruct (QueueWrite_copy _ _ _); exact H'.
  - destruct (in_flight s !! k) as [f|]; [|exact H].
    destruct (fr_copied f); [|exact H].
    destruct (fr_kind f).
    + pose proof (counters_ok_read_commit cap (fr_lock f) _ Hc H) as H'.
      destruct (QueueRead_commit _ _); exact H'.
    + pose proof (counters_ok_write_commit cap (fr_lock f) _ Hc H) as H'.
      destruct (QueueWrite_commit _ _); exact H'.
  - exact H.
Qed.

Lemma capacity_after_is_len_t sts cap :
  is_len_t cap -> Forall step_ok sts -> is_len_t (capacity_after sts cap).
Proof.
  intros Hc Hs. revert cap Hc.
  induction Hs as [|st sts Hst _ IH]; intros cap Hc; [exact Hc|].
  simpl. apply IH. destruct st; simpl in *; assumption.
Qed.

Lemma counters_ok_exec_steps sts cap s :
  is_len_t cap -> Forall step_ok sts ->
  counters_ok cap (que (sys_world s)) ->
  counters_ok (capacity_after sts cap) (que (sys_world (exec_steps sts s))).
Proof.
  intros Hc Hs. revert cap s Hc.
  induction Hs as [|st sts Hst _ IH]; intros cap s Hc H; [exact H|].
  simpl. apply IH.
  - apply (capacity_after_is_len_t [st]); [exact Hc|].
    constructor; [exact Hst|constructor].
  - apply (counters_ok_exec_step cap st s Hc Hst H).
Qed.

(** C1. Started by [QueueInit] with a capacity that fits [len_t], and
    after any sequence of reservations, copies and commits of [QueueRead]
    and [QueueWrite] calls in any interleaving (failed calls and further
    [QueueInit] calls included), [used + free + w_lock + r_lock] is the
    capacity given at the latest [QueueInit], no counter is negative, and
    [QueueLength] returns that capacity. *)
Theorem queue_counters_sum_to_capacity :
  forall (buff_ptr_ length item_size_ : Z) (w0 : world)
         (in_flight0 : list frame) (sts : list step),
    is_len_t length ->
    Forall step_ok sts ->
    let s := exec_steps sts
               {| sys_world := QueueInit buff_ptr_ length item_size_ w0;
                  in_flight := in_flight0 |} in
    let q := que (sys_world s) in
    used q + free q + w_lock q + r_lock q = capacity_after sts length /\
    0 <= used q /\ 0 <= free q /\ 0 <= w_lock q /\ 0 <= r_lock q /\
    fst (QueueLength (sys_world s)) = capacity_after sts length.
Proof.
  intros b l i w0 fs0 sts Hl Hs s q.
  assert (H : counters_ok (capacity_after sts l) q).
  { apply counters_ok_exec_steps; [exact Hl|exact Hs|].
    exact (counters_ok_QueueInit b l i w0 Hl). }
  pose proof (capacity_after_is_len_t sts l Hl Hs) as Hcap.
  destruct H as (Hu & Hf & Hw & Hr & Hsum).
  repeat split; try assumption.
  unfold QueueLength, CRITICAL_ENTER, CRITICAL_EXIT, bind, ret, get_que, emit.
  simpl. fold q.
  replace (free q + used q + w_lock q + r_lock q)
    with (capacity_after sts l) by lia.
  apply to_len_t_small, Hcap.
Qed.

(** *** Sequential use: the queue as a list of items *)

Lemma mem_load_length m src n : length (mem_load m src n) = n.
Proof. unfold mem_load. rewrite length_map. apply length_seq. Qed.

Lemma mem_load_store_same m p bs :
  mem_load (mem_store m p bs) p (length bs) = bs.
Proof.
  apply list_eq. intros i. unfold mem_load.
  rewrite list_lookup_fmap.
  destruct (decide (i < length bs)%nat) as [Hi|Hi].
  - rewrite lookup_seq_lt by exact Hi. simpl. unfold mem_store.
    replace ((p <=? p + Z.of_nat i) && (p + Z.of_nat i <? p + Z.of_nat (length bs)))
      with true by (symmetry; apply andb_true_iff; split; lia).
    replace (Z.to_nat (p + Z.of_nat i - p)) with i by lia.
    destruct (lookup_lt_is_Some_2 bs i Hi) as [b Hb].
    rewrite Hb. f_equal. apply nth_lookup_Some with (d := x00) in Hb. exact Hb.
  - rewrite lookup_seq_ge by lia. simpl.
    symmetry. apply lookup_ge_None. lia.
Qed.

Lemma mem_load_store_other m p bs q n :
  q + Z.of_nat n <= p \/ p + Z.of_nat (length bs) <= q ->
  mem_load (mem_store m p bs) q n = mem_load m q n.
Proof.
  intros H. unfold mem_load. apply map_ext_in. intros k Hk.
  apply in_seq in Hk. unfold mem_store.
  replace ((p <=? q + Z.of_nat k) && (q + Z.of_nat k <? p + Z.of_nat (length bs)))
    with false; [reflexivity|].
  symmetry. apply andb_false_iff. lia.
Qed.

Lemma Repr_QueueInit base cap isz w :
  1 <= cap -> 0 <= isz -> Repr cap isz base 0 [] (QueueInit base cap isz w).
Proof.
  intros Hc Hi. constructor; simpl; unfold slot; try lia.
  - rewrite Z.mod_0_l by lia. lia.
  - intros k item Hk. discriminate.
Qed.

Lemma succ_mod a cap :
  0 < cap ->
  (a + 1) mod cap = if a mod cap + 1 =? cap then 0 else a mod cap + 1.
Proof.
  intros Hc. pose proof (Z.mod_pos_bound a cap Hc) as Hb.
  rewrite <- (Zplus_mod_idemp_l a 1 cap).
  destruct (a mod cap + 1 =? cap) eqn:E.
  - apply Z.eqb_eq in E. rewrite E. apply Z.mod_same. lia.
  - apply Z.eqb_neq in E. apply Z.mod_small. lia.
Qed.

(** Advancing a pointer by one item with the wrap test of the code lands
    on the next slot, cyclically. *)
Lemma advance_slot base isz cap i :
  0 < cap -> 0 <= isz -> 0 <= i < cap ->
  (if slot base isz i + isz >? slot base isz (cap - 1)
   then base else slot base isz i + isz)
  = slot base isz ((i + 1) mod cap).
Proof.
  intros Hc Hi Hr. rewrite Z.gtb_ltb. unfold slot.
  destruct (Z.ltb_spec (base + (cap - 1) * isz) (base + i * isz + isz))
    as [H|H].
  - assert (E : i + 1 = cap) by nia.
    rewrite E, Z.mod_same by lia. lia.
  - destruct (Z.eq_dec isz 0) as [->|Hnz]; [lia|].
    assert (E : i + 1 < cap) by nia.
    rewrite Z.mod_small by lia. lia.
Qed.

Lemma slots_disjoint base isz i j :
  0 <= isz -> i <> j ->
  slot base isz i + isz <= slot base isz j \/
  slot base isz j + isz <= slot base isz i.
Proof. intros Hi Hne. unfold slot. nia. Qed.

Lemma mod_add_inj hi a b cap :
  0 <= a < cap -> 0 <= b < cap ->
  (hi + a) mod cap = (hi + b) mod cap -> a = b.
Proof.
  intros Ha Hb H.
  assert (Hc : 0 < cap) by lia.
  assert (Hd : (a - b) mod cap = 0).
  { replace (a - b) with ((hi + a) - (hi + b)) by lia.
    rewrite Zminus_mod, H, Z.sub_diag. apply Z.mod_0_l. lia. }
  apply Z.mod_divide in Hd; [|lia].
  destruct Hd as [c Hd].
  assert (Hc0 : c = 0) by nia.
  subst c. lia.
Qed.

Ltac run_M := unfold_M; simpl; repeat (case_match; simplify_eq/=).

(** What a [QueueWrite] that finds room does when no other call
    interleaves with it. *)
Lemma QueueWrite_room buff w :
  free (que w) <> 0 -> w_lock (que w) = 0 ->
  let q := que w in
  let r := QueueWrite buff w in
  let q' := que (snd r) in
  fst r = 1 /\
  mem (snd r)
    = mem_store (mem w) (tail_ptr q) (take (Z.to_nat (item_size q)) buff) /\
  item_size q' = item_size q /\ buff_ptr q' = buff_ptr q /\
  buff_end_ptr q' = buff_end_ptr q /\ head_ptr q' = head_ptr q /\
  tail_ptr q' = (if tail_ptr q + item_size q >? buff_end_ptr q
                 then buff_ptr q else tail_ptr q + item_size q) /\
  free q' = to_len_t (free q - 1) /\
  used q' = to_len_t (used q + to_len_t 1) /\
  w_lock q' = 0 /\ r_lock q' = r_lock q.
Proof.
  intros Hf Hw. apply Z.eqb_neq in Hf.
  unfold_M. simpl. rewrite Hf. simpl. rewrite Hw. simpl.
  repeat (case_match; simplify_eq/=); repeat split; reflexivity.
Qed.

(** What a [QueueRead] that finds an item does when no other call
    interleaves with it. *)
Lemma QueueRead_item buff w :
  used (que w) <> 0 -> r_lock (que w) = 0 ->
  let q := que w in
  let r := QueueRead buff w in
  let q' := que (snd r) in
  fst r = (1, mem_load (mem w) (head_ptr q) (Z.to_nat (item_size q))
              ++ drop (Z.to_nat (item_size q)) buff) /\
  mem (snd r) = mem w /\
  item_size q' = item_size q /\ buff_ptr q' = buff_ptr q /\
  buff_end_ptr q' = buff_end_ptr q /\ tail_ptr q' = tail_ptr q /\
  head_ptr q' = (if head_ptr q + item_size q >? buff_end_ptr q
                 then buff_ptr q else head_ptr q + item_size q) /\
  used q' = to_len_t (used q - 1) /\
  free q' = to_len_t (free q + to_len_t 1) /\
  r_lock q' = 0 /\ w_lock q' = w_lock q.
Proof.
  intros Hu Hr. apply Z.eqb_neq in Hu.
  unfold_M. simpl. rewrite Hu. simpl. rewrite Hr. simpl.
  repeat (case_match; simplify_eq/=); repeat split; reflexivity.
Qed.

(** A [QueueWrite] on a queue without a free slot, and a [QueueRead] on a
    queue without a used item, only enter and leave the critical section. *)
Lemma QueueWrite_no_room buff w :
  free (que w) = 0 ->
  QueueWrite buff w
  = (0, {| que := que w; mem := mem w; sched_lock := sched_lock w;
           current_task := current_task w;
           trace := trace w ++ [Ev_CRITICAL_ENTER; Ev_CRITICAL_EXIT] |}).
Proof.
  intros Hf. unfold_M. simpl. rewrite Hf. simpl.
  rewrite <- app_assoc. reflexivity.
Qed.

Lemma QueueRead_no_item buff w :
  used (que w) = 0 ->
  QueueRead buff w
  = ((0, buff),
     {| que := que w; mem := mem w; sched_lock := sched_lock w;
        current_task := current_task w;
        trace := trace w ++ [Ev_CRITICAL_ENTER; Ev_CRITICAL_EXIT] |}).
Proof.
  intros Hu. unfold_M. simpl. rewrite Hu. simpl.
  rewrite <- app_assoc. reflexivity.
Qed.

Lemma Repr_write cap isz base hi items item w :
  is_len_t cap ->
  Repr cap isz base hi items w ->
  Z.of_nat (length items) < cap ->
  length item = Z.to_nat isz ->
  fst (QueueWrite item w) = 1 /\
  Repr cap isz base hi (items ++ [item]) (snd (QueueWrite item w)).
Proof.
  intros Hcap [Hisz Hb He Hh Ht Hhi Hi Hu Hf Hwl Hrl Hlen Hit] Hroom Hitem.
  unfold is_len_t in Hcap.
  destruct (QueueWrite_room item w) as
    (Hr & Hm & Hisz' & Hb' & He' & Hh' & Ht' & Hf' & Hu' & Hwl' & Hrl');
    [lia|exact Hwl|].
  split; [exact Hr|].
  assert (Hmod : 0 <= (hi + Z.of_nat (length items)) mod cap < cap)
    by (apply Z.mod_pos_bound; lia).
  rewrite Hisz in *. rewrite Hb, He, Ht in Ht'.
  rewrite advance_slot in Ht' by lia.
  rewrite Zplus_mod_idemp_l in Ht'.
  rewrite take_ge in Hm by lia.
  constructor; try assumption; try congruence.
  - rewrite Ht', length_app. simpl. f_equal. f_equal. lia.
  - rewrite Hu', Hu, length_app. simpl.
    rewrite (to_len_t_small 1) by (unfold is_len_t; lia).
    rewrite to_len_t_small by (unfold is_len_t; lia). lia.
  - rewrite Hf', Hf, length_app. simpl.
    rewrite to_len_t_small by (unfold is_len_t; lia). lia.
  - rewrite length_app. simpl. lia.
  - intros k it Hk. rewrite Hm, Ht.
    destruct (decide (k < length items)%nat) as [Hlt|Hge].
    + rewrite lookup_app_l in Hk by exact Hlt.
      destruct (Hit k it Hk) as [Hl Hload]. split; [exact Hl|].
      rewrite mem_load_store_other; [exact Hload|].
      rewrite Hitem, Z2Nat.id by lia.
      apply slots_disjoint; [lia|].
      intros E. apply mod_add_inj in E; lia.
    + rewrite lookup_app_r in Hk by lia.
      destruct (k - length items)%nat as [|n] eqn:Ek; [|destruct n; discriminate].
      simpl in Hk. injection Hk as <-. split; [exact Hitem|].
      replace (Z.of_nat k) with (Z.of_nat (length items)) by lia.
      rewrite <- Hitem. apply mem_load_store_same.
Qed.

Lemma Repr_read cap isz base hi x items buff w :
  is_len_t cap ->
  Repr cap isz base hi (x :: items) w ->
  length buff = Z.to_nat isz ->
  fst (QueueRead buff w) = (1, x) /\
  Repr cap isz base ((hi + 1) mod cap) items (snd (QueueRead buff w)).
Proof.
  intros Hcap [Hisz Hb He Hh Ht Hhi Hi Hu Hf Hwl Hrl Hlen Hit] Hbuff.
  unfold is_len_t in Hcap. simpl length in *.
  destruct (QueueRead_item buff w) as
    (Hr & Hm & Hisz' & Hb' & He' & Ht' & Hh' & Hu' & Hf' & Hrl' & Hwl');
    [lia|exact Hrl|].
  assert (Hmod : 0 <= (hi + 1) mod cap < cap) by (apply Z.mod_pos_bound; lia).
  rewrite Hisz in *. rewrite Hb, He, Hh in Hh'.
  rewrite advance_slot in Hh' by lia.
  split.
  - rewrite Hr, Hh. destruct (Hit 0%nat x eq_refl) as [Hl Hload].
    rewrite Z.add_0_r, Z.mod_small in Hload by lia. rewrite Hload.
    rewrite drop_ge by lia. rewrite app_nil_r. reflexivity.
  - constructor; try assumption; try congruence.
    + rewrite Ht', Ht. f_equal. rewrite Zplus_mod_idemp_l. f_equal. lia.
    + rewrite Hu', Hu. rewrite to_len_t_small by (unfold is_len_t; lia). lia.
    + rewrite Hf', Hf.
      rewrite (to_len_t_small 1) by (unfold is_len_t; lia).
      rewrite to_len_t_small by (unfold is_len_t; lia). lia.
    + lia.
    + intros k it Hk. rewrite Hm.
      destruct (Hit (S k) it Hk) as [Hl Hload]. split; [exact Hl|].
      rewrite Zplus_mod_idemp_l.
      replace (hi + 1 + Z.of_nat k) with (hi + Z.of_nat (S k)) by lia.
      exact Hload.
Qed.

Lemma Repr_same cap isz base hi items w w' :
  que w' = que w -> mem w' = mem w ->
  Repr cap isz base hi items w -> Repr cap isz base hi items w'.
Proof.
  intros Hq Hm [Hisz Hb He Hh Ht Hhi Hi Hu Hf Hwl Hrl Hlen Hit].
  constructor; rewrite ?Hq, ?Hm; assumption.
Qed.

Lemma Holds_QueueInit base cap isz w :
  0 <= cap -> 0 <= isz -> Holds cap isz base [] (QueueInit base cap isz w).
Proof.
  intros Hc Hi. destruct (Z.eq_dec cap 0) as [->|Hnz].
  - left. repeat split; reflexivity.
  - right. exists 0. apply Repr_QueueInit; lia.
Qed.

Lemma Holds_used cap isz base items w :
  Holds cap isz base items w -> used (que w) = Z.of_nat (length items).
Proof.
  intros [(_ & -> & Hu & _)|[hi HR]]; [exact Hu|exact (R_used _ _ _ _ _ _ HR)].
Qed.

Lemma Holds_run_call cap isz base items c w :
  is_len_t cap -> call_ok isz c -> Holds cap isz base items w ->
  fst (run_call c w) = fst (fifo_call cap c items) /\
  Holds cap isz base (snd (fifo_call cap c items)) (snd (run_call c w)).
Proof.
  intros Hcap Hok [(-> & -> & Hu & Hf)|[hi HR]].
  - destruct c as [buff|buff]; simpl.
    + rewrite (QueueWrite_no_room buff w Hf). simpl.
      split; [reflexivity|]. left. repeat split; assumption.
    + rewrite (QueueRead_no_item buff w Hu). simpl.
      split; [reflexivity|]. left. repeat split; assumption.
  - destruct c as [buff|buff]; simpl in *.
    + destruct (Z.ltb_spec (Z.of_nat (length items)) cap) as [Hlt|Hge].
      * destruct (Repr_write cap isz base hi items buff w Hcap HR Hlt Hok)
          as [Hv HR'].
        destruct (QueueWrite buff w) as [val w']. simpl in *. subst val.
        split; [reflexivity|]. right. exists hi. exact HR'.
      * assert (Hf : free (que w) = 0).
        { rewrite (R_free _ _ _ _ _ _ HR).
          pose proof (R_length _ _ _ _ _ _ HR). lia. }
        rewrite (QueueWrite_no_room buff w Hf). simpl.
        split; [reflexivity|]. right. exists hi.
        eapply Repr_same; [| |exact HR]; reflexivity.
    + destruct items as [|x items].
      * assert (Hu : used (que w) = 0) by exact (R_used _ _ _ _ _ _ HR).
        rewrite (QueueRead_no_item buff w Hu). simpl.
        split; [reflexivity|]. right. exists hi.
        eapply Repr_same; [| |exact HR]; reflexivity.
      * destruct (Repr_read cap isz base hi x items buff w Hcap HR Hok)
          as [Hr HR'].
        destruct (QueueRead buff w) as [r w']. simpl in *. subst r.
        split; [reflexivity|]. right. eexists. exact HR'.
Qed.

(** Used one call at a time, the queue behaves as the bounded
    first-in first-out list. *)
Lemma Holds_run_calls cap isz base cs :
  is_len_t cap -> Forall (call_ok isz) cs ->
  forall items w,
    Holds cap isz base items w ->
    fst (run_calls cs w) = fst (fifo_calls cap cs items) /\
    Holds cap isz base (snd (fifo_calls cap cs items)) (snd (run_calls cs w)).
Proof.
  intros Hcap Hcs. induction Hcs as [|c cs Hc _ IH]; intros items w H.
  - simpl. split; [reflexivity|exact H].
  - simpl.
    destruct (Holds_run_call cap isz base items c w Hcap Hc H) as [Ho H1].
    destruct (run_call c w) as [o w1].
    destruct (fifo_call cap c items) as [o' items1]. simpl in Ho, H1. subst o'.
    destruct (IH items1 w1 H1) as [Hos H2].
    destruct (run_calls cs w1) as [os w2].
    destruct (fifo_calls cap cs items1) as [os' items2]. simpl in *.
    split; [f_equal; exact Hos|exact H2].
Qed.

(** The model: writing into room, then reading everything back. *)
Lemma fifo_calls_app cap cs1 cs2 items :
  fifo_calls cap (cs1 ++ cs2) items
  = (fst (fifo_calls cap cs1 items)
       ++ fst (fifo_calls cap cs2 (snd (fifo_calls cap cs1 items))),
     snd (fifo_calls cap cs2 (snd (fifo_calls cap cs1 items)))).
Proof.
  revert items. induction cs1 as [|c cs1 IH]; intros items; simpl.
  - destruct (fifo_calls cap cs2 items); reflexivity.
  - destruct (fifo_call cap c items) as [o items1].
    rewrite IH. destruct (fifo_calls cap cs1 items1) as [os items2].
    reflexivity.
Qed.

Lemma fifo_calls_writes cap new items :
  Z.of_nat (length items + length new) <= cap ->
  fifo_calls cap (map Call_QueueWrite new) items
  = (map (fun _ => Wrote 1) new, items ++ new).
Proof.
  revert items. induction new as [|x new IH]; intros items Hlen; simpl.
  - rewrite app_nil_r. reflexivity.
  - simpl in Hlen.
    destruct (Z.ltb_spec (Z.of_nat (length items)) cap) as [_|Hge]; [|lia].
    rewrite IH by (rewrite length_app; simpl; lia).
    rewrite <- app_assoc. reflexivity.
Qed.

Lemma fifo_calls_reads cap buff items :
  fifo_calls cap (replicate (length items) (Call_QueueRead buff)) items
  = (map (fun item => Got 1 item) items, []).
Proof.
  induction items as [|x items IH]; simpl; [reflexivity|].
  rewrite IH. reflexivity.
Qed.

(** C2. On a queue that is empty after [QueueInit] and any earlier calls,
    writing [N] items, [N] no more than the capacity, succeeds [N] times;
    [N] reads then give the items back in the order written, and one more
    read fails and leaves the caller's buffer alone. *)
Theorem queue_fifo_order :
  forall (base cap isz : Z) (w0 : world) (before : list call)
         (items : list (list byte)) (buff : list byte),
    is_len_t cap -> 0 <= isz ->
    Forall (call_ok isz) before ->
    let w := snd (run_calls before (QueueInit base cap isz w0)) in
    used (que w) = 0 ->
    Z.of_nat (length items) <= cap ->
    Forall (fun item => length item = Z.to_nat isz) items ->
    length buff = Z.to_nat isz ->
    fst (run_calls (map Call_QueueWrite items
                      ++ replicate (length items) (Call_QueueRead buff)
                      ++ [Call_QueueRead buff]) w)
    = map (fun _ => Wrote 1) items
        ++ map (fun item => Got 1 item) items
        ++ [Got 0 buff].
Proof.
  intros base cap isz w0 before items buff Hcap Hisz Hbefore w Hempty
         Hlen Hitems Hbuff.
  destruct (Holds_run_calls cap isz base before Hcap Hbefore []
              (QueueInit base cap isz w0)) as [_ H0].
  { apply Holds_QueueInit; [apply Hcap|exact Hisz]. }
  fold w in H0.
  assert (E : snd (fifo_calls cap before []) = []).
  { apply Holds_used in H0. rewrite Hempty in H0.
    destruct (snd (fifo_calls cap before [])); [reflexivity|simpl in H0; lia]. }
  rewrite E in H0.
  destruct (Holds_run_calls cap isz base
              (map Call_QueueWrite items
                 ++ replicate (length items) (Call_QueueRead buff)
                 ++ [Call_QueueRead buff]) Hcap) with (items := @nil (list byte))
              (w := w) as [Hout _].
  { apply Forall_app. split.
    - apply Forall_map. exact Hitems.
    - apply Forall_app. split.
      + apply Forall_replicate. exact Hbuff.
      + constructor; [exact Hbuff|constructor]. }
  { exact H0. }
  rewrite Hout.
  rewrite fifo_calls_app, fifo_calls_writes by (simpl; lia). simpl.
  rewrite fifo_calls_app, fifo_calls_reads. reflexivity.
Qed.

(** C6. [QueueWrite] on a queue with no free slot and [QueueRead] on a
    queue with no used item return 0 and change neither the queue record
    nor the memory; and on a queue of length 2: writes of [a] and [b]
    succeed, a write of [c] fails, a read gives [a], a write of [c]
    succeeds, reads give [b] and then [c], and the next read fails. *)
Theorem queue_full_and_empty_fail :
  forall (w : world) (buff : list byte),
    (free (que w) = 0 ->
     fst (QueueWrite buff w) = 0 /\
     que (snd (QueueWrite buff w)) = que w /\
     mem (snd (QueueWrite buff w)) = mem w) /\
    (used (que w) = 0 ->
     fst (QueueRead buff w) = (0, buff) /\
     que (snd (QueueRead buff w)) = que w /\
     mem (snd (QueueRead buff w)) = mem w) /\
    (forall (base isz : Z) (a b c : list byte),
       is_len_t 2 -> 0 <= isz ->
       length a = Z.to_nat isz -> length b = Z.to_nat isz ->
       length c = Z.to_nat isz -> length buff = Z.to_nat isz ->
       fst (run_calls [Call_QueueWrite a; Call_QueueWrite b;
                       Call_QueueWrite c; Call_QueueRead buff;
                       Call_QueueWrite c; Call_QueueRead buff;
                       Call_QueueRead buff; Call_QueueRead buff]
              (QueueInit base 2 isz w))
       = [Wrote 1; Wrote 1; Wrote 0; Got 1 a; Wrote 1; Got 1 b; Got 1 c;
          Got 0 buff]).
Proof.
  intros w buff. split; [|split].
  - intros Hf. rewrite (QueueWrite_no_room buff w Hf). simpl. auto.
  - intros Hu. rewrite (QueueRead_no_item buff w Hu). simpl. auto.
  - intros base isz a b c H2 Hisz Ha Hb Hc Hbuff.
    match goal with |- fst (run_calls ?cs ?w1) = _ =>
      destruct (Holds_run_calls 2 isz base cs H2) with (items := @nil (list byte))
        (w := w1) as [Hout _]
    end.
    { repeat constructor; assumption. }
    { apply Holds_QueueInit; lia. }
    rewrite Hout. reflexivity.
Qed.

(** *** Order of the calls made by a queue operation *)

Lemma events_of_app {A} (m : M A) w evs :
  trace (snd (m w)) = trace w ++ evs -> events_of m w = evs.
Proof. intros H. unfold events_of. rewrite H. apply drop_app_length. Qed.

(** The two protocols side by side. [QueueRead] does to [used], [r_lock],
    the head and [list_write] what [QueueWrite] does to [free], [w_lock],
    the tail and [list_read], with the same result; but the two do not take
    the scheduler lock at the same point: [QueueWrite] calls [SchedulerLock]
    before it leaves the critical section for the copy, [QueueRead] copies
    without it and calls [SchedulerLock] only after it has entered the
    critical section again, before the unblock check. *)
Theorem queue_read_mirrors_write_but_locks_after_copy :
  forall (w : world) (buff_r buff_w : list byte),
    let rr := QueueRead buff_r w in
    let rw := QueueWrite buff_w (mirror_world w) in
    fst (fst rr) = fst rw /\
    que (snd rr) = mirror_que (que (snd rw)) /\
    sched_lock (snd rr) = sched_lock (snd rw) /\
    (used (que w) <> 0 ->
     exists unblock : list trace_event,
       events_of (QueueWrite buff_w) (mirror_world w)
       = [Ev_CRITICAL_ENTER; Ev_SchedulerLock; Ev_CRITICAL_EXIT;
          Ev_memcpy; Ev_TEST_CONCURRENT_ACCESS; Ev_CRITICAL_ENTER]
           ++ unblock ++ [Ev_CRITICAL_EXIT; Ev_SchedulerUnlock] /\
       events_of (QueueRead buff_r) w
       = [Ev_CRITICAL_ENTER; Ev_CRITICAL_EXIT;
          Ev_memcpy; Ev_TEST_CONCURRENT_ACCESS; Ev_CRITICAL_ENTER;
          Ev_SchedulerLock]
           ++ map mirror_event unblock
           ++ [Ev_CRITICAL_EXIT; Ev_SchedulerUnlock] /\
       lock_before_copy (events_of (QueueWrite buff_w) (mirror_world w))
       = true /\
       lock_before_copy (events_of (QueueRead buff_r) w) = false).
Proof.
  intros w buff_r buff_w rr rw.
  assert (Hfields :
    fst (fst rr) = fst rw /\ que (snd rr) = mirror_que (que (snd rw)) /\
    sched_lock (snd rr) = sched_lock (snd rw)).
  { subst rr rw.
    destruct w as [[isz fr us wl rl hp tp bp be [lr lw]] m sl ct tr].
    unfold_M. unfold mirror_world, mirror_que. simpl.
    repeat (case_match; simplify_eq/=); repeat split; try reflexivity; lia. }
  destruct Hfields as (H1 & H2 & H3).
  repeat split; try assumption.
  intros Hu. apply Z.eqb_neq in Hu.
  assert (Htr : exists unblock,
    trace (snd (QueueWrite buff_w (mirror_world w)))
    = trace (mirror_world w)
        ++ [Ev_CRITICAL_ENTER; Ev_SchedulerLock; Ev_CRITICAL_EXIT;
            Ev_memcpy; Ev_TEST_CONCURRENT_ACCESS; Ev_CRITICAL_ENTER]
        ++ unblock ++ [Ev_CRITICAL_EXIT; Ev_SchedulerUnlock] /\
    trace (snd (QueueRead buff_r w))
    = trace w
        ++ [Ev_CRITICAL_ENTER; Ev_CRITICAL_EXIT;
            Ev_memcpy; Ev_TEST_CONCURRENT_ACCESS; Ev_CRITICAL_ENTER;
            Ev_SchedulerLock]
        ++ map mirror_event unblock
        ++ [Ev_CRITICAL_EXIT; Ev_SchedulerUnlock]).
  { clear H1 H2 H3. clear rr rw.
    destruct w as [[isz fr us wl rl hp tp bp be [lr lw]] m sl ct tr].
    unfold_M. unfold mirror_world, mirror_que. simpl in *. rewrite Hu. simpl.
    destruct lw as [|t rest];
      [exists []|exists [Ev_OSEventUnblockTasks List_read t]];
      repeat (case_match; simplify_eq/=);
      rewrite <- ?app_assoc; simpl; split; reflexivity. }
  destruct Htr as (unblock & Hw & Hr).
  exists unblock.
  rewrite (events_of_app _ _ _ Hw), (events_of_app _ _ _ Hr).
  repeat split; reflexivity.
Qed.

(** With an item stored [QueueReadPend] is [QueueRead], and with room
    [QueueWritePend] is [QueueWrite]: result, queue, memory and calls. *)
Lemma QueueReadPend_item buff ticks_to_wait w :
  used (que w) <> 0 ->
  QueueReadPend buff ticks_to_wait w = QueueRead buff w.
Proof.
  destruct w as [[isz fr us wl rl hp tp bp be [lr lw]] m sl ct tr].
  simpl. intros Hu. apply Z.eqb_neq in Hu.
  unfold QueueReadPend. unfold_M. simpl. rewrite Hu. simpl.
  repeat (case_match; simplify_eq/=); reflexivity.
Qed.

Lemma QueueWritePend_room buff ticks_to_wait w :
  free (que w) <> 0 ->
  QueueWritePend buff ticks_to_wait w = QueueWrite buff w.
Proof.
  destruct w as [[isz fr us wl rl hp tp bp be [lr lw]] m sl ct tr].
  simpl. intros Hf. apply Z.eqb_neq in Hf.
  unfold QueueWritePend. unfold_M. simpl. rewrite Hf. simpl.
  repeat (case_match; simplify_eq/=); reflexivity.
Qed.

(** C7, as the code has it. [QueueReadPend] and [QueueWritePend] make
    exactly one non-blocking attempt and return its result.  When the
    attempt succeeds they are that attempt and nothing more: the same
    result, queue, memory and calls as [QueueRead], respectively
    [QueueWrite].  When it fails they return 0, having logged one
    critical section and then, when [ticks_to_wait] is not zero, the
    pending of the running task; nothing is attempted again, and the
    counters, the pointers and the memory are as they were. *)
Theorem queue_pend_returns_first_attempt :
  forall (w : world) (buff : list byte) (ticks_to_wait : Z),
    fst (QueueReadPend buff ticks_to_wait w) = fst (QueueRead buff w) /\
    fst (QueueWritePend buff ticks_to_wait w) = fst (QueueWrite buff w) /\
    (used (que w) <> 0 ->
     QueueReadPend buff ticks_to_wait w = QueueRead buff w) /\
    (free (que w) <> 0 ->
     QueueWritePend buff ticks_to_wait w = QueueWrite buff w) /\
    (used (que w) = 0 ->
     fst (QueueReadPend buff ticks_to_wait w) = (0, buff) /\
     events_of (QueueReadPend buff ticks_to_wait) w
     = [Ev_CRITICAL_ENTER; Ev_CRITICAL_EXIT]
         ++ (if ticks_to_wait =? 0 then []
             else [Ev_SchedulerLock; Ev_INTERRUPTS_DISABLE;
                   Ev_OSEventPrePendTask List_read (current_task w);
                   Ev_INTERRUPTS_ENABLE;
                   Ev_OSEventPendTask List_read (current_task w)
                                      ticks_to_wait;
                   Ev_SchedulerUnlock]) /\
     set_event (event (que w)) (que (snd (QueueReadPend buff ticks_to_wait w)))
     = que w /\
     mem (snd (QueueReadPend buff ticks_to_wait w)) = mem w) /\
    (free (que w) = 0 ->
     fst (QueueWritePend buff ticks_to_wait w) = 0 /\
     events_of (QueueWritePend buff ticks_to_wait) w
     = [Ev_CRITICAL_ENTER; Ev_CRITICAL_EXIT]
         ++ (if ticks_to_wait =? 0 then []
             else [Ev_SchedulerLock; Ev_INTERRUPTS_DISABLE;
                   Ev_OSEventPrePendTask List_write (current_task w);
                   Ev_INTERRUPTS_ENABLE;
                   Ev_OSEventPendTask List_write (current_task w)
                                      ticks_to_wait;
                   Ev_SchedulerUnlock]) /\
     set_event (event (que w))
       (que (snd (QueueWritePend buff ticks_to_wait w)))
     = que w /\
     mem (snd (QueueWritePend buff ticks_to_wait w)) = mem w).
Proof.
  intros w buff ticks. split; [|split; [|split; [|split; [|split]]]].
  - unfold QueueReadPend, bind, ret.
    destruct (QueueRead buff w) as [r w1]. simpl.
    destruct (fst r =? 0); [destruct (QueuePendRead ticks w1)|]; reflexivity.
  - unfold QueueWritePend, bind, ret.
    destruct (QueueWrite buff w) as [r w1]. simpl.
    destruct (r =? 0); [destruct (QueuePendWrite ticks w1)|]; reflexivity.
  - apply QueueReadPend_item.
  - apply QueueWritePend_room.
  - intros Hu. unfold QueueReadPend, bind at 1 2.
    unfold events_of, QueueReadPend, bind at 1 2.
    rewrite (QueueRead_no_item buff w Hu). simpl.
    unfold QueuePendRead, OSEventPrePendTask, OSEventPendTask, GetCurrentTask,
      INTERRUPTS_DISABLE, INTERRUPTS_ENABLE.
    unfold_M. simpl.
    destruct w as [[isz fr us wl rl hp tp bp be [lr lw]] m sl ct tr].
    simpl in *.
    destruct (ticks =? 0); simpl; rewrite ?Hu; simpl;
      repeat split; try reflexivity.
    + rewrite drop_app_length. reflexivity.
    + rewrite <- !app_assoc. rewrite drop_app_length. reflexivity.
  - intros Hf. unfold QueueWritePend, bind at 1 2.
    unfold events_of, QueueWritePend, bind at 1 2.
    rewrite (QueueWrite_no_room buff w Hf). simpl.
    unfold QueuePendWrite, OSEventPrePendTask, OSEventPendTask, GetCurrentTask,
      INTERRUPTS_DISABLE, INTERRUPTS_ENABLE.
    unfold_M. simpl.
    destruct w as [[isz fr us wl rl hp tp bp be [lr lw]] m sl ct tr].
    simpl in *.
    destruct (ticks =? 0); simpl; rewrite ?Hf; simpl;
      repeat split; try reflexivity.
    + rewrite drop_app_length. reflexivity.
    + rewrite <- !app_assoc. rewrite drop_app_length. reflexivity.
Qed.

(** *** Further properties of the queue *)

Lemma mem_store_other m p bs a :
  a < p \/ p + Z.of_nat (length bs) <= a -> mem_store m p bs a = m a.
Proof.
  intros H. unfold mem_store.
  replace ((p <=? a) && (a <? p + Z.of_nat (length bs))) with false;
    [reflexivity|].
  symmetry. apply andb_false_iff. lia.
Qed.

Lemma run_call_mem_frame cap isz base items c w a :
  is_len_t cap -> call_ok isz c -> Holds cap isz base items w ->
  a < base \/ base + cap * isz <= a ->
  mem (snd (run_call c w)) a = mem w a.
Proof.
  intros Hcap Hok [(-> & -> & Hu & Hf)|[hi HR]] Ha.
  - destruct c as [buff|buff]; simpl.
    + rewrite (QueueWrite_no_room buff w Hf). reflexivity.
    + rewrite (QueueRead_no_item buff w Hu). reflexivity.
  - destruct c as [buff|buff]; simpl in *.
    + destruct (Z.eq_dec (free (que w)) 0) as [Hf|Hf].
      * rewrite (QueueWrite_no_room buff w Hf). reflexivity.
      * destruct (QueueWrite_room buff w Hf (R_w_lock _ _ _ _ _ _ HR))
          as (_ & Hm & _).
        destruct (QueueWrite buff w) as [val w']. simpl in *.
        rewrite Hm. apply mem_store_other.
        destruct HR as [Hisz Hb He Hh Ht Hhi Hi Hu Hfr Hwl Hrl Hlen Hit].
        rewrite Ht, Hisz. rewrite length_take. unfold slot.
        assert (0 < cap) by lia.
        pose proof (Z.mod_pos_bound (hi + Z.of_nat (length items)) cap H).
        nia.
    + destruct (Z.eq_dec (used (que w)) 0) as [Hu|Hu].
      * rewrite (QueueRead_no_item buff w Hu). reflexivity.
      * destruct (QueueRead_item buff w Hu (R_r_lock _ _ _ _ _ _ HR))
          as (_ & Hm & _).
        destruct (QueueRead buff w) as [r w']. simpl in *.
        rewrite Hm. reflexivity.
Qed.

Lemma Holds_free cap isz base items w :
  Holds cap isz base items w -> free (que w) = cap - Z.of_nat (length items).
Proof.
  intros [(-> & -> & _ & Hf)|[hi HR]]; [rewrite Hf; reflexivity|].
  exact (R_free _ _ _ _ _ _ HR).
Qed.

Lemma Holds_length cap isz base items w :
  0 <= cap -> Holds cap isz base items w -> Z.of_nat (length items) <= cap.
Proof.
  intros Hc [(-> & -> & _ & _)|[hi HR]]; [simpl; lia|].
  exact (R_length _ _ _ _ _ _ HR).
Qed.

Lemma run_calls_mem_frame cap isz base cs a :
  is_len_t cap -> Forall (call_ok isz) cs ->
  a < base \/ base + cap * isz <= a ->
  forall items w,
    Holds cap isz base items w ->
    mem (snd (run_calls cs w)) a = mem w a.
Proof.
  intros Hcap Hcs Ha. induction Hcs as [|c cs Hc _ IH]; intros items w H.
  - reflexivity.
  - simpl.
    pose proof (run_call_mem_frame cap isz base items c w a Hcap Hc H Ha) as Hm.
    destruct (Holds_run_call cap isz base items c w Hcap Hc H) as [_ H1].
    destruct (run_call c w) as [o w1]. simpl in Hm, H1.
    specialize (IH _ _ H1).
    destruct (run_calls cs w1) as [os w2]. simpl in *. congruence.
Qed.

(** X1. Used one call at a time, in any order of [QueueWrite] and
    [QueueRead] calls with buffers of the item size, a queue initialised
    with a capacity that fits [len_t] returns what a bounded first-in
    first-out list of that capacity returns: a write fails exactly when
    the capacity is reached, a read fails exactly when nothing is stored
    and otherwise gives the oldest item stored. *)
Theorem queue_sequential_calls_are_fifo :
  forall (base cap isz : Z) (w0 : world) (cs : list call),
    is_len_t cap -> 0 <= isz -> Forall (call_ok isz) cs ->
    fst (run_calls cs (QueueInit base cap isz w0))
    = fst (fifo_calls cap cs []).
Proof.
  intros base cap isz w0 cs Hcap Hisz Hcs.
  apply (Holds_run_calls cap isz base cs Hcap Hcs).
  apply Holds_QueueInit; [apply Hcap|exact Hisz].
Qed.

(** X2. After any such sequence of calls [QueueUsed] returns the number of
    items stored and [QueueFree] the number of slots left, [QueueEmpty]
    returns 1 exactly when nothing is stored and [QueueFull] returns 1
    exactly when the capacity is reached; the four leave the queue record
    and the memory as they are. *)
Theorem queue_observers_count_the_items :
  forall (base cap isz : Z) (w0 : world) (cs : list call),
    is_len_t cap -> 0 <= isz -> Forall (call_ok isz) cs ->
    let w := snd (run_calls cs (QueueInit base cap isz w0)) in
    let items := snd (fifo_calls cap cs []) in
    fst (QueueUsed w) = Z.of_nat (length items) /\
    fst (QueueFree w) = cap - Z.of_nat (length items) /\
    (fst (QueueEmpty w) = 1 <-> items = []) /\
    (fst (QueueEmpty w) = 0 <-> items <> []) /\
    (fst (QueueFull w) = 1 <-> Z.of_nat (length items) = cap) /\
    (fst (QueueFull w) = 0 <-> Z.of_nat (length items) < cap) /\
    (forall m : M Z,
       m = QueueUsed \/ m = QueueFree \/ m = QueueEmpty \/ m = QueueFull ->
       que (snd (m w)) = que w /\ mem (snd (m w)) = mem w).
Proof.
  intros base cap isz w0 cs Hcap Hisz Hcs w items.
  assert (H : Holds cap isz base items w).
  { apply (Holds_run_calls cap isz base cs Hcap Hcs).
    apply Holds_QueueInit; [apply Hcap|exact Hisz]. }
  pose proof (Holds_used _ _ _ _ _ H) as Hu.
  pose proof (Holds_free _ _ _ _ _ H) as Hf.
  pose proof (Holds_length _ _ _ _ _ (proj1 Hcap) H) as Hl.
  clearbody w items.
  assert (HU : fst (QueueUsed w) = used (que w)) by reflexivity.
  assert (HF : fst (QueueFree w) = free (que w)) by reflexivity.
  assert (HE : fst (QueueEmpty w) = if used (que w) =? 0 then 1 else 0)
    by reflexivity.
  assert (HFu : fst (QueueFull w) = if free (que w) =? 0 then 1 else 0)
    by reflexivity.
  rewrite HU, HF, HE, HFu, Hu, Hf.
  assert (Hsame : forall m : M Z,
    m = QueueUsed \/ m = QueueFree \/ m = QueueEmpty \/ m = QueueFull ->
    que (snd (m w)) = que w /\ mem (snd (m w)) = mem w).
  { intros m [-> | [-> | [-> | ->]]]; split; reflexivity. }
  split; [reflexivity|]. split; [reflexivity|].
  split; [split|]; [| |split; [split|]; [| |split; [split|];
    [| |split; [split|exact Hsame]]]].
  - destruct (Z.eqb_spec (Z.of_nat (length items)) 0) as [E|E];
      [intros _; destruct items; [reflexivity|discriminate]|discriminate].
  - intros ->. reflexivity.
  - destruct (Z.eqb_spec (Z.of_nat (length items)) 0) as [E|E];
      [discriminate|intros _ ->; apply E; reflexivity].
  - intros Hne. destruct items; [contradiction|reflexivity].
  - destruct (Z.eqb_spec (cap - Z.of_nat (length items)) 0);
      [lia|discriminate].
  - intros E. rewrite E, Z.sub_diag. reflexivity.
  - destruct (Z.eqb_spec (cap - Z.of_nat (length items)) 0);
      [discriminate|lia].
  - intros E. destruct (Z.eqb_spec (cap - Z.of_nat (length items)) 0);
      [lia|reflexivity].
Qed.

(** X3. Used one call at a time, the queue never writes a byte of its
    memory outside the [length * item_size] bytes of the buffer given to
    [QueueInit]: every store of [QueueWrite] falls within them.
    ([QueueRead] stores only into the buffer of its caller, which is
    returned as a value here and is no part of this memory.) *)
Theorem queue_writes_stay_in_buffer :
  forall (base cap isz : Z) (w0 : world) (cs : list call) (a : Z),
    is_len_t cap -> 0 <= isz -> Forall (call_ok isz) cs ->
    a < base \/ base + cap * isz <= a ->
    mem (snd (run_calls cs (QueueInit base cap isz w0))) a = mem w0 a.
Proof.
  intros base cap isz w0 cs a Hcap Hisz Hcs Ha.
  rewrite (run_calls_mem_frame cap isz base cs a Hcap Hcs Ha []).
  - reflexivity.
  - apply Holds_QueueInit; [apply Hcap|exact Hisz].
Qed.

Lemma layout_exec_step st s :
  match st with Step_QueueInit _ _ _ => False | _ => True end ->
  layout (que (sys_world (exec_step st s))) = layout (que (sys_world s)).
Proof.
  destruct s as [w fs]. destruct st as [b l i|buff|buff|k|k|]; simpl;
    intros Hst; try contradiction.
  - unfold_M. simpl. repeat (case_match; simplify_eq/=); reflexivity.
  - unfold_M. simpl. repeat (case_match; simplify_eq/=); reflexivity.
  - destruct (fs !! k) as [f|]; [|reflexivity].
    destruct (fr_copied f); [reflexivity|].
    destruct (fr_kind f); unfold_M; simpl; reflexivity.
  - destruct (fs !! k) as [f|]; [|reflexivity].
    destruct (fr_copied f); [|reflexivity].
    destruct (fr_kind f); unfold_M; simpl;
      repeat (case_match; simplify_eq/=); reflexivity.
  - reflexivity.
Qed.

Lemma layout_exec_steps sts :
  Forall (fun st => match st with
                    | Step_QueueInit _ _ _ => False
                    | _ => True
                    end) sts ->
  forall s,
    layout (que (sys_world (exec_steps sts s))) = layout (que (sys_world s)).
Proof.
  unfold exec_steps. induction 1 as [|st sts Hst _ IH]; intros s.
  - reflexivity.
  - simpl. rewrite IH. apply layout_exec_step. exact Hst.
Qed.

(** X4. The item size of a queue is constant after initialisation, as
    the comment in [QueueItemSize] says: whatever reads and writes start,
    copy and commit, in whatever order, only [QueueInit] writes
    [item_size] (and the two ends of the buffer), so [QueueItemSize],
    which takes no lock, returns the size given to [QueueInit]; the
    pending calls write neither the size nor the two ends. *)
Theorem queue_item_size_is_constant :
  forall (base cap isz : Z) (w0 : world) (fs : list frame) (sts : list step),
    Forall (fun st => match st with
                      | Step_QueueInit _ _ _ => False
                      | _ => True
                      end) sts ->
    let w := sys_world (exec_steps sts
                          {| sys_world := QueueInit base cap isz w0;
                             in_flight := fs |}) in
    fst (QueueItemSize w) = isz /\
    snd (QueueItemSize w) = w /\
    buff_ptr (que w) = base /\
    buff_end_ptr (que w) = base + (cap - 1) * isz /\
    (forall (buff : list byte) (ticks_to_wait : Z),
       let wr := snd (QueueReadPend buff ticks_to_wait w) in
       let ww := snd (QueueWritePend buff ticks_to_wait w) in
       fst (QueueItemSize wr) = isz /\
       fst (QueueItemSize ww) = isz /\
       buff_ptr (que wr) = base /\
       buff_end_ptr (que wr) = base + (cap - 1) * isz /\
       buff_ptr (que ww) = base /\
       buff_end_ptr (que ww) = base + (cap - 1) * isz).
Proof.
  intros base cap isz w0 fs sts Hsts w.
  assert (H : layout (que w) = (isz, base, base + (cap - 1) * isz)).
  { subst w. rewrite (layout_exec_steps sts Hsts). reflexivity. }
  clearbody w. unfold layout in H. injection H as H1 H2 H3.
  split; [exact H1|]. split; [reflexivity|].
  split; [exact H2|]. split; [exact H3|].
  intros buff ticks. rewrite <- H3, <- H2, <- H1. clear.
  destruct w as [[isz fr us wl rl hp tp bp be [lr lw]] m sl ct tr].
  unfold QueueItemSize, QueueReadPend, QueueWritePend, QueuePendRead,
    QueuePendWrite, OSEventPrePendTask, OSEventPendTask, GetCurrentTask,
    INTERRUPTS_DISABLE, INTERRUPTS_ENABLE.
  unfold_M. simpl.
  repeat split; repeat (case_match; simplify_eq/=); reflexivity.
Qed.

(** X5. [QueueFull] and [QueueEmpty] tell what the next call will do, in
    every state of the queue, calls in flight or not: [QueueFull] returns
    1 exactly when a [QueueWrite] would fail and [QueueEmpty] returns 1
    exactly when a [QueueRead] would fail; both return 0 or 1. *)
Theorem queue_full_and_empty_predict :
  forall (w : world) (buff : list byte),
    (fst (QueueFull w) = 1 <-> fst (QueueWrite buff w) = 0) /\
    (fst (QueueFull w) = 0 <-> fst (QueueWrite buff w) = 1) /\
    (fst (QueueEmpty w) = 1 <-> fst (fst (QueueRead buff w)) = 0) /\
    (fst (QueueEmpty w) = 0 <-> fst (fst (QueueRead buff w)) = 1).
Proof.
  intros w buff.
  destruct w as [[isz fr us wl rl hp tp bp be [lr lw]] m sl ct tr].
  unfold QueueFull, QueueEmpty. unfold_M. simpl.
  destruct (Z.eqb_spec fr 0), (Z.eqb_spec us 0); simpl;
    repeat (case_match; simplify_eq/=);
    repeat split; intros; try reflexivity; try discriminate.
Qed.

Ltac events_crush :=
  unfold events_of;
  unfold QueueReadPend, QueueWritePend, QueuePendRead, QueuePendWrite,
    QueueEmpty, QueueFull, OSEventPrePendTask, OSEventPendTask,
    GetCurrentTask, INTERRUPTS_DISABLE, INTERRUPTS_ENABLE;
  unfold_M; simpl;
  repeat (case_match; simplify_eq/=);
  rewrite <- ?app_assoc; simpl; rewrite ?drop_app_length, ?drop_all;
  try reflexivity.

(** X6. Every queue function keeps the discipline of the port calls and
    returns with everything released: critical sections are entered and
    left in turn and none is open at the return, the scheduler is unlocked
    as often as it was locked, the copy of an item runs outside the
    critical sections, and a waiting task is unblocked only inside a
    critical section with the scheduler locked. *)
Theorem queue_calls_keep_port_discipline :
  forall (w : world) (buff : list byte) (ticks_to_wait : Z),
    disciplined (events_of (QueueRead buff) w) = true /\
    disciplined (events_of (QueueWrite buff) w) = true /\
    disciplined (events_of (QueueReadPend buff ticks_to_wait) w) = true /\
    disciplined (events_of (QueueWritePend buff ticks_to_wait) w) = true /\
    disciplined (events_of (QueuePendRead ticks_to_wait) w) = true /\
    disciplined (events_of (QueuePendWrite ticks_to_wait) w) = true /\
    disciplined (events_of QueueUsed w) = true /\
    disciplined (events_of QueueFree w) = true /\
    disciplined (events_of QueueLength w) = true /\
    disciplined (events_of QueueEmpty w) = true /\
    disciplined (events_of QueueFull w) = true.
Proof.
  intros w buff ticks.
  destruct w as [[isz fr us wl rl hp tp bp be [lr lw]] m sl ct tr].
  repeat split; events_crush.
Qed.

(** X7. [QueuePendRead] makes the running task wait only when
    [ticks_to_wait] is not zero and the queue is still empty, and
    [QueuePendWrite] only when it is not zero and the queue is still full;
    with a timeout of zero they do nothing at all.  Neither touches the
    counters, the pointers or the memory.  On a queue with an item
    [QueueReadPend] is [QueueRead], and on a queue with room
    [QueueWritePend] is [QueueWrite]. *)
Theorem queue_pend_only_while_unavailable :
  forall (w : world) (buff : list byte) (ticks_to_wait : Z),
    (pends (events_of (QueuePendRead ticks_to_wait) w) = true <->
     ticks_to_wait <> 0 /\ used (que w) = 0) /\
    (pends (events_of (QueuePendWrite ticks_to_wait) w) = true <->
     ticks_to_wait <> 0 /\ free (que w) = 0) /\
    QueuePendRead 0 w = (tt, w) /\
    QueuePendWrite 0 w = (tt, w) /\
    (forall m : M unit,
       m = QueuePendRead ticks_to_wait \/ m = QueuePendWrite ticks_to_wait ->
       set_event (event (que w)) (que (snd (m w))) = que w /\
       mem (snd (m w)) = mem w) /\
    (used (que w) <> 0 ->
     QueueReadPend buff ticks_to_wait w = QueueRead buff w) /\
    (free (que w) <> 0 ->
     QueueWritePend buff ticks_to_wait w = QueueWrite buff w).
Proof.
  intros w buff ticks.
  destruct w as [[isz fr us wl rl hp tp bp be [lr lw]] m sl ct tr].
  split; [|split; [|split; [|split; [|split; [|split]]]]].
  - destruct (Z.eqb_spec ticks 0) as [->|Hn], (Z.eqb_spec us 0) as [->|Hu];
      events_crush; split; try discriminate; try tauto; try lia.
    all: intros _; split; [assumption|reflexivity].
  - destruct (Z.eqb_spec ticks 0) as [->|Hn], (Z.eqb_spec fr 0) as [->|Hu];
      events_crush; split; try discriminate; try tauto; try lia.
    all: intros _; split; [assumption|reflexivity].
  - reflexivity.
  - reflexivity.
  - intros m0 [-> | ->]; events_crush; split; reflexivity.
  - simpl. intros Hu. apply Z.eqb_neq in Hu.
    unfold QueueReadPend. unfold_M. simpl. rewrite Hu. simpl.
    repeat (case_match; simplify_eq/=); reflexivity.
  - simpl. intros Hf. apply Z.eqb_neq in Hf.
    unfold QueueWritePend. unfold_M. simpl. rewrite Hf. simpl.
    repeat (case_match; simplify_eq/=); reflexivity.
Qed.

(** *** Calls nested in one another *)

Lemma Repr_InFlight cap isz base hi items w :
  Repr cap isz base hi items w <-> InFlight cap isz base hi [] items 0 w.
Proof.
  split.
  - intros [Hisz Hb He Hh Ht Hhi Hi Hu Hf Hwl Hrl Hlen Hit].
    constructor; simpl; try assumption; try lia.
    + rewrite Hh, Z.add_0_r, Z.mod_small by lia. reflexivity.
    + rewrite Ht. do 2 f_equal. lia.
  - intros [Hisz Hb He Hh Ht Hhi Hi Hu Hf Hwl Hrl Hlen Hit]. simpl in *.
    constructor; try assumption; try lia.
    + rewrite Hh, Z.add_0_r, Z.mod_small by lia. reflexivity.
    + rewrite Ht. do 2 f_equal. lia.
Qed.

Lemma slot_index_disjoint cap base isz h0 i j :
  0 < cap -> 0 <= isz -> 0 <= i < cap -> 0 <= j < cap -> i <> j ->
  slot base isz ((h0 + i) mod cap) + isz <= slot base isz ((h0 + j) mod cap) \/
  slot base isz ((h0 + j) mod cap) + isz <= slot base isz ((h0 + i) mod cap).
Proof.
  intros Hc Hi Hri Hrj Hne. apply slots_disjoint; [exact Hi|].
  intros E. apply mod_add_inj in E; lia.
Qed.

(** The reservation of a write into a free slot. *)
Lemma InFlight_write_reserve cap isz base h0 rd items n w :
  is_len_t cap -> InFlight cap isz base h0 rd items n w ->
  Z.of_nat (length rd) + Z.of_nat (length items) + Z.of_nat n < cap ->
  fst (QueueWrite_reserve w)
  = Some (slot base isz
            ((h0 + Z.of_nat (length rd) + Z.of_nat (length items)
              + Z.of_nat n) mod cap), Z.of_nat n) /\
  mem (snd (QueueWrite_reserve w)) = mem w /\
  InFlight cap isz base h0 rd items (S n) (snd (QueueWrite_reserve w)).
Proof.
  intros Hcap [Hisz Hb He Hh Ht Hhi Hi Hu Hf Hwl Hrl Hlen Hit] Hroom.
  unfold is_len_t in Hcap.
  assert (Hfree : (free (que w) =? 0) = false) by (apply Z.eqb_neq; lia).
  unfold_M. simpl. rewrite Hfree. simpl.
  split; [rewrite Ht, Hwl; reflexivity|]. split; [reflexivity|].
  assert (Hmod : 0 <= (h0 + Z.of_nat (length rd) + Z.of_nat (length items)
                       + Z.of_nat n) mod cap < cap)
    by (apply Z.mod_pos_bound; lia).
  constructor; simpl; try assumption; try lia.
  - rewrite Hisz, Hb, He, Ht. rewrite advance_slot by lia.
    rewrite Zplus_mod_idemp_l. do 2 f_equal. lia.
  - rewrite Hf. rewrite to_len_t_small by (unfold is_len_t; lia). lia.
  - rewrite Hwl. rewrite to_len_t_small by (unfold is_len_t; lia). lia.
Qed.

(** The copy of a write changes the memory of its slot only. *)
Lemma QueueWrite_copy_run pos buff w :
  que (snd (QueueWrite_copy pos buff w)) = que w /\
  mem (snd (QueueWrite_copy pos buff w))
  = mem_store (mem w) pos (take (Z.to_nat (item_size (que w))) buff).
Proof. unfold_M. simpl. split; reflexivity. Qed.

Lemma InFlight_write_copy cap isz base h0 rd items n w j buff :
  InFlight cap isz base h0 rd items n w ->
  (j < n)%nat -> length buff = Z.to_nat isz ->
  let pos := slot base isz
               ((h0 + Z.of_nat (length rd) + Z.of_nat (length items)
                 + Z.of_nat j) mod cap) in
  InFlight cap isz base h0 rd items n (snd (QueueWrite_copy pos buff w)) /\
  mem (snd (QueueWrite_copy pos buff w)) = mem_store (mem w) pos buff.
Proof.
  intros HF Hj Hbuff pos.
  destruct (QueueWrite_copy_run pos buff w) as [Hq Hm].
  pose proof HF as [Hisz Hb He Hh Ht Hhi Hi Hu Hf Hwl Hrl Hlen Hit].
  rewrite Hisz, take_ge in Hm by lia.
  split; [|exact Hm].
  constructor; rewrite ?Hq; try assumption.
  intros k item Hk. destruct (Hit k item Hk) as [Hl Hload].
  split; [exact Hl|]. rewrite Hm.
  rewrite mem_load_store_other; [exact Hload|].
  rewrite Hbuff, Z2Nat.id by lia.
  assert (Hklt : (k < length (rd ++ items))%nat)
    by (apply lookup_lt_is_Some; eauto).
  rewrite length_app in Hklt.
  subst pos.
  replace (h0 + Z.of_nat (length rd) + Z.of_nat (length items) + Z.of_nat j)
    with (h0 + (Z.of_nat (length rd) + Z.of_nat (length items) + Z.of_nat j))
    by lia.
  apply slot_index_disjoint; lia.
Qed.

(** What the commit of a write changes. *)
Lemma QueueWrite_commit_run lock w :
  let q := que w in
  let q' := que (snd (QueueWrite_commit lock w)) in
  item_size q' = item_size q /\ buff_ptr q' = buff_ptr q /\
  buff_end_ptr q' = buff_end_ptr q /\ head_ptr q' = head_ptr q /\
  tail_ptr q' = tail_ptr q /\ free q' = free q /\ r_lock q' = r_lock q /\
  used q' = (if lock =? 0 then to_len_t (used q + w_lock q) else used q) /\
  w_lock q' = (if lock =? 0 then 0 else w_lock q) /\
  mem (snd (QueueWrite_commit lock w)) = mem w.
Proof.
  destruct w as [[isz fr us wl rl hp tp bp be [lr lw]] m sl ct tr].
  unfold_M. simpl.
  repeat (case_match; simplify_eq/=); repeat split; reflexivity.
Qed.

(** The commit of a write that is not the first in flight publishes
    nothing. *)
Lemma InFlight_write_commit_inner cap isz base h0 rd items n w lock :
  InFlight cap isz base h0 rd items n w -> lock <> 0 ->
  InFlight cap isz base h0 rd items n (snd (QueueWrite_commit lock w)) /\
  mem (snd (QueueWrite_commit lock w)) = mem w.
Proof.
  intros [Hisz Hb He Hh Ht Hhi Hi Hu Hf Hwl Hrl Hlen Hit] Hlock.
  apply Z.eqb_neq in Hlock.
  destruct (QueueWrite_commit_run lock w)
    as (E1 & E2 & E3 & E4 & E5 & E6 & E7 & E8 & E9 & Em).
  rewrite Hlock in E8, E9. split; [|exact Em].
  constructor; rewrite ?E1, ?E2, ?E3, ?E4, ?E5, ?E6, ?E7, ?E8, ?E9, ?Em;
    assumption.
Qed.

(** The commit of the first write in flight publishes every reserved
    slot. *)
Lemma InFlight_write_commit_outer cap isz base h0 rd items n w new :
  is_len_t cap -> InFlight cap isz base h0 rd items n w ->
  length new = n ->
  (forall (j : nat) (b : list byte),
     new !! j = Some b ->
     length b = Z.to_nat isz /\
     mem_load (mem w)
       (slot base isz
          ((h0 + Z.of_nat (length rd) + Z.of_nat (length items) + Z.of_nat j)
             mod cap)) (Z.to_nat isz) = b) ->
  InFlight cap isz base h0 rd (items ++ new) 0 (snd (QueueWrite_commit 0 w)) /\
  mem (snd (QueueWrite_commit 0 w)) = mem w.
Proof.
  intros Hcap [Hisz Hb He Hh Ht Hhi Hi Hu Hf Hwl Hrl Hlen Hit] Hn Hnew.
  unfold is_len_t in Hcap.
  destruct (QueueWrite_commit_run 0 w)
    as (E1 & E2 & E3 & E4 & E5 & E6 & E7 & E8 & E9 & Em).
  simpl in E8, E9. split; [|exact Em].
  constructor; rewrite ?E1, ?E2, ?E3, ?E4, ?E5, ?E6, ?E7, ?E8, ?E9, ?Em;
    rewrite ?length_app; try assumption; try lia.
  - rewrite Ht. do 2 f_equal. lia.
  - rewrite Hu, Hwl. rewrite to_len_t_small by (unfold is_len_t; lia). lia.
  - intros k item Hk. rewrite app_assoc in Hk.
    destruct (decide (k < length (rd ++ items))%nat) as [Hlt|Hge].
    + rewrite lookup_app_l in Hk by exact Hlt. apply Hit. exact Hk.
    + rewrite lookup_app_r in Hk by lia.
      destruct (Hnew _ _ Hk) as [Hl Hload]. split; [exact Hl|].
      rewrite length_app in *.
      replace (h0 + Z.of_nat k)
        with (h0 + Z.of_nat (length rd) + Z.of_nat (length items)
              + Z.of_nat (k - (length rd + length items))) by lia.
      exact Hload.
Qed.

Lemma exec_steps_app sts1 sts2 s :
  exec_steps (sts1 ++ sts2) s = exec_steps sts2 (exec_steps sts1 s).
Proof. unfold exec_steps. apply foldl_app. Qed.

Lemma exec_steps_cons st sts s :
  exec_steps (st :: sts) s = exec_steps sts (exec_step st s).
Proof. reflexivity. Qed.

Lemma exec_steps_nil s : exec_steps [] s = s.
Proof. reflexivity. Qed.

Lemma exec_step_write_reserved buff w fs pos lock :
  fst (QueueWrite_reserve w) = Some (pos, lock) ->
  exec_step (Step_QueueWrite buff) {| sys_world := w; in_flight := fs |}
  = {| sys_world := snd (QueueWrite_reserve w);
       in_flight := fs ++ [{| fr_kind := Writing; fr_pos_ptr := pos;
                              fr_lock := lock; fr_buff := buff;
                              fr_copied := false |}] |}.
Proof.
  intros H. unfold exec_step. cbn [sys_world in_flight].
  destruct (QueueWrite_reserve w) as [[[p l]|] w1]; simpl in H;
    [|discriminate].
  injection H as -> ->. reflexivity.
Qed.

Lemma exec_step_write_copy k pos lock buff w fs :
  fs !! k = Some {| fr_kind := Writing; fr_pos_ptr := pos; fr_lock := lock;
                    fr_buff := buff; fr_copied := false |} ->
  exec_step (Step_copy k) {| sys_world := w; in_flight := fs |}
  = {| sys_world := snd (QueueWrite_copy pos buff w);
       in_flight := <[k := {| fr_kind := Writing; fr_pos_ptr := pos;
                              fr_lock := lock; fr_buff := buff;
                              fr_copied := true |}]> fs |}.
Proof.
  intros H. unfold exec_step. cbn [sys_world in_flight]. rewrite H.
  cbn [fr_copied fr_kind fr_pos_ptr fr_buff fr_lock].
  destruct (QueueWrite_copy pos buff w) as [[] w1]. reflexivity.
Qed.

Lemma exec_step_write_commit k pos lock buff w fs :
  fs !! k = Some {| fr_kind := Writing; fr_pos_ptr := pos; fr_lock := lock;
                    fr_buff := buff; fr_copied := true |} ->
  exec_step (Step_commit k) {| sys_world := w; in_flight := fs |}
  = {| sys_world := snd (QueueWrite_commit lock w);
       in_flight := delete k fs |}.
Proof.
  intros H. unfold exec_step. cbn [sys_world in_flight]. rewrite H.
  cbn [fr_copied fr_kind fr_pos_ptr fr_buff fr_lock].
  destruct (QueueWrite_commit lock w) as [[] w1]. reflexivity.
Qed.

Lemma delete_insert_last (fs : list frame) d f f' :
  length fs = d -> delete d (<[d := f']> (fs ++ [f])) = fs.
Proof.
  intros <-. rewrite insert_app_r_alt by lia. rewrite Nat.sub_diag. simpl.
  rewrite delete_middle. apply app_nil_r.
Qed.

Lemma lookup_insert_last (fs : list frame) d f f' :
  length fs = d -> <[d := f']> (fs ++ [f]) !! d = Some f'.
Proof.
  intros <-. apply list_lookup_insert_eq. rewrite length_app. simpl. lia.
Qed.

Lemma nested_writes_run cap isz base h0 items :
  is_len_t cap ->
  forall (bs : list (list byte)) (d : nat) (w : world) (fs : list frame),
    InFlight cap isz base h0 [] items d w ->
    length fs = d ->
    Z.of_nat (length items) + Z.of_nat d + Z.of_nat (length bs) <= cap ->
    Forall (fun b => length b = Z.to_nat isz) bs ->
    let s' := exec_steps (nested_writes d bs)
                {| sys_world := w; in_flight := fs |} in
    in_flight s' = fs /\
    InFlight cap isz base h0 []
      (match d with O => items ++ bs | S _ => items end)
      (match d with O => O | S _ => d + length bs end) (sys_world s') /\
    (d <> O ->
     forall (j : nat) (b : list byte),
       bs !! j = Some b ->
       mem_load (mem (sys_world s'))
         (slot base isz
            ((h0 + Z.of_nat (length items) + Z.of_nat (d + j)) mod cap))
         (Z.to_nat isz) = b).
Proof.
  intros Hcap bs. induction bs as [|b rest IH]; intros d w fs HF Hfs Hroom Hbs.
  - simpl. split; [reflexivity|]. split; [|intros _ j b Hj; discriminate].
    destruct d; [rewrite app_nil_r; exact HF|].
    rewrite Nat.add_0_r. exact HF.
  - apply Forall_cons in Hbs. destruct Hbs as [Hb Hrest].
    simpl length in Hroom.
    pose proof (F_isz _ _ _ _ _ _ _ _ HF) as Hisz.
    pose proof (F_h0 _ _ _ _ _ _ _ _ HF) as Hh0.
    (* the reservation *)
    destruct (InFlight_write_reserve cap isz base h0 [] items d w Hcap HF)
      as (Hres & Hm1 & HF1); [simpl; lia|].
    simpl length in Hres. rewrite Z.add_0_r in Hres.
    set (pos := slot base isz
                  ((h0 + Z.of_nat (length items) + Z.of_nat d) mod cap)) in *.
    set (w1 := snd (QueueWrite_reserve w)) in *.
    set (f := {| fr_kind := Writing; fr_pos_ptr := pos;
                 fr_lock := Z.of_nat d; fr_buff := b;
                 fr_copied := false |}).
    (* the writes that interrupt *)
    destruct (IH (S d) w1 (fs ++ [f]) HF1) as (Hfs2 & HF2 & Hmem2).
    { rewrite length_app. simpl. lia. }
    { lia. }
    { exact Hrest. }
    specialize (Hmem2 (Nat.neq_succ_0 d)).
    set (s2 := exec_steps (nested_writes (S d) rest)
                 {| sys_world := w1; in_flight := fs ++ [f] |}) in *.
    (* the copy *)
    assert (Hlook : in_flight s2 !! d = Some f).
    { rewrite Hfs2, lookup_app_r by lia.
      replace (d - length fs)%nat with O by lia. reflexivity. }
    destruct (InFlight_write_copy cap isz base h0 [] items _ (sys_world s2)
                d b HF2) as [HF3 Hm3]; [lia|exact Hb|].
    simpl length in HF3, Hm3. rewrite Z.add_0_r in HF3, Hm3.
    fold pos in HF3, Hm3.
    set (w3 := snd (QueueWrite_copy pos b (sys_world s2))) in *.
    (* what the memory holds after the copy *)
    assert (Hmem3 : forall (j : nat) (b' : list byte),
              (b :: rest) !! j = Some b' ->
              length b' = Z.to_nat isz /\
              mem_load (mem w3)
                (slot base isz
                   ((h0 + Z.of_nat (length items) + Z.of_nat (d + j)) mod cap))
                (Z.to_nat isz) = b').
    { intros j b' Hj. rewrite Hm3. destruct j as [|j]; simpl in Hj.
      - injection Hj as <-. split; [exact Hb|].
        rewrite Nat.add_0_r. fold pos. rewrite <- Hb.
        apply mem_load_store_same.
      - split.
        { rewrite Forall_forall in Hrest. apply Hrest.
          apply list_elem_of_lookup. eauto. }
        rewrite mem_load_store_other.
        + replace (d + S j)%nat with (S d + j)%nat by lia.
          apply Hmem2. exact Hj.
        + rewrite Hb, Z2Nat.id by lia. subst pos.
          assert (Hjlt : (j < length rest)%nat)
            by (apply lookup_lt_is_Some; eauto).
          replace (h0 + Z.of_nat (length items) + Z.of_nat (d + S j))
            with (h0 + (Z.of_nat (length items) + Z.of_nat (d + S j)))
            by lia.
          replace (h0 + Z.of_nat (length items) + Z.of_nat d)
            with (h0 + (Z.of_nat (length items) + Z.of_nat d)) by lia.
          apply slot_index_disjoint; lia. }
    (* the run *)
    assert (Hrun : exec_steps (nested_writes d (b :: rest))
                     {| sys_world := w; in_flight := fs |}
                   = {| sys_world := snd (QueueWrite_commit (Z.of_nat d) w3);
                        in_flight := fs |}).
    { simpl nested_writes. rewrite exec_steps_cons.
      rewrite (exec_step_write_reserved b w fs _ _ Hres).
      fold w1 f.
      rewrite exec_steps_app. fold s2.
      subst w3. destruct s2 as [w2 fs2]. simpl in Hfs2, Hlook. subst fs2.
      rewrite !exec_steps_cons, exec_steps_nil. simpl sys_world.
      rewrite (exec_step_write_copy d pos (Z.of_nat d) b w2 _ Hlook).
      rewrite (exec_step_write_commit d pos (Z.of_nat d) b).
      - f_equal. apply delete_insert_last. exact Hfs.
      - apply lookup_insert_last. exact Hfs. }
    cbv zeta. rewrite Hrun. simpl sys_world. simpl in_flight.
    split; [reflexivity|].
    destruct d as [|d0].
    + (* the first write in flight: everything is published *)
      destruct (InFlight_write_commit_outer cap isz base h0 [] items _ w3
                  (b :: rest) Hcap HF3) as [HF4 Hm4].
      { simpl. reflexivity. }
      { intros j b' Hj. simpl length. rewrite Z.add_0_r.
        apply (Hmem3 j b' Hj). }
      split; [exact HF4|]. intros Hne. contradiction.
    + destruct (InFlight_write_commit_inner cap isz base h0 [] items _ w3
                  (Z.of_nat (S d0)) HF3) as [HF4 Hm4]; [lia|].
      split.
      * replace (S d0 + length (b :: rest))%nat
          with (S (S d0) + length rest)%nat by (simpl; lia).
        exact HF4.
      * intros _ j b' Hj. rewrite Hm4. apply (Hmem3 j b' Hj).
Qed.

(** X24. Writes nested in one another, as when interrupts write to a
    queue that a task is writing to: with room for all the items, every
    item ends up in the queue, in the order in which the writes began;
    until the first write commits none of them is published, and
    [QueueUsed] still returns the former count. *)
Theorem nested_writes_publish_in_order :
  forall (cap isz base hi : Z) (items bs : list (list byte)) (w : world),
    is_len_t cap -> Repr cap isz base hi items w ->
    Z.of_nat (length items) + Z.of_nat (length bs) <= cap ->
    Forall (fun b => length b = Z.to_nat isz) bs ->
    let s' := exec_steps (nested_writes 0 bs)
                {| sys_world := w; in_flight := [] |} in
    in_flight s' = [] /\
    Repr cap isz base hi (items ++ bs) (sys_world s') /\
    (forall (b : list byte) (rest : list (list byte)),
       bs = b :: rest ->
       let s1 := exec_steps (Step_QueueWrite b :: nested_writes 1 rest)
                   {| sys_world := w; in_flight := [] |} in
       fst (QueueUsed (sys_world s1)) = Z.of_nat (length items) /\
       w_lock (que (sys_world s1)) = Z.of_nat (length bs)).
Proof.
  intros cap isz base hi items bs w Hcap HR Hroom Hbs s'.
  apply Repr_InFlight in HR.
  destruct (nested_writes_run cap isz base hi items Hcap bs 0 w [] HR eq_refl)
    as (Hfs & HF & _); [lia|exact Hbs|].
  split; [exact Hfs|]. split; [apply Repr_InFlight; exact HF|].
  intros b rest -> s1.
  apply Forall_cons in Hbs. destruct Hbs as [Hb Hrest]. simpl length in Hroom.
  destruct (InFlight_write_reserve cap isz base hi [] items 0 w Hcap HR)
    as (Hres & _ & HF1); [simpl; lia|].
  destruct (nested_writes_run cap isz base hi items Hcap rest 1
              (snd (QueueWrite_reserve w))
              [{| fr_kind := Writing;
                  fr_pos_ptr := slot base isz
                                  ((hi + Z.of_nat (length (@nil (list byte)))
                                    + Z.of_nat (length items) + Z.of_nat 0)
                                     mod cap);
                  fr_lock := Z.of_nat 0; fr_buff := b;
                  fr_copied := false |}] HF1 eq_refl)
    as (_ & HF2 & _); [lia|exact Hrest|].
  subst s1. rewrite exec_steps_cons.
  rewrite (exec_step_write_reserved b w [] _ _ Hres). simpl app.
  split.
  - change (fst (QueueUsed ?x)) with (used (que x)).
    exact (F_used _ _ _ _ _ _ _ _ HF2).
  - etransitivity; [exact (F_w_lock _ _ _ _ _ _ _ _ HF2)|].
    simpl length. lia.
Qed.

Lemma results_app sts1 sts2 s :
  results (sts1 ++ sts2) s
  = results sts1 s ++ results sts2 (exec_steps sts1 s).
Proof.
  revert s. induction sts1 as [|st sts1 IH]; intros s; [reflexivity|].
  simpl. rewrite IH. destruct (step_result st s); reflexivity.
Qed.

Lemma results_cons st sts s :
  results (st :: sts) s
  = match step_result st s with
    | Some b => [b]
    | None => []
    end ++ results sts (exec_step st s).
Proof. simpl. destruct (step_result st s); reflexivity. Qed.

Lemma exec_step_read_reserved buff w fs pos lock :
  fst (QueueRead_reserve w) = Some (pos, lock) ->
  exec_step (Step_QueueRead buff) {| sys_world := w; in_flight := fs |}
  = {| sys_world := snd (QueueRead_reserve w);
       in_flight := fs ++ [{| fr_kind := Reading; fr_pos_ptr := pos;
                              fr_lock := lock; fr_buff := buff;
                              fr_copied := false |}] |}.
Proof.
  intros H. unfold exec_step. cbn [sys_world in_flight].
  destruct (QueueRead_reserve w) as [[[p l]|] w1]; simpl in H;
    [|discriminate].
  injection H as -> ->. reflexivity.
Qed.

Lemma exec_step_read_copy k pos lock buff w fs :
  fs !! k = Some {| fr_kind := Reading; fr_pos_ptr := pos; fr_lock := lock;
                    fr_buff := buff; fr_copied := false |} ->
  exec_step (Step_copy k) {| sys_world := w; in_flight := fs |}
  = {| sys_world := snd (QueueRead_copy pos buff w);
       in_flight := <[k := {| fr_kind := Reading; fr_pos_ptr := pos;
                              fr_lock := lock;
                              fr_buff := fst (QueueRead_copy pos buff w);
                              fr_copied := true |}]> fs |}.
Proof.
  intros H. unfold exec_step. cbn [sys_world in_flight]. rewrite H.
  cbn [fr_copied fr_kind fr_pos_ptr fr_buff fr_lock].
  destruct (QueueRead_copy pos buff w) as [buff' w1]. reflexivity.
Qed.

Lemma exec_step_read_commit k pos lock buff w fs :
  fs !! k = Some {| fr_kind := Reading; fr_pos_ptr := pos; fr_lock := lock;
                    fr_buff := buff; fr_copied := true |} ->
  exec_step (Step_commit k) {| sys_world := w; in_flight := fs |}
  = {| sys_world := snd (QueueRead_commit lock w);
       in_flight := delete k fs |}.
Proof.
  intros H. unfold exec_step. cbn [sys_world in_flight]. rewrite H.
  cbn [fr_copied fr_kind fr_pos_ptr fr_buff fr_lock].
  destruct (QueueRead_commit lock w) as [[] w1]. reflexivity.
Qed.

(** The reservation of a read of the oldest item. *)
Lemma InFlight_read_reserve cap isz base h0 rd x items n w :
  is_len_t cap -> InFlight cap isz base h0 rd (x :: items) n w ->
  fst (QueueRead_reserve w)
  = Some (slot base isz ((h0 + Z.of_nat (length rd)) mod cap),
          Z.of_nat (length rd)) /\
  mem (snd (QueueRead_reserve w)) = mem w /\
  InFlight cap isz base h0 (rd ++ [x]) items n (snd (QueueRead_reserve w)).
Proof.
  intros Hcap [Hisz Hb He Hh Ht Hhi Hi Hu Hf Hwl Hrl Hlen Hit].
  unfold is_len_t in Hcap. simpl length in *.
  assert (Hused : (used (que w) =? 0) = false) by (apply Z.eqb_neq; lia).
  unfold_M. simpl. rewrite Hused. simpl.
  split; [rewrite Hh, Hrl; reflexivity|]. split; [reflexivity|].
  assert (Hmod : 0 <= (h0 + Z.of_nat (length rd)) mod cap < cap)
    by (apply Z.mod_pos_bound; lia).
  constructor; simpl; rewrite ?length_app; simpl length;
    try assumption; try lia.
  - rewrite Hisz, Hb, He, Hh. rewrite advance_slot by lia.
    rewrite Zplus_mod_idemp_l. do 2 f_equal. lia.
  - rewrite Ht. do 2 f_equal. lia.
  - rewrite Hu. rewrite to_len_t_small by (unfold is_len_t; lia). lia.
  - rewrite Hrl. rewrite to_len_t_small by (unfold is_len_t; lia). lia.
  - intros k item Hk. rewrite <- app_assoc in Hk. apply Hit. exact Hk.
Qed.

(** The copy of a read changes neither the queue nor the memory. *)
Lemma QueueRead_copy_run pos buff w :
  fst (QueueRead_copy pos buff w)
  = mem_load (mem w) pos (Z.to_nat (item_size (que w)))
      ++ drop (Z.to_nat (item_size (que w))) buff /\
  que (snd (QueueRead_copy pos buff w)) = que w /\
  mem (snd (QueueRead_copy pos buff w)) = mem w.
Proof. unfold_M. simpl. repeat split; reflexivity. Qed.

(** What the commit of a read changes. *)
Lemma QueueRead_commit_run lock w :
  let q := que w in
  let q' := que (snd (QueueRead_commit lock w)) in
  item_size q' = item_size q /\ buff_ptr q' = buff_ptr q /\
  buff_end_ptr q' = buff_end_ptr q /\ head_ptr q' = head_ptr q /\
  tail_ptr q' = tail_ptr q /\ used q' = used q /\ w_lock q' = w_lock q /\
  free q' = (if lock =? 0 then to_len_t (free q + r_lock q) else free q) /\
  r_lock q' = (if lock =? 0 then 0 else r_lock q) /\
  mem (snd (QueueRead_commit lock w)) = mem w.
Proof.
  destruct w as [[isz fr us wl rl hp tp bp be [lr lw]] m sl ct tr].
  unfold_M. simpl.
  repeat (case_match; simplify_eq/=); repeat split; reflexivity.
Qed.

Lemma InFlight_same cap isz base h0 rd items n w w' :
  que w' = que w -> mem w' = mem w ->
  InFlight cap isz base h0 rd items n w ->
  InFlight cap isz base h0 rd items n w'.
Proof.
  intros Hq Hm [Hisz Hb He Hh Ht Hhi Hi Hu Hf Hwl Hrl Hlen Hit].
  constructor; rewrite ?Hq, ?Hm; assumption.
Qed.

(** The commit of a read that is not the first in flight releases
    nothing. *)
Lemma InFlight_read_commit_inner cap isz base h0 rd items n w lock :
  InFlight cap isz base h0 rd items n w -> lock <> 0 ->
  InFlight cap isz base h0 rd items n (snd (QueueRead_commit lock w)).
Proof.
  intros [Hisz Hb He Hh Ht Hhi Hi Hu Hf Hwl Hrl Hlen Hit] Hlock.
  apply Z.eqb_neq in Hlock.
  destruct (QueueRead_commit_run lock w)
    as (E1 & E2 & E3 & E4 & E5 & E6 & E7 & E8 & E9 & Em).
  rewrite Hlock in E8, E9.
  constructor; rewrite ?E1, ?E2, ?E3, ?E4, ?E5, ?E6, ?E7, ?E8, ?E9, ?Em;
    assumption.
Qed.

(** The commit of the first read in flight releases every slot that has
    been read. *)
Lemma InFlight_read_commit_outer cap isz base h0 rd items n w :
  is_len_t cap -> InFlight cap isz base h0 rd items n w ->
  InFlight cap isz base ((h0 + Z.of_nat (length rd)) mod cap) [] items n
    (snd (QueueRead_commit 0 w)).
Proof.
  intros Hcap [Hisz Hb He Hh Ht Hhi Hi Hu Hf Hwl Hrl Hlen Hit].
  unfold is_len_t in Hcap.
  destruct (QueueRead_commit_run 0 w)
    as (E1 & E2 & E3 & E4 & E5 & E6 & E7 & E8 & E9 & Em).
  simpl in E8, E9.
  assert (Hc : 0 < cap) by lia.
  constructor; rewrite ?E1, ?E2, ?E3, ?E4, ?E5, ?E6, ?E7, ?E8, ?E9, ?Em;
    simpl length; try assumption; try lia.
  - rewrite Hh, Z.add_0_r, Z.mod_mod by lia. reflexivity.
  - rewrite Ht. f_equal.
    replace ((h0 + Z.of_nat (length rd)) mod cap + Z.of_nat 0
             + Z.of_nat (length items) + Z.of_nat n)
      with ((h0 + Z.of_nat (length rd)) mod cap
            + (Z.of_nat (length items) + Z.of_nat n)) by lia.
    rewrite Zplus_mod_idemp_l. f_equal. lia.
  - apply Z.mod_pos_bound. lia.
  - rewrite Hf, Hrl. rewrite to_len_t_small by (unfold is_len_t; lia). lia.
  - intros k item Hk. simpl in Hk.
    destruct (Hit (length rd + k)%nat item) as [Hl Hload].
    { rewrite lookup_app_r by lia.
      replace (length rd + k - length rd)%nat with k by lia. exact Hk. }
    split; [exact Hl|]. rewrite Zplus_mod_idemp_l.
    replace (h0 + Z.of_nat (length rd) + Z.of_nat k)
      with (h0 + Z.of_nat (length rd + k)) by lia.
    exact Hload.
Qed.

Lemma nested_reads_run cap isz base h0 :
  is_len_t cap ->
  forall (bufs : list (list byte)) (d : nat) (w : world) (fs : list frame)
         (rd items : list (list byte)),
    InFlight cap isz base h0 rd items 0 w ->
    length fs = d -> length rd = d ->
    (length bufs <= length items)%nat ->
    Forall (fun buf => length buf = Z.to_nat isz) bufs ->
    let s0 := {| sys_world := w; in_flight := fs |} in
    let s' := exec_steps (nested_reads d bufs) s0 in
    in_flight s' = fs /\
    mem (sys_world s') = mem w /\
    results (nested_reads d bufs) s0 = rev (take (length bufs) items) /\
    InFlight cap isz base
      (match d with
       | O => (h0 + Z.of_nat (length bufs)) mod cap
       | S _ => h0
       end)
      (match d with
       | O => []
       | S _ => rd ++ take (length bufs) items
       end)
      (drop (length bufs) items) 0 (sys_world s').
Proof.
  intros Hcap bufs.
  induction bufs as [|buf rest IH];
    intros d w fs rd items HF Hfs Hrd Hlen Hbufs.
  - simpl. split; [reflexivity|]. split; [reflexivity|].
    split; [reflexivity|].
    destruct d; [|rewrite app_nil_r; exact HF].
    destruct rd; [|discriminate].
    pose proof (F_h0 _ _ _ _ _ _ _ _ HF).
    rewrite Z.add_0_r, Z.mod_small by lia. exact HF.
  - apply Forall_cons in Hbufs. destruct Hbufs as [Hbuf Hrest].
    destruct items as [|x items]; [simpl in Hlen; lia|].
    simpl length in Hlen.
    pose proof (F_isz _ _ _ _ _ _ _ _ HF) as Hisz.
    pose proof (F_h0 _ _ _ _ _ _ _ _ HF) as Hh0.
    (* the reservation *)
    destruct (InFlight_read_reserve cap isz base h0 rd x items 0 w Hcap HF)
      as (Hres & Hm1 & HF1).
    rewrite Hrd in Hres.
    set (pos := slot base isz ((h0 + Z.of_nat d) mod cap)) in *.
    set (w1 := snd (QueueRead_reserve w)) in *.
    set (f := {| fr_kind := Reading; fr_pos_ptr := pos;
                 fr_lock := Z.of_nat d; fr_buff := buf;
                 fr_copied := false |}).
    (* the reads that interrupt *)
    destruct (IH (S d) w1 (fs ++ [f]) (rd ++ [x]) items HF1)
      as (Hfs2 & Hm2 & Hres2 & HF2).
    { rewrite length_app. simpl. lia. }
    { rewrite length_app. simpl. lia. }
    { lia. }
    { exact Hrest. }
    set (s1 := {| sys_world := w1; in_flight := fs ++ [f] |}) in *.
    set (s2 := exec_steps (nested_reads (S d) rest) s1) in *.
    assert (Hlook : in_flight s2 !! d = Some f).
    { rewrite Hfs2, lookup_app_r by lia.
      replace (d - length fs)%nat with O by lia. reflexivity. }
    (* the copy *)
    destruct (QueueRead_copy_run pos buf (sys_world s2)) as (Hc1 & Hc2 & Hc3).
    assert (Hx : fst (QueueRead_copy pos buf (sys_world s2)) = x).
    { rewrite Hc1, (F_item_size _ _ _ _ _ _ _ _ HF2).
      destruct (F_items _ _ _ _ _ _ _ _ HF2 d x) as [Hl Hload].
      { rewrite <- !app_assoc. rewrite lookup_app_r by lia.
        replace (d - length rd)%nat with O by lia. reflexivity. }
      fold pos in Hload. rewrite Hload.
      rewrite drop_ge by lia. apply app_nil_r. }
    set (w3 := snd (QueueRead_copy pos buf (sys_world s2))) in *.
    assert (HF3 : InFlight cap isz base h0
                    ((rd ++ [x]) ++ take (length rest) items)
                    (drop (length rest) items) 0 w3)
      by (eapply InFlight_same; [exact Hc2|exact Hc3|exact HF2]).
    (* the run *)
    assert (Hrun : exec_steps (nested_reads d (buf :: rest))
                     {| sys_world := w; in_flight := fs |}
                   = {| sys_world := snd (QueueRead_commit (Z.of_nat d) w3);
                        in_flight := fs |} /\
                   results (nested_reads d (buf :: rest))
                     {| sys_world := w; in_flight := fs |}
                   = rev (take (length rest) items) ++ [x]).
    { simpl nested_reads. rewrite exec_steps_cons, results_cons.
      change (step_result (Step_QueueRead buf) _) with (@None (list byte)).
      rewrite app_nil_l.
      rewrite (exec_step_read_reserved buf w fs _ _ Hres).
      fold w1 f s1.
      rewrite exec_steps_app, results_app. fold s2. rewrite Hres2.
      subst w3. clearbody s2.
      destruct s2 as [w2 fs2]. simpl in Hfs2, Hlook. subst fs2.
      rewrite !exec_steps_cons, exec_steps_nil, !results_cons.
      simpl sys_world in *.
      change (step_result (Step_copy d) _) with (@None (list byte)).
      rewrite app_nil_l.
      rewrite (exec_step_read_copy d pos (Z.of_nat d) buf w2 _ Hlook).
      unfold step_result at 1. cbn [in_flight].
      rewrite (lookup_insert_last fs d f _ Hfs).
      cbn [fr_copied fr_kind fr_buff].
      rewrite (exec_step_read_commit d pos (Z.of_nat d) _ _ _
                 (lookup_insert_last fs d f _ Hfs)).
      rewrite (delete_insert_last fs d f _ Hfs).
      rewrite Hx. split; reflexivity. }
    destruct Hrun as [Hrun Hresults].
    cbv zeta. rewrite Hrun, Hresults. simpl sys_world. simpl in_flight.
    destruct (QueueRead_commit_run (Z.of_nat d) w3) as (_ & Hm4).
    assert (Hm4' : mem (snd (QueueRead_commit (Z.of_nat d) w3)) = mem w).
    { destruct Hm4 as (_ & _ & _ & _ & _ & _ & _ & _ & Hm4).
      rewrite Hm4. subst w3. rewrite Hc3, Hm2. exact Hm1. }
    split; [reflexivity|]. split; [exact Hm4'|].
    split; [simpl; reflexivity|].
    destruct d as [|d0].
    + destruct rd; [|discriminate].
      pose proof (InFlight_read_commit_outer cap isz base h0 _ _ 0 w3 Hcap HF3)
        as HF4.
      assert (E : length (([] ++ [x]) ++ take (length rest) items)
                  = S (length rest))
        by (rewrite length_app, length_take; simpl; lia).
      rewrite E in HF4. exact HF4.
    + pose proof (InFlight_read_commit_inner cap isz base h0 _ _ 0 w3
                    (Z.of_nat (S d0)) HF3) as HF4.
      simpl length. simpl drop. simpl take.
      rewrite <- app_assoc in HF4. apply HF4. lia.
Qed.

(** X25. Reads nested in one another, as when interrupts read from a
    queue that a task is reading from: with enough items stored, the
    read that began first gets the oldest item, the one that interrupted
    it the next, and so on, so that the reads, which return innermost
    first, hand back the items in reverse; the items left are those that
    were behind, and the memory is untouched. *)
Theorem nested_reads_take_items_in_order :
  forall (cap isz base hi : Z) (items bufs : list (list byte)) (w : world),
    is_len_t cap -> Repr cap isz base hi items w ->
    (length bufs <= length items)%nat ->
    Forall (fun buf => length buf = Z.to_nat isz) bufs ->
    let s0 := {| sys_world := w; in_flight := [] |} in
    let s' := exec_steps (nested_reads 0 bufs) s0 in
    in_flight s' = [] /\
    results (nested_reads 0 bufs) s0 = rev (take (length bufs) items) /\
    Repr cap isz base ((hi + Z.of_nat (length bufs)) mod cap)
      (drop (length bufs) items) (sys_world s') /\
    mem (sys_world s') = mem w.
Proof.
  intros cap isz base hi items bufs w Hcap HR Hlen Hbufs s0 s'.
  apply Repr_InFlight in HR.
  destruct (nested_reads_run cap isz base hi Hcap bufs 0 w [] [] items HR
              eq_refl eq_refl Hlen Hbufs) as (Hfs & Hm & Hres & HF).
  split; [exact Hfs|]. split; [exact Hres|].
  split; [apply Repr_InFlight; exact HF|exact Hm].
Qed.

End WithLenT.

(** *** Concrete runs, with an 8-bit [len_t] *)

(** A world before any queue exists: all memory zero, task 1 running. *)
Definition world0 : world :=
  {| que := {| item_size := 0; free := 0; used := 0; w_lock := 0;
               r_lock := 0; head_ptr := 0; tail_ptr := 0; buff_ptr := 0;
               buff_end_ptr := 0;
               event := {| list_read := []; list_write := [] |} |};
     mem := fun _ => x00; sched_lock := 0; current_task := 1%nat;
     trace := [] |}.

(** A queue of one one-byte item that holds the byte 42. *)
Definition world_one_item : world :=
  snd (QueueWrite 8 [x2a] (QueueInit 0 1 1 world0)).

Lemma is_len_t_8 x : 0 <= x < 256 -> is_len_t 8 x.
Proof. intros H. exact H. Qed.

(** Two writes overlap and commit in the order they began, then a read
    starts: the counters still add up to 4. *)
Lemma queue_counters_sum_to_capacity_witness :
  let s := exec_steps 8
             [Step_QueueWrite [x01]; Step_QueueWrite [x02]; Step_copy 1;
              Step_copy 0; Step_commit 0; Step_commit 0;
              Step_QueueRead [x00]; Step_QueueLength]
             {| sys_world := QueueInit 0 4 1 world0; in_flight := [] |} in
  let q := que (sys_world s) in
  used q + free q + w_lock q + r_lock q = 4 /\
  0 <= used q /\ 0 <= free q /\ 0 <= w_lock q /\ 0 <= r_lock q /\
  fst (QueueLength 8 (sys_world s)) = 4.
Proof.
  apply (queue_counters_sum_to_capacity 8 0 4 1 world0 []
           [Step_QueueWrite [x01]; Step_QueueWrite [x02]; Step_copy 1;
            Step_copy 0; Step_commit 0; Step_commit 0;
            Step_QueueRead [x00]; Step_QueueLength]).
  - apply is_len_t_8. lia.
  - repeat constructor.
Defined.

(** Scenario 1 of the specification: length 4, item size 1, write 1, 2, 3;
    the reads give 1, 2, 3 and the fourth read fails. *)
Lemma queue_fifo_order_witness :
  fst (run_calls 8
         [Call_QueueWrite [x01]; Call_QueueWrite [x02]; Call_QueueWrite [x03];
          Call_QueueRead [x00]; Call_QueueRead [x00]; Call_QueueRead [x00];
          Call_QueueRead [x00]]
         (QueueInit 0 4 1 world0))
  = [Wrote 1; Wrote 1; Wrote 1; Got 1 [x01]; Got 1 [x02]; Got 1 [x03];
     Got 0 [x00]].
Proof.
  apply (queue_fifo_order 8 0 4 1 world0 [] [[x01]; [x02]; [x03]] [x00]).
  - apply is_len_t_8. lia.
  - lia.
  - constructor.
  - reflexivity.
  - simpl. lia.
  - repeat constructor.
  - reflexivity.
Defined.

(** Scenario 2 of the specification, with the bytes "A", "B" and "C", and
    the two failing calls on a queue of capacity zero. *)
Lemma queue_full_and_empty_fail_witness :
  (fst (QueueWrite 8 [x43] (QueueInit 0 0 1 world0)) = 0 /\
   que (snd (QueueWrite 8 [x43] (QueueInit 0 0 1 world0)))
   = que (QueueInit 0 0 1 world0) /\
   mem (snd (QueueWrite 8 [x43] (QueueInit 0 0 1 world0)))
   = mem (QueueInit 0 0 1 world0)) /\
  (fst (QueueRead 8 [x43] (QueueInit 0 0 1 world0)) = (0, [x43]) /\
   que (snd (QueueRead 8 [x43] (QueueInit 0 0 1 world0)))
   = que (QueueInit 0 0 1 world0) /\
   mem (snd (QueueRead 8 [x43] (QueueInit 0 0 1 world0)))
   = mem (QueueInit 0 0 1 world0)) /\
  fst (run_calls 8
         [Call_QueueWrite [x41]; Call_QueueWrite [x42]; Call_QueueWrite [x43];
          Call_QueueRead [x43]; Call_QueueWrite [x43]; Call_QueueRead [x43];
          Call_QueueRead [x43]; Call_QueueRead [x43]]
         (QueueInit 0 2 1 (QueueInit 0 0 1 world0)))
  = [Wrote 1; Wrote 1; Wrote 0; Got 1 [x41]; Wrote 1; Got 1 [x42];
     Got 1 [x43]; Got 0 [x43]].
Proof.
  destruct (queue_full_and_empty_fail 8 (QueueInit 0 0 1 world0) [x43])
    as (Hfull & Hempty & Hscenario).
  split; [apply Hfull; reflexivity|].
  split; [apply Hempty; reflexivity|].
  apply (Hscenario 0 1 [x41] [x42] [x43]); try reflexivity.
  - apply is_len_t_8. lia.
  - lia.
Defined.

(** A read that pends on an empty queue for five ticks. *)
Lemma queue_pend_returns_first_attempt_witness :
  fst (QueueReadPend 8 [x00] 5 (QueueInit 0 1 1 world0)) = (0, [x00]) /\
  events_of (QueueReadPend 8 [x00] 5) (QueueInit 0 1 1 world0)
  = [Ev_CRITICAL_ENTER; Ev_CRITICAL_EXIT; Ev_SchedulerLock;
     Ev_INTERRUPTS_DISABLE; Ev_OSEventPrePendTask List_read 1%nat;
     Ev_INTERRUPTS_ENABLE; Ev_OSEventPendTask List_read 1%nat 5;
     Ev_SchedulerUnlock].
Proof.
  destruct (queue_pend_returns_first_attempt 8 (QueueInit 0 1 1 world0)
              [x00] 5) as (_ & _ & _ & _ & Hread & _).
  destruct Hread as (Hres & Hev & _); [reflexivity|].
  split; [exact Hres|exact Hev].
Defined.

(** C7, counterexample. A task calls [QueueReadPend] on an empty queue with
    a timeout of five ticks: the call returns 0 after a single attempt,
    with the task on the read list.  Had it, as claimed, attempted again
    after the wake, here caused by a write of the byte 42, it would have
    returned 1 and that byte. *)
Lemma queue_read_pend_does_not_reattempt :
  fst (QueueReadPend 8 [x00] 5 (QueueInit 0 1 1 world0)) = (0, [x00]) /\
  list_read (event (que (snd (QueueReadPend 8 [x00] 5
                                (QueueInit 0 1 1 world0))))) = [1%nat] /\
  fst (QueueReadPend_as_claimed 8
         (fun w => (tt, snd (QueueWrite 8 [x2a] w)))
         [x00] 5 (QueueInit 0 1 1 world0)) = (1, [x2a]) /\
  fst (QueueReadPend 8 [x00] 5 (QueueInit 0 1 1 world0))
  <> fst (QueueReadPend_as_claimed 8
            (fun w => (tt, snd (QueueWrite 8 [x2a] w)))
            [x00] 5 (QueueInit 0 1 1 world0)).
Proof. vm_compute. repeat split; try reflexivity. discriminate. Qed.

(** The two lock orders on a queue that holds one item. *)
Lemma queue_read_mirrors_write_but_locks_after_copy_witness :
  used (que world_one_item) <> 0 /\
  lock_before_copy
    (events_of (QueueWrite 8 [x2b]) (mirror_world world_one_item)) = true /\
  lock_before_copy (events_of (QueueRead 8 [x00]) world_one_item) = false.
Proof.
  assert (Hu : used (que world_one_item) <> 0) by (vm_compute; discriminate).
  split; [exact Hu|].
  destruct (queue_read_mirrors_write_but_locks_after_copy 8 world_one_item
              [x00] [x2b]) as (_ & _ & _ & H).
  destruct (H Hu) as (unblock & _ & _ & Hw & Hr).
  split; assumption.
Defined.

(** C9. [QueueRead] does not take the scheduler lock before its copy
    phase, as [QueueWrite] does: on a queue of one one-byte item that holds
    the byte 42, [QueueRead] calls [memcpy] before it has called
    [SchedulerLock], while [QueueWrite] on the mirrored queue locks the
    scheduler before it copies; so the calls of the one are not the
    mirror image of the calls of the other. *)
Lemma queue_read_copies_before_scheduler_lock :
  used (que world_one_item) <> 0 /\
  lock_before_copy (events_of (QueueRead 8 [x00]) world_one_item) = false /\
  lock_before_copy
    (events_of (QueueWrite 8 [x2b]) (mirror_world world_one_item)) = true /\
  events_of (QueueRead 8 [x00]) world_one_item
  <> map mirror_event
         (events_of (QueueWrite 8 [x2b]) (mirror_world world_one_item)).
Proof. vm_compute. repeat split; try reflexivity; discriminate. Qed.

(** A queue of capacity 2 used around its end: two writes fill it, the
    third fails, and after a read the next write lands in the first slot
    again. *)
Lemma queue_sequential_calls_are_fifo_witness :
  fst (run_calls 8
         [Call_QueueWrite [x01]; Call_QueueWrite [x02]; Call_QueueWrite [x03];
          Call_QueueRead [x00]; Call_QueueWrite [x04]; Call_QueueRead [x00];
          Call_QueueRead [x00]; Call_QueueRead [x00]]
         (QueueInit 0 2 1 world0))
  = [Wrote 1; Wrote 1; Wrote 0; Got 1 [x01]; Wrote 1; Got 1 [x02];
     Got 1 [x04]; Got 0 [x00]].
Proof.
  apply (queue_sequential_calls_are_fifo 8 0 2 1 world0
           [Call_QueueWrite [x01]; Call_QueueWrite [x02];
            Call_QueueWrite [x03]; Call_QueueRead [x00];
            Call_QueueWrite [x04]; Call_QueueRead [x00];
            Call_QueueRead [x00]; Call_QueueRead [x00]]).
  - apply is_len_t_8. lia.
  - lia.
  - repeat constructor.
Defined.

(** After two writes and a read on a queue of capacity 2, one item is
    stored and one slot is left. *)
Lemma queue_observers_count_the_items_witness :
  let w := snd (run_calls 8
                  [Call_QueueWrite [x01]; Call_QueueWrite [x02];
                   Call_QueueRead [x00]]
                  (QueueInit 0 2 1 world0)) in
  fst (QueueUsed w) = 1 /\ fst (QueueFree w) = 1.
Proof.
  destruct (queue_observers_count_the_items 8 0 2 1 world0
              [Call_QueueWrite [x01]; Call_QueueWrite [x02];
               Call_QueueRead [x00]]) as (Hu & Hf & _).
  - apply is_len_t_8. lia.
  - lia.
  - repeat constructor.
  - split; [exact Hu|exact Hf].
Defined.

(** A queue of two one-byte items at address 10: after three writes the
    bytes at 9 and at 12 are as before. *)
Lemma queue_writes_stay_in_buffer_witness :
  mem (snd (run_calls 8
              [Call_QueueWrite [x01]; Call_QueueWrite [x02];
               Call_QueueWrite [x03]]
              (QueueInit 10 2 1 world0))) 9 = x00 /\
  mem (snd (run_calls 8
              [Call_QueueWrite [x01]; Call_QueueWrite [x02];
               Call_QueueWrite [x03]]
              (QueueInit 10 2 1 world0))) 12 = x00.
Proof.
  split.
  - apply (queue_writes_stay_in_buffer 8 10 2 1 world0
             [Call_QueueWrite [x01]; Call_QueueWrite [x02];
              Call_QueueWrite [x03]] 9).
    + apply is_len_t_8. lia.
    + lia.
    + repeat constructor.
    + lia.
  - apply (queue_writes_stay_in_buffer 8 10 2 1 world0
             [Call_QueueWrite [x01]; Call_QueueWrite [x02];
              Call_QueueWrite [x03]] 12).
    + apply is_len_t_8. lia.
    + lia.
    + repeat constructor.
    + lia.
Defined.

(** Two writes that overlap on a queue of items of 3 bytes. *)
Lemma queue_item_size_is_constant_witness :
  fst (QueueItemSize
         (sys_world
            (exec_steps 8
               [Step_QueueWrite [x01; x02; x03];
                Step_QueueWrite [x04; x05; x06]; Step_copy 1; Step_copy 0;
                Step_commit 1; Step_commit 0; Step_QueueRead [x00; x00; x00]]
               {| sys_world := QueueInit 0 4 3 world0; in_flight := [] |})))
  = 3.
Proof.
  destruct (queue_item_size_is_constant 8 0 4 3 world0 []
              [Step_QueueWrite [x01; x02; x03];
               Step_QueueWrite [x04; x05; x06]; Step_copy 1; Step_copy 0;
               Step_commit 1; Step_commit 0; Step_QueueRead [x00; x00; x00]])
    as [H _].
  - repeat constructor.
  - exact H.
Defined.

(** A queue of four one-byte items that holds the bytes 1 and 2. *)
Definition world_two_items : world :=
  snd (QueueWrite 8 [x02] (snd (QueueWrite 8 [x01] (QueueInit 0 4 1 world0)))).

Lemma Repr_world_two_items : Repr 4 1 0 0 [[x01]; [x02]] world_two_items.
Proof.
  assert (H0 : Repr 4 1 0 0 [] (QueueInit 0 4 1 world0))
    by (apply Repr_QueueInit; lia).
  destruct (Repr_write 8 4 1 0 0 [] [x01] _ (is_len_t_8 4 ltac:(lia)) H0)
    as [_ H1]; [simpl; lia|reflexivity|].
  destruct (Repr_write 8 4 1 0 0 _ [x02] _ (is_len_t_8 4 ltac:(lia)) H1)
    as [_ H2]; [simpl; lia|reflexivity|].
  exact H2.
Qed.

(** The write of the byte 1 is interrupted by the write of the byte 2. *)
Lemma nested_writes_publish_in_order_witness :
  let s' := exec_steps 8 (nested_writes 0 [[x01]; [x02]])
              {| sys_world := QueueInit 0 4 1 world0; in_flight := [] |} in
  in_flight s' = [] /\ Repr 4 1 0 0 [[x01]; [x02]] (sys_world s').
Proof.
  destruct (nested_writes_publish_in_order 8 4 1 0 0 [] [[x01]; [x02]]
              (QueueInit 0 4 1 world0)) as (Hfs & HR & _).
  - apply is_len_t_8. lia.
  - apply Repr_QueueInit; lia.
  - simpl. lia.
  - repeat constructor.
  - split; [exact Hfs|exact HR].
Defined.

(** A read is interrupted by another read: the interrupting read returns
    first, with the byte 2, and the interrupted one gets the byte 1. *)
Lemma nested_reads_take_items_in_order_witness :
  results 8 (nested_reads 0 [[x00]; [x00]])
    {| sys_world := world_two_items; in_flight := [] |}
  = [[x02]; [x01]].
Proof.
  destruct (nested_reads_take_items_in_order 8 4 1 0 0 [[x01]; [x02]]
              [[x00]; [x00]] world_two_items) as (_ & Hres & _).
  - apply is_len_t_8. lia.
  - exact Repr_world_two_items.
  - simpl. lia.
  - repeat constructor.
  - exact Hres.
Defined.

End Queue.

(** ** Mutex *)

Module Mutex.

(** The results the tests compare against. *)
Inductive result_t := SUCCESS | FAIL.

(** [mutex_t]: "count (0 = unlocked, 1 = locked)". *)
Record mutex_t := { count : Z }.

(** Modelled from the spec: [mutex_init] is missing from the sources (only
    its tests are at hand); "init: count = 0". *)
Definition mutex_init (m : mutex_t) : mutex_t := {| count := 0 |}.

(** Modelled from the spec: [mutex_lock] is missing from the sources;
    "lock: fails if count != 0; otherwise sets count = 1, returns
    success". *)
Definition mutex_lock (m : mutex_t) : result_t * mutex_t :=
  if count m =? 0 then (SUCCESS, {| count := 1 |}) else (FAIL, m).

(** Modelled from the spec: [mutex_unlock] is missing from the sources;
    "unlock: fails if count == 0; otherwise clears count, returns
    success". *)
Definition mutex_unlock (m : mutex_t) : result_t * mutex_t :=
  if count m =? 0 then (FAIL, m) else (SUCCESS, {| count := 0 |}).

(** Modelled from the spec: [mutex_islocked] is missing from the sources;
    "is_locked: reports count". *)
Definition mutex_islocked (m : mutex_t) : Z := count m.

(** The calls that change a mutex, and a mutex after a sequence of them. *)
Inductive mutex_call := Lock | Unlock.

Definition run_call (c : mutex_call) (m : mutex_t) : mutex_t :=
  match c with
  | Lock => snd (mutex_lock m)
  | Unlock => snd (mutex_unlock m)
  end.

Definition run_calls (cs : list mutex_call) (m : mutex_t) : mutex_t :=
  foldl (fun m c => run_call c m) m cs.

(** The results of [n] calls of [mutex_unlock] in a row. *)
Fixpoint unlock_times (n : nat) (m : mutex_t) : list result_t * mutex_t :=
  match n with
  | O => ([], m)
  | S n' =>
      let (r, m1) := mutex_unlock m in
      let (rs, m2) := unlock_times n' m1 in
      (r :: rs, m2)
  end.

Lemma count_run_calls cs m :
  count m = 0 \/ count m = 1 ->
  count (run_calls cs m) = 0 \/ count (run_calls cs m) = 1.
Proof.
  revert m. induction cs as [|c cs IH]; intros m H; [exact H|].
  simpl. apply IH.
  destruct c; unfold run_call, mutex_lock, mutex_unlock;
    destruct (count m =? 0); simpl; auto.
Qed.

Lemma unlock_times_unlocked n m :
  count m = 0 -> unlock_times n m = (replicate n FAIL, m).
Proof.
  intros H. induction n as [|n IH]; [reflexivity|].
  simpl. unfold mutex_unlock. rewrite H. simpl. rewrite IH. reflexivity.
Qed.

(** C8. For a mutex in any state reached from [mutex_init] by calls of
    [mutex_lock] and [mutex_unlock]: [mutex_lock] succeeds exactly when
    [count] is 0 and then sets it to 1, [mutex_unlock] succeeds exactly
    when [count] is 1 and then clears it, a failing call changes nothing,
    a successful lock followed by an unlock gives the initial state back,
    every [mutex_unlock] of an unlocked mutex fails, and [mutex_islocked]
    is [count]. *)
Theorem mutex_lock_unlock :
  forall (m0 : mutex_t) (cs : list mutex_call) (n : nat),
    let m := run_calls cs (mutex_init m0) in
    (fst (mutex_lock m) = SUCCESS <-> count m = 0) /\
    (fst (mutex_lock m) = SUCCESS -> count (snd (mutex_lock m)) = 1) /\
    (fst (mutex_lock m) = FAIL -> snd (mutex_lock m) = m) /\
    (fst (mutex_unlock m) = SUCCESS <-> count m = 1) /\
    (fst (mutex_unlock m) = SUCCESS -> count (snd (mutex_unlock m)) = 0) /\
    (fst (mutex_unlock m) = FAIL -> snd (mutex_unlock m) = m) /\
    (fst (mutex_lock (mutex_init m0)) = SUCCESS /\
     mutex_unlock (snd (mutex_lock (mutex_init m0)))
     = (SUCCESS, mutex_init m0)) /\
    (count m = 0 -> unlock_times n m = (replicate n FAIL, m)) /\
    mutex_islocked m = count m /\
    mutex_islocked (snd (mutex_lock m)) = count (snd (mutex_lock m)) /\
    mutex_islocked (snd (mutex_unlock m)) = count (snd (mutex_unlock m)).
Proof.
  intros m0 cs n m.
  assert (H : count m = 0 \/ count m = 1).
  { apply count_run_calls. left. reflexivity. }
  unfold mutex_lock, mutex_unlock, mutex_islocked.
  destruct H as [H|H]; rewrite H; simpl;
    repeat split; try reflexivity; try discriminate; try lia;
    try (intros; apply unlock_times_unlocked; assumption).
Qed.

(** Scenario 3 of the specification: init; lock succeeds and the mutex is
    locked; lock fails; unlock succeeds; unlock fails; the mutex is
    unlocked. *)
Lemma mutex_lock_unlock_witness :
  let m := mutex_init {| count := 90 |} in
  fst (mutex_lock m) = SUCCESS /\
  mutex_islocked (run_calls [Lock] m) = 1 /\
  fst (mutex_lock (run_calls [Lock] m)) = FAIL /\
  fst (mutex_unlock (run_calls [Lock; Lock] m)) = SUCCESS /\
  fst (mutex_unlock (run_calls [Lock; Lock; Unlock] m)) = FAIL /\
  mutex_islocked (run_calls [Lock; Lock; Unlock; Unlock] m) = 0.
Proof.
  pose proof (mutex_lock_unlock {| count := 90 |} [] 0) as H0.
  pose proof (mutex_lock_unlock {| count := 90 |} [Lock; Lock] 0) as H2.
  destruct H0 as (Hl & _). destruct H2 as (_ & _ & _ & Hu & _).
  split; [apply Hl; reflexivity|].
  split; [reflexivity|].
  split; [reflexivity|].
  split; [apply Hu; reflexivity|].
  split; reflexivity.
Defined.

End Mutex.

(** ** Kernel: [librertos.c] *)

Module Kernel.

Inductive kernel_mode_t := LIBRERTOS_PREEMPTIVE | LIBRERTOS_COOPERATIVE.

(** A [task_t *]: the address of a task record, or [NULL]. *)
Definition task_ptr := option Z.
Definition NULL : task_ptr := None.

(** A [struct list_t *]: the lists of the kernel state. *)
Inductive list_ptr :=
| Ready (i : Z)    (* &librertos.tasks_ready[i] *)
| Suspended.       (* &librertos.tasks_suspended *)

(** A [struct node_t *]: the scheduler node of a task, a list taken as a
    node (the list stands for its own sentinel: its [head] is the
    sentinel's [next] and its [tail] the sentinel's [prev]), the null
    pointer, or the 0x5A pattern that [memset] leaves behind. *)
Inductive node_ptr :=
| NullNode
| PoisonNode
| TaskNode (t : Z)        (* &task->sched_node *)
| ListNode (l : list_ptr). (* (struct node_t * )list *)

(** [struct node_t]. *)
Record node_t := {
  node_next : node_ptr;
  node_prev : node_ptr;
  node_list : option list_ptr;
  node_owner : task_ptr
}.

(** [struct list_t]. *)
Record list_t := {
  list_head : node_ptr;
  list_tail : node_ptr;
  list_length : Z
}.

(** [task_t]; [func] is the address of the task function. *)
Record task_t := {
  func : Z;
  param : Z;
  priority : Z;
  sched_node : node_t
}.

(** [librertos_t]. *)
Record librertos_t := {
  tick : Z;
  current_task : task_ptr;
  tasks_ready : list list_t;
  tasks_suspended : list_t
}.

(** The memory the kernel works on: the global [librertos] and the task
    records that have been written, by address. *)
Record state := {
  librertos : librertos_t;
  tasks : gmap Z task_t
}.

(** How a call ends when it does not return normally. *)
Inductive stop :=
| Assertion (val : Z)     (* LIBRERTOS_ASSERT failed; the hook does not return *)
| NullPointer             (* access through a null pointer *)
| InvalidPointer          (* access through a pointer to no object *)
| OutOfBounds.            (* index outside tasks_ready *)

Inductive result (A : Type) :=
| Ok (a : A)
| Stop (e : stop).
Arguments Ok {A} a.
Arguments Stop {A} e.

Definition K (A : Type) : Type := state -> result (A * state).

Definition ret {A} (a : A) : K A := fun s => Ok (a, s).
Definition bind {A B} (m : K A) (k : A -> K B) : K B :=
  fun s => match m s with
           | Ok (a, s') => k a s'
           | Stop e => Stop e
           end.
Definition fail {A} (e : stop) : K A := fun _ => Stop e.

Notation "x <- m ;; k" := (bind m (fun x => k))
  (at level 100, m at next level, k at level 200, right associativity,
   only parsing).
Notation "m ;; k" := (bind m (fun _ => k))
  (at level 100, k at level 200, right associativity, only parsing).

#[local] Instance list_ptr_eq_dec : EqDecision list_ptr.
Proof. solve_decision. Defined.
#[local] Instance node_ptr_eq_dec : EqDecision node_ptr.
Proof. solve_decision. Defined.

(** *** Reading and writing the objects *)

Definition lookup_list (l : list_ptr) (s : state) : option list_t :=
  match l with
  | Ready i =>
      if 0 <=? i then tasks_ready (librertos s) !! Z.to_nat i else None
  | Suspended => Some (tasks_suspended (librertos s))
  end.

Definition store_list (l : list_ptr) (v : list_t) (s : state) : state :=
  match l with
  | Ready i =>
      {| librertos :=
           {| tick := tick (librertos s);
              current_task := current_task (librertos s);
              tasks_ready := <[Z.to_nat i := v]> (tasks_ready (librertos s));
              tasks_suspended := tasks_suspended (librertos s) |};
         tasks := tasks s |}
  | Suspended =>
      {| librertos :=
           {| tick := tick (librertos s);
              current_task := current_task (librertos s);
              tasks_ready := tasks_ready (librertos s);
              tasks_suspended := v |};
         tasks := tasks s |}
  end.

Definition store_task (t : Z) (v : task_t) (s : state) : state :=
  {| librertos := librertos s; tasks := <[t := v]> (tasks s) |}.

Definition read_list (l : list_ptr) : K list_t := fun s =>
  match lookup_list l s with
  | Some v => Ok (v, s)
  | None => Stop OutOfBounds
  end.

Definition write_list (l : list_ptr) (v : list_t) : K unit := fun s =>
  match lookup_list l s with
  | Some _ => Ok (tt, store_list l v s)
  | None => Stop OutOfBounds
  end.

Definition read_task (t : task_ptr) : K task_t := fun s =>
  match t with
  | None => Stop NullPointer
  | Some a =>
      match tasks s !! a with
      | Some v => Ok (v, s)
      | None => Stop InvalidPointer
      end
  end.

Definition write_task (t : Z) (v : task_t) : K unit := fun s =>
  Ok (tt, store_task t v s).

Definition set_node (n : node_t) (tk : task_t) : task_t :=
  {| func := func tk; param := param tk; priority := priority tk;
     sched_node := n |}.

(** [node->next], [node->prev], [node->list] and [node->owner], for
    reading. *)
Definition get_next (n : node_ptr) : K node_ptr :=
  match n with
  | NullNode => fail NullPointer
  | PoisonNode => fail InvalidPointer
  | TaskNode t => tk <- read_task (Some t) ;; ret (node_next (sched_node tk))
  | ListNode l => v <- read_list l ;; ret (list_head v)
  end.

Definition get_prev (n : node_ptr) : K node_ptr :=
  match n with
  | NullNode => fail NullPointer
  | PoisonNode => fail InvalidPointer
  | TaskNode t => tk <- read_task (Some t) ;; ret (node_prev (sched_node tk))
  | ListNode l => v <- read_list l ;; ret (list_tail v)
  end.

Definition get_list (n : node_ptr) : K (option list_ptr) :=
  match n with
  | NullNode => fail NullPointer
  | TaskNode t => tk <- read_task (Some t) ;; ret (node_list (sched_node tk))
  | PoisonNode | ListNode _ => fail InvalidPointer
  end.

Definition get_owner (n : node_ptr) : K task_ptr :=
  match n with
  | NullNode => fail NullPointer
  | TaskNode t => tk <- read_task (Some t) ;; ret (node_owner (sched_node tk))
  | PoisonNode | ListNode _ => fail InvalidPointer
  end.

(** The same four, for writing. *)
Definition set_next (n : node_ptr) (v : node_ptr) : K unit :=
  match n with
  | NullNode => fail NullPointer
  | PoisonNode => fail InvalidPointer
  | TaskNode t =>
      tk <- read_task (Some t) ;;
      write_task t
        (set_node {| node_next := v;
                     node_prev := node_prev (sched_node tk);
                     node_list := node_list (sched_node tk);
                     node_owner := node_owner (sched_node tk) |} tk)
  | ListNode l =>
      x <- read_list l ;;
      write_list l {| list_head := v; list_tail := list_tail x;
                      list_length := list_length x |}
  end.

Definition set_prev (n : node_ptr) (v : node_ptr) : K unit :=
  match n with
  | NullNode => fail NullPointer
  | PoisonNode => fail InvalidPointer
  | TaskNode t =>
      tk <- read_task (Some t) ;;
      write_task t
        (set_node {| node_next := node_next (sched_node tk);
                     node_prev := v;
                     node_list := node_list (sched_node tk);
                     node_owner := node_owner (sched_node tk) |} tk)
  | ListNode l =>
      x <- read_list l ;;
      write_list l {| list_head := list_head x; list_tail := v;
                      list_length := list_length x |}
  end.

Definition set_list (n : node_ptr) (v : option list_ptr) : K unit :=
  match n with
  | NullNode => fail NullPointer
  | TaskNode t =>
      tk <- read_task (Some t) ;;
      write_task t
        (set_node {| node_next := node_next (sched_node tk);
                     node_prev := node_prev (sched_node tk);
                     node_list := v;
                     node_owner := node_owner (sched_node tk) |} tk)
  | PoisonNode | ListNode _ => fail InvalidPointer
  end.

Definition set_owner (n : node_ptr) (v : task_ptr) : K unit :=
  match n with
  | NullNode => fail NullPointer
  | TaskNode t =>
      tk <- read_task (Some t) ;;
      write_task t
        (set_node {| node_next := node_next (sched_node tk);
                     node_prev := node_prev (sched_node tk);
                     node_list := node_list (sched_node tk);
                     node_owner := v |} tk)
  | PoisonNode | ListNode _ => fail InvalidPointer
  end.

(** The list a [node->list] points to, for [list->length]. *)
Definition deref_list (l : option list_ptr) : K list_ptr :=
  match l with
  | Some l' => ret l'
  | None => fail NullPointer
  end.

Definition get_current_task_ : K task_ptr := fun s =>
  Ok (current_task (librertos s), s).

Definition get_tick_ : K Z := fun s => Ok (tick (librertos s), s).

Definition set_current_task (t : task_ptr) : K unit := fun s =>
  Ok (tt, {| librertos :=
               {| tick := tick (librertos s);
                  current_task := t;
                  tasks_ready := tasks_ready (librertos s);
                  tasks_suspended := tasks_suspended (librertos s) |};
             tasks := tasks s |}).

(** [&task->sched_node]. *)
Definition sched_node_of (t : task_ptr) : node_ptr :=
  match t with
  | Some a => TaskNode a
  | None => NullNode
  end.

(** The 0x5A pattern of [memset], as a pointer, a number, and the records
    filled with it. *)
Definition poison_Z : Z := 0x5A.
Definition poison_task_ptr : task_ptr := Some 0x5A5A5A5A.

Definition poison_node : node_t :=
  {| node_next := PoisonNode; node_prev := PoisonNode;
     node_list := None; node_owner := poison_task_ptr |}.

Definition poison_list : list_t :=
  {| list_head := PoisonNode; list_tail := PoisonNode;
     list_length := poison_Z |}.

Definition poison_task : task_t :=
  {| func := poison_Z; param := poison_Z; priority := poison_Z;
     sched_node := poison_node |}.

Section WithConfig.

(** The configuration of the project header. *)
Variable NUM_PRIORITIES LOW_PRIORITY HIGH_PRIORITY : Z.
Variable KERNEL_MODE : kernel_mode_t.

(** The widths of [tick_t] and of the type of [list->length]. *)
Variable TICK_BITS LENGTH_BITS : N.

Definition to_tick_t (x : Z) : Z := x mod 2 ^ Z.of_N TICK_BITS.
Definition to_length_t (x : Z) : Z := x mod 2 ^ Z.of_N LENGTH_BITS.

(** *** The list

    The functions marked "Unsafe" in the source: they run inside the
    critical section of their caller. *)

(** [list_init]. *)
Definition list_init (list : list_ptr) : K unit :=
  write_list list {| list_head := ListNode list;
                     list_tail := ListNode list;
                     list_length := 0 |}.

(** [node_init]. *)
Definition node_init (node : node_ptr) (owner : task_ptr) : K unit :=
  set_next node NullNode ;;
  set_prev node NullNode ;;
  set_list node None ;;
  set_owner node owner.

(** [list_insert_after]. *)
Definition list_insert_after (list : list_ptr) (pos node : node_ptr)
  : K unit :=
  pos_next <- get_next pos ;;
  set_next node pos_next ;;
  set_prev node pos ;;
  pos_next <- get_next pos ;;
  set_prev pos_next node ;;
  set_next pos node ;;
  set_list node (Some list) ;;
  v <- read_list list ;;
  write_list list {| list_head := list_head v; list_tail := list_tail v;
                     list_length := to_length_t (list_length v + 1) |}.

(** [list_insert_before]. *)
Definition list_insert_before (list : list_ptr) (pos node : node_ptr)
  : K unit :=
  pos_prev <- get_prev pos ;;
  list_insert_after list pos_prev node.

(** [list_insert_first]; [LIST_HEAD(list)] is the list taken as a node. *)
Definition list_insert_first (list : list_ptr) (node : node_ptr) : K unit :=
  list_insert_after list (ListNode list) node.

(** [list_insert_last]. *)
Definition list_insert_last (list : list_ptr) (node : node_ptr) : K unit :=
  v <- read_list list ;;
  list_insert_after list (list_tail v) node.

(** [list_remove]. *)
Definition list_remove (node : node_ptr) : K unit :=
  list <- get_list node ;;
  node_next_ <- get_next node ;;
  node_prev_ <- get_prev node ;;
  set_prev node_next_ node_prev_ ;;
  node_prev_ <- get_prev node ;;
  node_next_ <- get_next node ;;
  set_next node_prev_ node_next_ ;;
  set_next node NullNode ;;
  set_prev node NullNode ;;
  set_list node None ;;
  l <- deref_list list ;;
  v <- read_list l ;;
  write_list l {| list_head := list_head v; list_tail := list_tail v;
                  list_length := to_length_t (list_length v - 1) |}.

(** [list_get_first], [list_get_last] and [list_empty]. *)
Definition list_get_first (list : list_ptr) : K node_ptr :=
  v <- read_list list ;; ret (list_head v).
Definition list_get_last (list : list_ptr) : K node_ptr :=
  v <- read_list list ;; ret (list_tail v).
Definition list_empty (list : list_ptr) : K bool :=
  v <- read_list list ;; ret (list_length v =? 0).

(** *** The kernel

    [CRITICAL_ENTER] and [CRITICAL_EXIT] delimit the stretches of code
    that run with interrupts disabled; each function below, and each of
    the two halves of [librertos_sched], is such a stretch. *)

Definition memset_librertos : K unit := fun s =>
  Ok (tt, {| librertos :=
               {| tick := poison_Z;
                  current_task := poison_task_ptr;
                  tasks_ready :=
                    replicate (Z.to_nat NUM_PRIORITIES) poison_list;
                  tasks_suspended := poison_list |};
             tasks := tasks s |}).

Definition set_tick (v : Z) : K unit := fun s =>
  Ok (tt, {| librertos :=
               {| tick := v;
                  current_task := current_task (librertos s);
                  tasks_ready := tasks_ready (librertos s);
                  tasks_suspended := tasks_suspended (librertos s) |};
             tasks := tasks s |}).

(** The loop [for (i = 0; i < NUM_PRIORITIES; i++)] of [librertos_init],
    with [n] iterations left.  The counter [i] is an [int8_t]: it stays
    within its type, and the loop is the one written here, when
    [NUM_PRIORITIES <= 127], which [config_ok] below asks for. *)
Fixpoint init_tasks_ready (n : nat) (i : Z) : K unit :=
  match n with
  | O => ret tt
  | S n' => list_init (Ready i) ;; init_tasks_ready n' (i + 1)
  end.

(** [librertos_init]. *)
Definition librertos_init : K unit :=
  memset_librertos ;;
  set_tick 0 ;;
  set_current_task NULL ;;
  init_tasks_ready (Z.to_nat NUM_PRIORITIES) 0 ;;
  list_init Suspended.

(** [librertos_create_task]. *)
Definition librertos_create_task (priority_ : Z) (task : task_ptr)
    (func_ param_ : Z) : K unit :=
  if negb ((priority_ >=? LOW_PRIORITY) && (priority_ <=? HIGH_PRIORITY))
  then fail (Assertion priority_)
  else
    match task with
    | None => fail NullPointer
    | Some a =>
        write_task a poison_task ;;
        write_task a {| func := func_; param := param_;
                        priority := priority_;
                        sched_node := poison_node |} ;;
        node_init (TaskNode a) task ;;
        list_insert_last (Ready priority_) (TaskNode a)
    end.

(** The loop [for (i = HIGH_PRIORITY; i > current_priority; i--)] of
    [librertos_sched] up to the call of the task function, with [n]
    values of [i] left above [current_priority]: the task to run, or
    nothing when the loop ends. *)
Fixpoint sched_loop (n : nat) (current_priority : Z) : K (option task_ptr) :=
  match n with
  | O => ret None
  | S n' =>
      let i := current_priority + Z.of_nat n in
      empty <- list_empty (Ready i) ;;
      if empty then sched_loop n' current_priority
      else
        node <- list_get_first (Ready i) ;;
        task <- get_owner node ;;
        list_remove node ;;
        list_insert_last (Ready i) node ;;
        set_current_task task ;;
        ret (Some task)
  end.

Definition is_cooperative (m : kernel_mode_t) : bool :=
  match m with
  | LIBRERTOS_COOPERATIVE => true
  | LIBRERTOS_PREEMPTIVE => false
  end.

(** [librertos_sched], from its entry to the call of the task function:
    the task to run and the value of the local [current_task], or nothing
    when the function returns without running a task. *)
Definition sched_select : K (option (task_ptr * task_ptr)) :=
  current_task_ <- get_current_task_ ;;
  current_priority <-
    match current_task_ with
    | None => ret (-1)
    | Some _ => tk <- read_task current_task_ ;; ret (priority tk)
    end ;;
  if is_cooperative KERNEL_MODE && (current_priority >=? 0) then ret None
  else
    r <- sched_loop (Z.to_nat (HIGH_PRIORITY - current_priority))
                    current_priority ;;
    ret (match r with
         | None => None
         | Some task => Some (task, current_task_)
         end).

(** [librertos_sched]; [call f p] runs the task function at address [f]
    with parameter [p]. *)
Definition librertos_sched (call : Z -> Z -> K unit) : K unit :=
  r <- sched_select ;;
  match r with
  | None => ret tt
  | Some (task, current_task_) =>
      tk <- read_task task ;;
      call (func tk) (param tk) ;;
      set_current_task current_task_
  end.

(** [librertos_tick_interrupt]. *)
Definition librertos_tick_interrupt : K unit :=
  t <- get_tick_ ;;
  set_tick (to_tick_t (t + 1)).

(** [get_tick] and [get_current_task]. *)
Definition get_tick : K Z := get_tick_.
Definition get_current_task : K task_ptr := get_current_task_.

(** [task_suspend]. *)
Definition task_suspend (task : task_ptr) : K unit :=
  task <- match task with
          | None => get_current_task_
          | Some _ => ret task
          end ;;
  list_remove (sched_node_of task) ;;
  list_insert_first Suspended (sched_node_of task).

(** [task_resume]. *)
Definition task_resume (task : task_ptr) : K unit :=
  tk <- read_task task ;;
  let list_ready := Ready (priority tk) in
  if negb (bool_decide (node_list (sched_node tk) = Some list_ready)) then
    list_remove (sched_node_of task) ;;
    list_insert_last list_ready (sched_node_of task)
  else ret tt.

(** *** Specification

    The views of the state, the lists as sequences of tasks, the
    invariant and the reachable states that the properties below are
    stated with. *)

(** What the list functions read and write, taken one field at a time:
    the [next] and [prev] of a node (for a list taken as a node, its
    [head] and [tail]), the [list] and [owner] of the node of a task, the
    [length] of a list, and the fields of a task the lists never touch. *)
Definition nnext (s : state) (n : node_ptr) : option node_ptr :=
  match n with
  | TaskNode a => node_next ∘ sched_node <$> tasks s !! a
  | ListNode l => list_head <$> lookup_list l s
  | _ => None
  end.

Definition nprev (s : state) (n : node_ptr) : option node_ptr :=
  match n with
  | TaskNode a => node_prev ∘ sched_node <$> tasks s !! a
  | ListNode l => list_tail <$> lookup_list l s
  | _ => None
  end.

Definition nlist (s : state) (a : Z) : option (option list_ptr) :=
  node_list ∘ sched_node <$> tasks s !! a.

Definition nowner (s : state) (a : Z) : option task_ptr :=
  node_owner ∘ sched_node <$> tasks s !! a.

Definition statics (s : state) (a : Z) : option (Z * Z * Z) :=
  (fun tk => (func tk, param tk, priority tk)) <$> tasks s !! a.

Definition llen (s : state) (l : list_ptr) : option Z :=
  list_length <$> lookup_list l s.

(** The writes, as functions on states. *)
Definition upd_next (n v : node_ptr) (s : state) : state :=
  match n with
  | TaskNode a =>
      match tasks s !! a with
      | Some tk =>
          store_task a
            (set_node {| node_next := v;
                         node_prev := node_prev (sched_node tk);
                         node_list := node_list (sched_node tk);
                         node_owner := node_owner (sched_node tk) |} tk) s
      | None => s
      end
  | ListNode l =>
      match lookup_list l s with
      | Some x =>
          store_list l {| list_head := v; list_tail := list_tail x;
                          list_length := list_length x |} s
      | None => s
      end
  | _ => s
  end.

Definition upd_prev (n v : node_ptr) (s : state) : state :=
  match n with
  | TaskNode a =>
      match tasks s !! a with
      | Some tk =>
          store_task a
            (set_node {| node_next := node_next (sched_node tk);
                         node_prev := v;
                         node_list := node_list (sched_node tk);
                         node_owner := node_owner (sched_node tk) |} tk) s
      | None => s
      end
  | ListNode l =>
      match lookup_list l s with
      | Some x =>
          store_list l {| list_head := list_head x; list_tail := v;
                          list_length := list_length x |} s
      | None => s
      end
  | _ => s
  end.

Definition upd_list (a : Z) (v : option list_ptr) (s : state) : state :=
  match tasks s !! a with
  | Some tk =>
      store_task a
        (set_node {| node_next := node_next (sched_node tk);
                     node_prev := node_prev (sched_node tk);
                     node_list := v;
                     node_owner := node_owner (sched_node tk) |} tk) s
  | None => s
  end.

Definition upd_len (l : list_ptr) (v : Z) (s : state) : state :=
  match lookup_list l s with
  | Some x =>
      store_list l {| list_head := list_head x; list_tail := list_tail x;
                      list_length := v |} s
  | None => s
  end.

(** The node after the last of [ts], or before the first: the first (last)
    task of [ts], or [d] when there is none. *)
Definition fst_or (ts : list Z) (d : node_ptr) : node_ptr :=
  match ts with
  | [] => d
  | t :: _ => TaskNode t
  end.

Fixpoint lst_or (ts : list Z) (d : node_ptr) : node_ptr :=
  match ts with
  | [] => d
  | t :: ts' => lst_or ts' (TaskNode t)
  end.

(** The scheduler nodes of the tasks [ts] are linked in this order between
    the node [p] before them and the node [q] after them, all on list
    [l], each owned by its task. *)
Fixpoint seg (s : state) (l : list_ptr) (p : node_ptr) (ts : list Z)
    (q : node_ptr) : Prop :=
  match ts with
  | [] => True
  | t :: ts' =>
      nnext s (TaskNode t) = Some (fst_or ts' q) /\
      nprev s (TaskNode t) = Some p /\
      nlist s t = Some (Some l) /\
      nowner s t = Some (Some t) /\
      seg s l (TaskNode t) ts' q
  end.

(** The list at [l] holds exactly the tasks [ts], first to last. *)
Definition dll (s : state) (l : list_ptr) (ts : list Z) : Prop :=
  nnext s (ListNode l) = Some (fst_or ts (ListNode l)) /\
  nprev s (ListNode l) = Some (lst_or ts (ListNode l)) /\
  llen s l = Some (to_length_t (Z.of_nat (length ts))) /\
  seg s l (ListNode l) ts (ListNode l) /\
  NoDup ts.

(** The state after [list_insert_after list pos node] and after
    [list_remove node], as the sequence of their writes. *)
Definition inserted (l : list_ptr) (pos pn : node_ptr) (t n : Z) (s : state)
  : state :=
  upd_len l (to_length_t (n + 1))
    (upd_list t (Some l)
       (upd_next pos (TaskNode t)
          (upd_prev pn (TaskNode t)
             (upd_prev (TaskNode t) pos
                (upd_next (TaskNode t) pn s))))).

Definition removed (l : list_ptr) (np nn : node_ptr) (t n : Z) (s : state)
  : state :=
  upd_len l (to_length_t (n - 1))
    (upd_list t None
       (upd_prev (TaskNode t) NullNode
          (upd_next (TaskNode t) NullNode
             (upd_next np nn
                (upd_prev nn np s))))).

(** What a list function leaves alone: the other lists, the [list] field
    of the other tasks, and everything that is not a link. *)
Definition effects (s s' : state) (l : list_ptr) (t : Z)
    (v : option list_ptr) : Prop :=
  (forall l' ts', l' <> l -> dll s l' ts' -> dll s' l' ts') /\
  (forall a, a <> t -> nlist s' a = nlist s a) /\
  nlist s' t = Some v /\
  (forall a, nowner s' a = nowner s a) /\
  (forall a, statics s' a = statics s a) /\
  tick (librertos s') = tick (librertos s) /\
  current_task (librertos s') = current_task (librertos s).

(** The writes of [librertos.current_task] and of [librertos.tick]. *)
Definition upd_current (c : task_ptr) (s : state) : state :=
  {| librertos :=
       {| tick := tick (librertos s);
          current_task := c;
          tasks_ready := tasks_ready (librertos s);
          tasks_suspended := tasks_suspended (librertos s) |};
     tasks := tasks s |}.

Definition upd_tick (v : Z) (s : state) : state :=
  {| librertos :=
       {| tick := v;
          current_task := current_task (librertos s);
          tasks_ready := tasks_ready (librertos s);
          tasks_suspended := tasks_suspended (librertos s) |};
     tasks := tasks s |}.

(** The lists that exist: one ready list per priority, and the suspended
    list. *)
Definition valid_list (l : list_ptr) : Prop :=
  match l with
  | Ready i => 0 <= i < NUM_PRIORITIES
  | Suspended => True
  end.

(** What the configuration header has to provide: priorities index
    [tasks_ready] and fit the [int8_t] of the code. *)
Definition config_ok : Prop :=
  0 <= LOW_PRIORITY /\ LOW_PRIORITY <= HIGH_PRIORITY /\
  HIGH_PRIORITY < NUM_PRIORITIES /\ NUM_PRIORITIES <= 127.

(** The contents of the lists, with those of [l] replaced by [ts]. *)
Definition upd (A : list_ptr -> list Z) (l : list_ptr) (ts : list Z)
  : list_ptr -> list Z :=
  fun l' => if decide (l' = l) then ts else A l'.

(** Priorities are in range, and a task on a ready list is on the one of
    its priority. *)
Definition prio_ok (s : state) : Prop :=
  forall a f p pr,
    statics s a = Some (f, p, pr) ->
    LOW_PRIORITY <= pr <= HIGH_PRIORITY /\
    (forall i, nlist s a = Some (Some (Ready i)) -> pr = i).

(** The running task, when there is one, has a task record. *)
Definition cur_ok (s : state) : Prop :=
  forall c, current_task (librertos s) = Some c -> is_Some (statics s c).

(** The same task records exist, with the same function, parameter and
    priority. *)
Definition same_static (s s' : state) : Prop :=
  (forall a, statics s' a = statics s a) /\
  tick (librertos s') = tick (librertos s) /\
  current_task (librertos s') = current_task (librertos s).

(** [Inv A s]: every list [l] holds the tasks [A l]; every task is on the
    list its node names. *)
Record Inv (A : list_ptr -> list Z) (s : state) : Prop := {
  I_dll : forall l, valid_list l -> dll s l (A l);
  I_member : forall a, is_Some (statics s a) ->
             exists l, valid_list l /\ nlist s a = Some (Some l) /\ a ∈ A l;
  I_prio : prio_ok s;
  I_cur : cur_ok s
}.

(** The same with the task [t] taken off its list and not yet put on
    another. *)
Record PInv (A : list_ptr -> list Z) (t : Z) (s : state) : Prop := {
  P_dll : forall l, valid_list l -> dll s l (A l);
  P_member : forall a, is_Some (statics s a) -> a <> t ->
             exists l, valid_list l /\ nlist s a = Some (Some l) /\ a ∈ A l;
  P_detached : nlist s t = Some None;
  P_owner : nowner s t = Some (Some t);
  P_prio : prio_ok s;
  P_cur : cur_ok s
}.

(** The kernel state is well formed. *)
Definition wf (s : state) : Prop := exists A, Inv A s.

(** The task record after the assignments and [node_init] of
    [librertos_create_task]. *)
Definition fresh_task (priority_ func_ param_ a : Z) : task_t :=
  {| func := func_; param := param_; priority := priority_;
     sched_node := {| node_next := NullNode; node_prev := NullNode;
                      node_list := None; node_owner := Some a |} |}.

(** The list [l] after [list_init]: empty, its head and tail the list
    itself. *)
Definition init_list (l : list_ptr) : list_t :=
  {| list_head := ListNode l; list_tail := ListNode l; list_length := 0 |}.

(** The state [librertos_init] leaves: the task records are not touched. *)
Definition init_state (s0 : state) : state :=
  {| librertos :=
       {| tick := 0;
          current_task := None;
          tasks_ready :=
            map (fun i : nat => init_list (Ready (Z.of_nat i)))
                (seq 0 (Z.to_nat NUM_PRIORITIES));
          tasks_suspended := init_list Suspended |};
     tasks := tasks s0 |}.

(** The priority [librertos_sched] compares against: that of the running
    task, or -1 when none is running. *)
Definition current_priority (s : state) : Z :=
  match current_task (librertos s) with
  | None => -1
  | Some c =>
      match tasks s !! c with
      | Some tk => priority tk
      | None => -1
      end
  end.

(** The states the kernel can be in.  It is initialised before any task
    record is written; then tasks are created in records not yet in use,
    the tick interrupt fires, tasks are suspended and resumed, and
    [librertos_sched] runs tasks.  While a task function runs, anything of
    the above may happen, further calls of [librertos_sched] included;
    the values of the local [current_task] of the calls of
    [librertos_sched] that have not returned yet form a stack. *)
Inductive reachable : state -> list task_ptr -> Prop :=
| Reach_init s0 s :
    tasks s0 = ∅ ->
    librertos_init s0 = Ok (tt, s) ->
    reachable s []
| Reach_create s stack priority_ a func_ param_ s' :
    reachable s stack ->
    tasks s !! a = None ->
    librertos_create_task priority_ (Some a) func_ param_ s = Ok (tt, s') ->
    reachable s' stack
| Reach_tick s stack s' :
    reachable s stack ->
    librertos_tick_interrupt s = Ok (tt, s') ->
    reachable s' stack
| Reach_suspend s stack task s' :
    reachable s stack ->
    task_suspend task s = Ok (tt, s') ->
    reachable s' stack
| Reach_resume s stack task s' :
    reachable s stack ->
    task_resume task s = Ok (tt, s') ->
    reachable s' stack
| Reach_sched_call s stack task current_task_ s' :
    reachable s stack ->
    sched_select s = Ok (Some (task, current_task_), s') ->
    reachable s' (current_task_ :: stack)
| Reach_sched_return s stack current_task_ s' :
    reachable s (current_task_ :: stack) ->
    set_current_task current_task_ s = Ok (tt, s') ->
    reachable s' stack.

(** A task pointer is null or points to a task record. *)
Definition allocated (s : state) (t : task_ptr) : Prop :=
  match t with
  | Some a => is_Some (statics s a)
  | None => True
  end.

(** Modelled from the spec: the wait lists and the wake deadlines of
    pended tasks are missing from [librertos.c]; "pend(list, task,
    ticks_to_wait): inserts the event node into list", "sets the task's
    wake deadline to tick + ticks_to_wait", "removes the task's scheduler
    node from its ready list".  A pended task is a task with its wake
    tick, on a wait list that lies outside [librertos]. *)
Record pended := {
  pended_task : Z;
  wake_tick : Z
}.

(** Modelled from the spec: the kernel state together with the tasks
    that "pend(list, task, ticks_to_wait)" has put on a wait list. *)
Record system := {
  kernel : state;
  wait_list : list pended
}.

(** [librertos_tick_interrupt] in a system with a wait list: the function
    reads and writes [librertos.tick] only. *)
Definition tick_interrupt_system (sys : system) : result (unit * system) :=
  match librertos_tick_interrupt (kernel sys) with
  | Ok (_, s') => Ok (tt, {| kernel := s'; wait_list := wait_list sys |})
  | Stop e => Stop e
  end.

(** [n] calls of [librertos_sched] in a row, as the loop of an
    application makes them; [call f p] runs the task function at address
    [f] with parameter [p]. *)
Fixpoint sched_calls (call : Z -> Z -> K unit) (n : nat) : K unit :=
  match n with
  | O => ret tt
  | S n' => librertos_sched call ;; sched_calls call n'
  end.

(** [n] tick interrupts in a row. *)
Fixpoint tick_interrupts (n : nat) : K unit :=
  match n with
  | O => ret tt
  | S n' => librertos_tick_interrupt ;; tick_interrupts n'
  end.

(** *** Stores and lookups *)

Lemma lookup_list_store_list l v s :
  is_Some (lookup_list l s) -> lookup_list l (store_list l v s) = Some v.
Proof.
  destruct l as [i|]; simpl; [|reflexivity].
  destruct (0 <=? i); [|intros [? ?]; discriminate].
  intros H. apply lookup_lt_is_Some in H.
  apply list_lookup_insert_eq. exact H.
Qed.

Lemma lookup_list_store_list_ne l l' v s :
  l <> l' -> is_Some (lookup_list l s) ->
  lookup_list l' (store_list l v s) = lookup_list l' s.
Proof.
  intros Hne H. destruct l as [i|], l' as [j|]; simpl in *; try reflexivity;
    try congruence.
  destruct (Z.leb_spec 0 i); [|destruct H; discriminate].
  destruct (Z.leb_spec 0 j); [|reflexivity].
  apply list_lookup_insert_ne. intros E. apply Hne. f_equal. lia.
Qed.

Lemma lookup_list_store_task l a v s :
  lookup_list l (store_task a v s) = lookup_list l s.
Proof. destruct l; reflexivity. Qed.

Lemma tasks_store_list l v s : tasks (store_list l v s) = tasks s.
Proof. destruct l; reflexivity. Qed.

Lemma tasks_store_task a v s : tasks (store_task a v s) = <[a := v]> (tasks s).
Proof. reflexivity. Qed.

Lemma tick_store_list l v s :
  tick (librertos (store_list l v s)) = tick (librertos s).
Proof. destruct l; reflexivity. Qed.

Lemma current_task_store_list l v s :
  current_task (librertos (store_list l v s)) = current_task (librertos s).
Proof. destruct l; reflexivity. Qed.

(** *** Views of the state after a write *)

Arguments lookup_list : simpl never.
Arguments store_list : simpl never.
Arguments store_task : simpl never.
Arguments nnext : simpl never.
Arguments nprev : simpl never.
Arguments nlist : simpl never.
Arguments nowner : simpl never.
Arguments statics : simpl never.
Arguments llen : simpl never.

Ltac view_crush :=
  unfold nnext, nprev, nlist, nowner, statics, llen,
    upd_next, upd_prev, upd_list, upd_len;
  repeat match goal with
         | |- context [tasks ?s !! ?a] =>
             is_var s; let E := fresh "E" in destruct (tasks s !! a) eqn:E
         | |- context [lookup_list ?l ?s] =>
             is_var s; let E := fresh "E" in destruct (lookup_list l s) eqn:E
         | |- context [decide (?x = ?y)] =>
             destruct (decide (x = y)); simplify_eq
         | _ => progress
                  (rewrite ?tasks_store_task, ?tasks_store_list,
                     ?lookup_list_store_task,
                     ?tick_store_list, ?current_task_store_list)
         | _ => rewrite lookup_insert_eq
         | _ => rewrite lookup_insert_ne by congruence
         | _ => rewrite lookup_list_store_list by eauto
         | _ => rewrite lookup_list_store_list_ne by (congruence || eauto)
         | H : ?x = _ |- context [?x] => rewrite H
         | |- context [<[?a := _]> _ !! ?b] =>
             destruct (decide (a = b)); simplify_eq;
             [rewrite lookup_insert_eq|rewrite lookup_insert_ne by congruence]
         | |- context [lookup_list ?l' (store_list ?l _ _)] =>
             destruct (decide (l = l')); simplify_eq;
             [rewrite lookup_list_store_list by eauto
             |rewrite lookup_list_store_list_ne by (congruence || eauto)]
         end;
  simpl; try congruence; try reflexivity.

Lemma nnext_upd_next n v s n' :
  nnext (upd_next n v s) n'
  = if decide (n' = n) then (fun _ => v) <$> nnext s n else nnext s n'.
Proof. destruct n, n'; view_crush. Qed.

Lemma nprev_upd_next n v s n' : nprev (upd_next n v s) n' = nprev s n'.
Proof. destruct n, n'; view_crush. Qed.

Lemma nlist_upd_next n v s a : nlist (upd_next n v s) a = nlist s a.
Proof. destruct n; view_crush. Qed.

Lemma nowner_upd_next n v s a : nowner (upd_next n v s) a = nowner s a.
Proof. destruct n; view_crush. Qed.

Lemma statics_upd_next n v s a : statics (upd_next n v s) a = statics s a.
Proof. destruct n; view_crush. Qed.

Lemma llen_upd_next n v s l : llen (upd_next n v s) l = llen s l.
Proof. destruct n; view_crush. Qed.

Lemma tick_upd_next n v s :
  tick (librertos (upd_next n v s)) = tick (librertos s).
Proof. destruct n; view_crush. Qed.

Lemma current_task_upd_next n v s :
  current_task (librertos (upd_next n v s)) = current_task (librertos s).
Proof. destruct n; view_crush. Qed.

Lemma nnext_upd_prev n v s n' : nnext (upd_prev n v s) n' = nnext s n'.
Proof. destruct n, n'; view_crush. Qed.

Lemma nprev_upd_prev n v s n' :
  nprev (upd_prev n v s) n'
  = if decide (n' = n) then (fun _ => v) <$> nprev s n else nprev s n'.
Proof. destruct n, n'; view_crush. Qed.

Lemma nlist_upd_prev n v s a : nlist (upd_prev n v s) a = nlist s a.
Proof. destruct n; view_crush. Qed.

Lemma nowner_upd_prev n v s a : nowner (upd_prev n v s) a = nowner s a.
Proof. destruct n; view_crush. Qed.

Lemma statics_upd_prev n v s a : statics (upd_prev n v s) a = statics s a.
Proof. destruct n; view_crush. Qed.

Lemma llen_upd_prev n v s l : llen (upd_prev n v s) l = llen s l.
Proof. destruct n; view_crush. Qed.

Lemma tick_upd_prev n v s :
  tick (librertos (upd_prev n v s)) = tick (librertos s).
Proof. destruct n; view_crush. Qed.

Lemma current_task_upd_prev n v s :
  current_task (librertos (upd_prev n v s)) = current_task (librertos s).
Proof. destruct n; view_crush. Qed.

Lemma nnext_upd_list a v s n : nnext (upd_list a v s) n = nnext s n.
Proof. destruct n; view_crush. Qed.

Lemma nprev_upd_list a v s n : nprev (upd_list a v s) n = nprev s n.
Proof. destruct n; view_crush. Qed.

Lemma nlist_upd_list a v s a' :
  nlist (upd_list a v s) a'
  = if decide (a' = a) then (fun _ => v) <$> nlist s a else nlist s a'.
Proof. view_crush. Qed.

Lemma nowner_upd_list a v s a' : nowner (upd_list a v s) a' = nowner s a'.
Proof. view_crush. Qed.

Lemma statics_upd_list a v s a' : statics (upd_list a v s) a' = statics s a'.
Proof. view_crush. Qed.

Lemma llen_upd_list a v s l : llen (upd_list a v s) l = llen s l.
Proof. view_crush. Qed.

Lemma tick_upd_list a v s :
  tick (librertos (upd_list a v s)) = tick (librertos s).
Proof. view_crush. Qed.

Lemma current_task_upd_list a v s :
  current_task (librertos (upd_list a v s)) = current_task (librertos s).
Proof. view_crush. Qed.

Lemma nnext_upd_len l v s n : nnext (upd_len l v s) n = nnext s n.
Proof. destruct n; view_crush. Qed.

Lemma nprev_upd_len l v s n : nprev (upd_len l v s) n = nprev s n.
Proof. destruct n; view_crush. Qed.

Lemma nlist_upd_len l v s a : nlist (upd_len l v s) a = nlist s a.
Proof. view_crush. Qed.

Lemma nowner_upd_len l v s a : nowner (upd_len l v s) a = nowner s a.
Proof. view_crush. Qed.

Lemma statics_upd_len l v s a : statics (upd_len l v s) a = statics s a.
Proof. view_crush. Qed.

Lemma llen_upd_len l v s l' :
  llen (upd_len l v s) l'
  = if decide (l' = l) then (fun _ => v) <$> llen s l else llen s l'.
Proof. view_crush. Qed.

Lemma tick_upd_len l v s :
  tick (librertos (upd_len l v s)) = tick (librertos s).
Proof. view_crush. Qed.

Lemma current_task_upd_len l v s :
  current_task (librertos (upd_len l v s)) = current_task (librertos s).
Proof. view_crush. Qed.

Create Rewrite HintDb views.
#[local] Hint Rewrite
  nnext_upd_next nprev_upd_next nlist_upd_next nowner_upd_next
  statics_upd_next llen_upd_next tick_upd_next current_task_upd_next
  nnext_upd_prev nprev_upd_prev nlist_upd_prev nowner_upd_prev
  statics_upd_prev llen_upd_prev tick_upd_prev current_task_upd_prev
  nnext_upd_list nprev_upd_list nlist_upd_list nowner_upd_list
  statics_upd_list llen_upd_list tick_upd_list current_task_upd_list
  nnext_upd_len nprev_upd_len nlist_upd_len nowner_upd_len statics_upd_len
  llen_upd_len tick_upd_len current_task_upd_len
  : views.

(** *** Running the accessors *)

Lemma bind_ok {A B} (m : K A) (k : A -> K B) s a s' :
  m s = Ok (a, s') -> bind m k s = k a s'.
Proof. intros H. unfold bind. rewrite H. reflexivity. Qed.

Lemma get_next_ok s n v : nnext s n = Some v -> get_next n s = Ok (v, s).
Proof.
  unfold nnext. destruct n; simpl; try discriminate;
    unfold bind, read_task, read_list, ret.
  - destruct (tasks s !! t); simpl; congruence.
  - destruct (lookup_list l s); simpl; congruence.
Qed.

Lemma get_prev_ok s n v : nprev s n = Some v -> get_prev n s = Ok (v, s).
Proof.
  unfold nprev. destruct n; simpl; try discriminate;
    unfold bind, read_task, read_list, ret.
  - destruct (tasks s !! t); simpl; congruence.
  - destruct (lookup_list l s); simpl; congruence.
Qed.

Lemma get_list_ok s a v :
  nlist s a = Some v -> get_list (TaskNode a) s = Ok (v, s).
Proof.
  unfold nlist, get_list, bind, read_task, ret.
  destruct (tasks s !! a); simpl; congruence.
Qed.

Lemma get_owner_ok s a v :
  nowner s a = Some v -> get_owner (TaskNode a) s = Ok (v, s).
Proof.
  unfold nowner, get_owner, bind, read_task, ret.
  destruct (tasks s !! a); simpl; congruence.
Qed.

Lemma set_next_ok s n v :
  is_Some (nnext s n) -> set_next n v s = Ok (tt, upd_next n v s).
Proof.
  intros [x H]. unfold nnext in H. destruct n; simpl in *; try discriminate;
    unfold bind, read_task, write_task, read_list, write_list.
  - destruct (tasks s !! t); simpl in *; [reflexivity|discriminate].
  - destruct (lookup_list l s) eqn:E; simpl in *; [|discriminate].
    rewrite E. reflexivity.
Qed.

Lemma set_prev_ok s n v :
  is_Some (nnext s n) -> set_prev n v s = Ok (tt, upd_prev n v s).
Proof.
  intros [x H]. unfold nnext in H. destruct n; simpl in *; try discriminate;
    unfold bind, read_task, write_task, read_list, write_list.
  - destruct (tasks s !! t); simpl in *; [reflexivity|discriminate].
  - destruct (lookup_list l s) eqn:E; simpl in *; [|discriminate].
    rewrite E. reflexivity.
Qed.

Lemma set_list_ok s a v :
  is_Some (nnext s (TaskNode a)) ->
  set_list (TaskNode a) v s = Ok (tt, upd_list a v s).
Proof.
  intros [x H]. unfold set_list, upd_list, bind, read_task, write_task.
  unfold nnext in H. destruct (tasks s !! a); simpl in *; [reflexivity|discriminate].
Qed.

Lemma set_length_ok s l n (f : Z -> Z) :
  llen s l = Some n ->
  bind (read_list l)
       (fun v => write_list l {| list_head := list_head v;
                                 list_tail := list_tail v;
                                 list_length := f (list_length v) |}) s
  = Ok (tt, upd_len l (f n) s).
Proof.
  unfold llen, upd_len, bind, read_list, write_list.
  destruct (lookup_list l s) eqn:E; simpl; [|discriminate].
  intros [= <-]. rewrite E. reflexivity.
Qed.

(** A node that can be read can be written, and stays so. *)
Ltac solve_views :=
  autorewrite with views;
  repeat case_decide; simplify_eq;
  rewrite ?fmap_is_Some; try (eauto; congruence).

Lemma list_insert_after_run s l pos pn t n :
  nnext s pos = Some pn ->
  is_Some (nnext s pn) ->
  is_Some (nnext s (TaskNode t)) ->
  llen s l = Some n ->
  pos <> TaskNode t -> pn <> TaskNode t ->
  list_insert_after l pos (TaskNode t) s
  = Ok (tt, upd_len l (to_length_t (n + 1))
              (upd_list t (Some l)
                 (upd_next pos (TaskNode t)
                    (upd_prev pn (TaskNode t)
                       (upd_prev (TaskNode t) pos
                          (upd_next (TaskNode t) pn s)))))).
Proof.
  intros Hpos Hpn Ht Hlen Hne1 Hne2.
  unfold list_insert_after.
  rewrite (bind_ok _ _ s pn s) by (apply get_next_ok; exact Hpos).
  erewrite bind_ok by (apply set_next_ok; exact Ht).
  erewrite bind_ok by (apply set_prev_ok; solve_views).
  erewrite bind_ok by (apply get_next_ok; solve_views).
  erewrite bind_ok by (apply set_prev_ok; solve_views).
  erewrite bind_ok by (apply set_next_ok; solve_views).
  erewrite bind_ok by (apply set_list_ok; solve_views).
  rewrite (set_length_ok _ l n (fun x => to_length_t (x + 1)))
    by solve_views.
  reflexivity.
Qed.

Lemma list_remove_run s l t nn np n :
  nlist s t = Some (Some l) ->
  nnext s (TaskNode t) = Some nn ->
  nprev s (TaskNode t) = Some np ->
  is_Some (nnext s nn) -> is_Some (nnext s np) ->
  llen s l = Some n ->
  nn <> TaskNode t -> np <> TaskNode t ->
  list_remove (TaskNode t) s
  = Ok (tt, upd_len l (to_length_t (n - 1))
              (upd_list t None
                 (upd_prev (TaskNode t) NullNode
                    (upd_next (TaskNode t) NullNode
                       (upd_next np nn
                          (upd_prev nn np s)))))).
Proof.
  intros Hl Hnn Hnp Hvn Hvp Hlen Hne1 Hne2.
  assert (Ht : is_Some (nnext s (TaskNode t))) by eauto.
  unfold list_remove.
  erewrite bind_ok by (apply get_list_ok; exact Hl).
  erewrite bind_ok by (apply get_next_ok; exact Hnn).
  erewrite bind_ok by (apply get_prev_ok; exact Hnp).
  erewrite bind_ok by (apply set_prev_ok; solve_views).
  erewrite bind_ok by (apply get_prev_ok; solve_views).
  erewrite bind_ok by (apply get_next_ok; solve_views).
  erewrite bind_ok by (apply set_next_ok; solve_views).
  erewrite bind_ok by (apply set_next_ok; solve_views).
  erewrite bind_ok by (apply set_prev_ok; solve_views).
  erewrite bind_ok by (apply set_list_ok; solve_views).
  unfold deref_list at 1. unfold bind at 1, ret at 1.
  rewrite (set_length_ok _ l n (fun x => to_length_t (x - 1)))
    by solve_views.
  reflexivity.
Qed.

(** *** The lists as sequences of tasks *)

Lemma fst_or_app xs ys d : fst_or (xs ++ ys) d = fst_or xs (fst_or ys d).
Proof. destruct xs; reflexivity. Qed.

Lemma lst_or_app xs ys d : lst_or (xs ++ ys) d = lst_or ys (lst_or xs d).
Proof. revert d. induction xs as [|x xs IH]; intros d; simpl; auto. Qed.

Lemma lst_or_cases xs d :
  (xs = [] /\ lst_or xs d = d) \/
  (exists x, x ∈ xs /\ lst_or xs d = TaskNode x).
Proof.
  revert d. induction xs as [|x xs IH]; intros d; [left; auto|right].
  simpl. destruct (IH (TaskNode x)) as [[-> E]|(y & Hy & E)].
  - exists x. split; [left|exact E].
  - exists y. split; [right; exact Hy|exact E].
Qed.

Lemma fst_or_cases ys d :
  (ys = [] /\ fst_or ys d = d) \/
  (exists y, y ∈ ys /\ fst_or ys d = TaskNode y).
Proof.
  destruct ys as [|y ys]; [left; auto|right].
  exists y. split; [left|reflexivity].
Qed.

Lemma seg_app s l p xs ys q :
  seg s l p (xs ++ ys) q <->
  seg s l p xs (fst_or ys q) /\ seg s l (lst_or xs p) ys q.
Proof.
  revert p. induction xs as [|x xs IH]; intros p; simpl.
  - tauto.
  - rewrite IH, fst_or_app. tauto.
Qed.

Lemma seg_member s l p ts q a :
  seg s l p ts q -> a ∈ ts ->
  nlist s a = Some (Some l) /\ nowner s a = Some (Some a) /\
  is_Some (nnext s (TaskNode a)).
Proof.
  revert p. induction ts as [|t ts IH]; intros p Hseg Ha.
  - inversion Ha.
  - destruct Hseg as (Hn & Hp & Hl & Ho & Hseg).
    apply elem_of_cons in Ha. destruct Ha as [->|Ha]; [eauto|].
    eapply IH; eauto.
Qed.

Lemma seg_last_next s l p xs q :
  seg s l p xs q -> xs <> [] -> nnext s (lst_or xs p) = Some q.
Proof.
  revert p. induction xs as [|x xs IH]; intros p Hseg Hne; [congruence|].
  destruct Hseg as (Hn & _ & _ & _ & Hseg). simpl.
  destruct xs as [|y xs]; [exact Hn|].
  apply IH; [exact Hseg|discriminate].
Qed.

Lemma seg_first_prev s l p ys q :
  seg s l p ys q -> ys <> [] -> nprev s (fst_or ys q) = Some p.
Proof.
  destruct ys as [|y ys]; [congruence|]. intros (_ & Hp & _) _. exact Hp.
Qed.

(** A segment only depends on the nodes of its tasks. *)
Lemma seg_same s s' l p ts q :
  (forall a, a ∈ ts ->
     nnext s' (TaskNode a) = nnext s (TaskNode a) /\
     nprev s' (TaskNode a) = nprev s (TaskNode a) /\
     nlist s' a = nlist s a /\ nowner s' a = nowner s a) ->
  seg s l p ts q -> seg s' l p ts q.
Proof.
  revert p. induction ts as [|t ts IH]; intros p Hsame; simpl; [auto|].
  intros (Hn & Hp & Hl & Ho & Hseg).
  destruct (Hsame t) as (En & Ep & El & Eo); [left|].
  rewrite En, Ep, El, Eo. repeat split; try assumption.
  apply IH; [|exact Hseg]. intros a Ha. apply Hsame. right. exact Ha.
Qed.

(** Changing the [next] of the last node retargets the segment. *)
Lemma seg_set_succ s s' l p xs q q' :
  seg s l p xs q -> NoDup xs ->
  (forall a, a ∈ xs ->
     nprev s' (TaskNode a) = nprev s (TaskNode a) /\
     nlist s' a = nlist s a /\ nowner s' a = nowner s a) ->
  (forall a, a ∈ xs ->
     nnext s' (TaskNode a)
     = if decide (TaskNode a = lst_or xs p) then Some q'
       else nnext s (TaskNode a)) ->
  seg s' l p xs q'.
Proof.
  revert p. induction xs as [|x xs IH]; intros p Hseg Hnd Hsame Hnext;
    simpl; [auto|].
  destruct Hseg as (Hn & Hp & Hl & Ho & Hseg).
  apply NoDup_cons in Hnd. destruct Hnd as [Hx Hnd].
  destruct (Hsame x) as (Ep & El & Eo); [left|].
  rewrite Ep, El, Eo. repeat split; try assumption.
  - rewrite Hnext by left. simpl.
    destruct (lst_or_cases xs (TaskNode x)) as [[-> E]|(y & Hy & E)].
    + rewrite decide_True by reflexivity. reflexivity.
    + rewrite E. rewrite decide_False by (intros [= ->]; contradiction).
      rewrite Hn. destruct xs; [inversion Hy|reflexivity].
  - apply IH; try assumption.
    + intros a Ha. apply Hsame. right. exact Ha.
    + intros a Ha. apply (Hnext a). right. exact Ha.
Qed.

(** Changing the [prev] of the first node moves the start of the
    segment. *)
Lemma seg_set_pred s s' l p p' ys q :
  seg s l p ys q -> NoDup ys ->
  (forall a, a ∈ ys ->
     nnext s' (TaskNode a) = nnext s (TaskNode a) /\
     nlist s' a = nlist s a /\ nowner s' a = nowner s a) ->
  (forall a, a ∈ ys ->
     nprev s' (TaskNode a)
     = if decide (TaskNode a = fst_or ys q) then Some p'
       else nprev s (TaskNode a)) ->
  seg s' l p' ys q.
Proof.
  destruct ys as [|y ys]; [simpl; auto|].
  intros (Hn & Hp & Hl & Ho & Hseg) Hnd Hsame Hprev.
  apply NoDup_cons in Hnd. destruct Hnd as [Hy Hnd].
  destruct (Hsame y) as (En & El & Eo); [left|].
  simpl. rewrite En, El, Eo. repeat split; try assumption.
  - rewrite Hprev by left. simpl. rewrite decide_True by reflexivity.
    reflexivity.
  - eapply seg_same; [|exact Hseg].
    intros a Ha. destruct (Hsame a) as (En' & El' & Eo'); [right; exact Ha|].
    repeat split; try assumption.
    rewrite Hprev by (right; exact Ha). simpl.
    rewrite decide_False by (intros [= ->]; contradiction). reflexivity.
Qed.

Lemma dll_link s l xs ys :
  dll s l (xs ++ ys) ->
  nnext s (lst_or xs (ListNode l)) = Some (fst_or ys (ListNode l)) /\
  nprev s (fst_or ys (ListNode l)) = Some (lst_or xs (ListNode l)).
Proof.
  intros (Hh & Ht & _ & Hseg & _). apply seg_app in Hseg.
  destruct Hseg as [Hx Hy]. split.
  - destruct xs as [|x xs]; [exact Hh|].
    apply (seg_last_next s l _ (x :: xs)); [exact Hx|discriminate].
  - destruct ys as [|y ys].
    + rewrite app_nil_r in Ht. exact Ht.
    + apply (seg_first_prev s l _ (y :: ys) (ListNode l)); [exact Hy|].
      discriminate.
Qed.

Lemma dll_member s l ts a :
  dll s l ts -> a ∈ ts ->
  nlist s a = Some (Some l) /\ nowner s a = Some (Some a) /\
  is_Some (nnext s (TaskNode a)).
Proof. intros (_ & _ & _ & Hseg & _). eapply seg_member. exact Hseg. Qed.

Lemma dll_same s s' l ts :
  nnext s' (ListNode l) = nnext s (ListNode l) ->
  nprev s' (ListNode l) = nprev s (ListNode l) ->
  llen s' l = llen s l ->
  (forall a, a ∈ ts ->
     nnext s' (TaskNode a) = nnext s (TaskNode a) /\
     nprev s' (TaskNode a) = nprev s (TaskNode a) /\
     nlist s' a = nlist s a /\ nowner s' a = nowner s a) ->
  dll s l ts -> dll s' l ts.
Proof.
  intros En Ep El Hsame (Hh & Ht & Hl & Hseg & Hnd).
  unfold dll. rewrite En, Ep, El. repeat split; try assumption.
  eapply seg_same; eauto.
Qed.

(** *** Inserting and removing keeps the lists well linked *)

Lemma nprev_is_Some s n : is_Some (nnext s n) -> is_Some (nprev s n).
Proof.
  unfold nnext, nprev. destruct n; try (intros [? ?]; discriminate);
    rewrite !fmap_is_Some; auto.
Qed.

Lemma nlist_is_Some s a : is_Some (nnext s (TaskNode a)) -> is_Some (nlist s a).
Proof. unfold nnext, nlist. rewrite !fmap_is_Some. auto. Qed.

Lemma nlist_valid s a v : nlist s a = Some v -> is_Some (nnext s (TaskNode a)).
Proof.
  unfold nnext, nlist. rewrite fmap_is_Some.
  destruct (tasks s !! a); [eauto|discriminate].
Qed.

Ltac views_by_cases :=
  autorewrite with views;
  repeat case_decide; simplify_eq;
  repeat match goal with
         | H : is_Some _ |- _ => destruct H as [? H]
         end;
  repeat match goal with
         | H : ?x = Some _ |- context [?x] => rewrite H
         end;
  simpl; try congruence; try reflexivity.

Lemma inserted_views s l pos pn t n :
  is_Some (nnext s pos) -> is_Some (nnext s pn) ->
  is_Some (nnext s (TaskNode t)) -> llen s l = Some n ->
  pos <> TaskNode t -> pn <> TaskNode t ->
  let s' := inserted l pos pn t n s in
  (forall x, nnext s' x
             = if decide (x = TaskNode t) then Some pn
               else if decide (x = pos) then Some (TaskNode t)
               else nnext s x) /\
  (forall x, nprev s' x
             = if decide (x = TaskNode t) then Some pos
               else if decide (x = pn) then Some (TaskNode t)
               else nprev s x) /\
  (forall a, nlist s' a
             = if decide (a = t) then Some (Some l) else nlist s a) /\
  (forall a, nowner s' a = nowner s a) /\
  (forall a, statics s' a = statics s a) /\
  (forall l', llen s' l'
              = if decide (l' = l) then Some (to_length_t (n + 1))
                else llen s l') /\
  tick (librertos s') = tick (librertos s) /\
  current_task (librertos s') = current_task (librertos s).
Proof.
  intros Hpos Hpn Ht Hlen Hne1 Hne2 s'. subst s'. unfold inserted.
  pose proof (nprev_is_Some _ _ Hpos) as Hpos'.
  pose proof (nprev_is_Some _ _ Hpn) as Hpn'.
  pose proof (nprev_is_Some _ _ Ht) as Ht'.
  pose proof (nlist_is_Some _ _ Ht) as Ht''.
  repeat split; intros; views_by_cases.
Qed.

Lemma removed_views s l np nn t n :
  is_Some (nnext s np) -> is_Some (nnext s nn) ->
  is_Some (nnext s (TaskNode t)) -> llen s l = Some n ->
  np <> TaskNode t -> nn <> TaskNode t ->
  let s' := removed l np nn t n s in
  (forall x, nnext s' x
             = if decide (x = TaskNode t) then Some NullNode
               else if decide (x = np) then Some nn
               else nnext s x) /\
  (forall x, nprev s' x
             = if decide (x = TaskNode t) then Some NullNode
               else if decide (x = nn) then Some np
               else nprev s x) /\
  (forall a, nlist s' a = if decide (a = t) then Some None else nlist s a) /\
  (forall a, nowner s' a = nowner s a) /\
  (forall a, statics s' a = statics s a) /\
  (forall l', llen s' l'
              = if decide (l' = l) then Some (to_length_t (n - 1))
                else llen s l') /\
  tick (librertos s') = tick (librertos s) /\
  current_task (librertos s') = current_task (librertos s).
Proof.
  intros Hnp Hnn Ht Hlen Hne1 Hne2 s'. subst s'. unfold removed.
  pose proof (nprev_is_Some _ _ Hnp) as Hnp'.
  pose proof (nprev_is_Some _ _ Hnn) as Hnn'.
  pose proof (nprev_is_Some _ _ Ht) as Ht'.
  pose proof (nlist_is_Some _ _ Ht) as Ht''.
  repeat split; intros; views_by_cases.
Qed.

Lemma lst_or_neq xs d n :
  n <> d -> (forall x, x ∈ xs -> n <> TaskNode x) -> n <> lst_or xs d.
Proof.
  intros Hd Hx. destruct (lst_or_cases xs d) as [[_ ->]|(x & Hin & ->)]; auto.
Qed.

Lemma fst_or_neq ys d n :
  n <> d -> (forall y, y ∈ ys -> n <> TaskNode y) -> n <> fst_or ys d.
Proof.
  intros Hd Hy. destruct (fst_or_cases ys d) as [[_ ->]|(y & Hin & ->)]; auto.
Qed.

Lemma to_length_t_succ n : to_length_t (to_length_t n + 1) = to_length_t (n + 1).
Proof. unfold to_length_t. apply Zplus_mod_idemp_l. Qed.

Lemma to_length_t_pred n : to_length_t (to_length_t n - 1) = to_length_t (n - 1).
Proof. unfold to_length_t. apply Zminus_mod_idemp_l. Qed.

Lemma list_insert_after_dll s l xs ys t :
  dll s l (xs ++ ys) ->
  nlist s t = Some None -> nowner s t = Some (Some t) ->
  exists s',
    list_insert_after l (lst_or xs (ListNode l)) (TaskNode t) s = Ok (tt, s') /\
    dll s' l (xs ++ t :: ys) /\
    effects s s' l t (Some l).
Proof.
  intros Hdll Hdet Hown.
  pose proof Hdll as (Hh & Htl & Hlen & Hseg & Hnd).
  destruct (dll_link s l xs ys Hdll) as [Hlink1 Hlink2].
  set (pos := lst_or xs (ListNode l)) in *.
  set (pn := fst_or ys (ListNode l)) in *.
  assert (Hnotin : forall a, a ∈ xs ++ ys -> a <> t).
  { intros a Ha ->. destruct (dll_member s l _ t Hdll Ha) as (E & _). congruence. }
  assert (Hnx : forall a, a ∈ xs -> a <> t).
  { intros a Ha. apply Hnotin, elem_of_app. left. exact Ha. }
  assert (Hny : forall a, a ∈ ys -> a <> t).
  { intros a Ha. apply Hnotin, elem_of_app. right. exact Ha. }
  apply NoDup_app in Hnd. destruct Hnd as (Hndx & Hxy & Hndy).
  assert (Hpos : pos <> TaskNode t).
  { apply not_eq_sym, lst_or_neq; [discriminate|].
    intros x Hx [= ->]. exact (Hnx _ Hx eq_refl). }
  assert (Hpn : pn <> TaskNode t).
  { apply not_eq_sym, fst_or_neq; [discriminate|].
    intros y Hy [= ->]. exact (Hny _ Hy eq_refl). }
  assert (Hvt : is_Some (nnext s (TaskNode t))) by (eapply nlist_valid; eauto).
  assert (Hvpos : is_Some (nnext s pos)) by eauto.
  assert (Hvpn : is_Some (nnext s pn)).
  { subst pn. destruct (fst_or_cases ys (ListNode l)) as [[_ ->]|(y & Hy & ->)].
    - eauto.
    - apply (dll_member s l _ y Hdll). apply elem_of_app. right. exact Hy. }
  exists (inserted l pos pn t (to_length_t (Z.of_nat (length (xs ++ ys)))) s).
  split; [apply list_insert_after_run; assumption|].
  destruct (inserted_views s l pos pn t _ Hvpos Hvpn Hvt Hlen Hpos Hpn)
    as (Vn & Vp & Vl & Vo & Vs & Vlen & Vt & Vc).
  apply seg_app in Hseg. destruct Hseg as [Hsx Hsy]. fold pos pn in Hsx, Hsy.
  split; [|split; [|split; [|split; [|split; [|split; [|split]]]]]].
  - (* the list itself *)
    unfold dll. split; [|split; [|split; [|split]]].
    + rewrite Vn, decide_False by discriminate.
      destruct xs as [|x xs].
      * rewrite decide_True by reflexivity. reflexivity.
      * rewrite decide_False.
        -- rewrite Hh. reflexivity.
        -- subst pos. simpl. apply lst_or_neq; [discriminate|].
           intros; discriminate.
    + rewrite Vp, decide_False by discriminate.
      rewrite lst_or_app. simpl. fold pos.
      destruct ys as [|y ys].
      * rewrite decide_True by reflexivity. reflexivity.
      * rewrite decide_False by (subst pn; discriminate).
        rewrite Htl, lst_or_app. reflexivity.
    + rewrite Vlen, decide_True by reflexivity. rewrite to_length_t_succ.
      f_equal. f_equal. rewrite !length_app. simpl. lia.
    + apply seg_app. simpl. fold pos. split.
      * eapply seg_set_succ; [exact Hsx|exact Hndx| |].
        -- intros a Ha. rewrite Vp, Vl, Vo.
           assert (E1 : TaskNode a <> TaskNode t)
             by (intros [= ->]; exact (Hnx _ Ha eq_refl)).
           assert (E2 : TaskNode a <> pn).
           { subst pn. apply fst_or_neq; [discriminate|].
             intros y Hy [= ->]. exact (Hxy _ Ha Hy). }
           assert (E3 : a <> t) by (apply Hnx; exact Ha).
           rewrite !decide_False by assumption. auto.
        -- intros a Ha. rewrite Vn.
           rewrite decide_False by (intros [= ->]; exact (Hnx _ Ha eq_refl)).
           reflexivity.
      * rewrite Vn, Vp, Vl, Vo. rewrite !decide_True by reflexivity.
        repeat split; try assumption.
        eapply seg_set_pred; [exact Hsy|exact Hndy| |].
        -- intros a Ha. rewrite Vn, Vl, Vo.
           assert (E1 : TaskNode a <> TaskNode t)
             by (intros [= ->]; exact (Hny _ Ha eq_refl)).
           assert (E2 : TaskNode a <> pos).
           { subst pos. apply lst_or_neq; [discriminate|].
             intros x Hx [= ->]. exact (Hxy _ Hx Ha). }
           assert (E3 : a <> t) by (apply Hny; exact Ha).
           rewrite !decide_False by assumption. auto.
        -- intros a Ha. rewrite Vp.
           rewrite decide_False by (intros [= ->]; exact (Hny _ Ha eq_refl)).
           reflexivity.
    + apply NoDup_app. split; [exact Hndx|]. split.
      * intros a Ha Hin. apply elem_of_cons in Hin. destruct Hin as [->|Hin].
        -- exact (Hnx _ Ha eq_refl).
        -- exact (Hxy _ Ha Hin).
      * apply NoDup_cons. split; [|exact Hndy].
        intros Hin. exact (Hny _ Hin eq_refl).
  - (* the other lists *)
    intros l' ts' Hl' Hdll'.
    assert (Hmem : forall a, a ∈ ts' -> a <> t /\ a ∉ xs ++ ys).
    { intros a Ha. destruct (dll_member s l' _ a Hdll' Ha) as (E & _).
      split; [intros ->; congruence|].
      intros Hin. destruct (dll_member s l _ a Hdll Hin) as (E' & _).
      congruence. }
    assert (Hposn : forall n, n <> ListNode l ->
                      (forall a, a ∈ xs ++ ys -> n <> TaskNode a) ->
                      n <> pos /\ n <> pn).
    { intros n Hn1 Hn2. split.
      - subst pos. apply lst_or_neq; [exact Hn1|].
        intros x Hx. apply Hn2, elem_of_app. left. exact Hx.
      - subst pn. apply fst_or_neq; [exact Hn1|].
        intros y Hy. apply Hn2, elem_of_app. right. exact Hy. }
    eapply dll_same; [| | | |exact Hdll'].
    + destruct (Hposn (ListNode l')) as [E1 E2]; [congruence|discriminate|].
      rewrite Vn, decide_False by discriminate.
      rewrite decide_False by assumption. reflexivity.
    + destruct (Hposn (ListNode l')) as [E1 E2]; [congruence|discriminate|].
      rewrite Vp, decide_False by discriminate.
      rewrite decide_False by assumption. reflexivity.
    + rewrite Vlen, decide_False by exact Hl'. reflexivity.
    + intros a Ha. destruct (Hmem a Ha) as [Hat Hain].
      destruct (Hposn (TaskNode a)) as [E1 E2]; [discriminate| |].
      { intros b Hb [= ->]. exact (Hain Hb). }
      assert (E3 : TaskNode a <> TaskNode t) by congruence.
      rewrite Vn, Vp, Vl, Vo. rewrite !decide_False by assumption. auto.
  - intros a Ha. rewrite Vl, decide_False by exact Ha. reflexivity.
  - rewrite Vl, decide_True by reflexivity. reflexivity.
  - exact Vo.
  - exact Vs.
  - exact Vt.
  - exact Vc.
Qed.

Lemma list_remove_dll s l xs ys t :
  dll s l (xs ++ t :: ys) ->
  exists s',
    list_remove (TaskNode t) s = Ok (tt, s') /\
    dll s' l (xs ++ ys) /\
    effects s s' l t None.
Proof.
  intros Hdll.
  pose proof Hdll as (Hh & Htl & Hlen & Hseg & Hnd).
  set (np := lst_or xs (ListNode l)) in *.
  set (nn := fst_or ys (ListNode l)) in *.
  apply seg_app in Hseg. destruct Hseg as [Hsx Hsy]. fold np in Hsy.
  simpl in Hsx. destruct Hsy as (Htn & Htp & Htlist & Htown & Hsy).
  fold nn in Htn.
  apply NoDup_app in Hnd. destruct Hnd as (Hndx & Hxy & Hndy).
  apply NoDup_cons in Hndy. destruct Hndy as [Hty Hndy].
  assert (Hnx : forall a, a ∈ xs -> a <> t).
  { intros a Ha ->. apply (Hxy _ Ha). left. }
  assert (Hny : forall a, a ∈ ys -> a <> t).
  { intros a Ha ->. exact (Hty Ha). }
  assert (Hxy' : forall a, a ∈ xs -> a ∉ ys).
  { intros a Ha Hin. apply (Hxy _ Ha). right. exact Hin. }
  assert (Hnp : np <> TaskNode t).
  { apply not_eq_sym, lst_or_neq; [discriminate|].
    intros x Hx [= ->]. exact (Hnx _ Hx eq_refl). }
  assert (Hnn : nn <> TaskNode t).
  { apply not_eq_sym, fst_or_neq; [discriminate|].
    intros y Hy [= ->]. exact (Hny _ Hy eq_refl). }
  assert (Hvt : is_Some (nnext s (TaskNode t))) by eauto.
  assert (Hvnp : is_Some (nnext s np)).
  { subst np. destruct (lst_or_cases xs (ListNode l)) as [[_ ->]|(x & Hx & ->)].
    - eauto.
    - apply (dll_member s l _ x Hdll). apply elem_of_app. left. exact Hx. }
  assert (Hvnn : is_Some (nnext s nn)).
  { subst nn. destruct (fst_or_cases ys (ListNode l)) as [[_ ->]|(y & Hy & ->)].
    - eauto.
    - apply (dll_member s l _ y Hdll). apply elem_of_app. right. right.
      exact Hy. }
  exists (removed l np nn t (to_length_t (Z.of_nat (length (xs ++ t :: ys)))) s).
  split; [eapply list_remove_run; eassumption|].
  destruct (removed_views s l np nn t _ Hvnp Hvnn Hvt Hlen Hnp Hnn)
    as (Vn & Vp & Vl & Vo & Vs & Vlen & Vt & Vc).
  split; [|split; [|split; [|split; [|split; [|split; [|split]]]]]].
  - (* the list itself *)
    unfold dll. split; [|split; [|split; [|split]]].
    + rewrite Vn, decide_False by discriminate.
      destruct xs as [|x xs].
      * rewrite decide_True by reflexivity. reflexivity.
      * rewrite decide_False.
        -- rewrite Hh. reflexivity.
        -- subst np. simpl. apply lst_or_neq; [discriminate|].
           intros; discriminate.
    + rewrite Vp, decide_False by discriminate.
      rewrite lst_or_app. fold np.
      destruct ys as [|y ys].
      * rewrite decide_True by reflexivity. reflexivity.
      * rewrite decide_False by (subst nn; discriminate).
        rewrite Htl, lst_or_app. reflexivity.
    + rewrite Vlen, decide_True by reflexivity. rewrite to_length_t_pred.
      f_equal. f_equal. rewrite !length_app. simpl. lia.
    + apply seg_app. fold np nn. split.
      * eapply seg_set_succ; [exact Hsx|exact Hndx| |].
        -- intros a Ha. rewrite Vp, Vl, Vo.
           assert (E1 : TaskNode a <> TaskNode t)
             by (intros [= ->]; exact (Hnx _ Ha eq_refl)).
           assert (E2 : TaskNode a <> nn).
           { subst nn. apply fst_or_neq; [discriminate|].
             intros y Hy [= ->]. exact (Hxy' _ Ha Hy). }
           assert (E3 : a <> t) by (apply Hnx; exact Ha).
           rewrite !decide_False by assumption. auto.
        -- intros a Ha. rewrite Vn.
           rewrite decide_False by (intros [= ->]; exact (Hnx _ Ha eq_refl)).
           reflexivity.
      * eapply seg_set_pred; [exact Hsy|exact Hndy| |].
        -- intros a Ha. rewrite Vn, Vl, Vo.
           assert (E1 : TaskNode a <> TaskNode t)
             by (intros [= ->]; exact (Hny _ Ha eq_refl)).
           assert (E2 : TaskNode a <> np).
           { subst np. apply lst_or_neq; [discriminate|].
             intros x Hx [= ->]. exact (Hxy' _ Hx Ha). }
           assert (E3 : a <> t) by (apply Hny; exact Ha).
           rewrite !decide_False by assumption. auto.
        -- intros a Ha. rewrite Vp.
           rewrite decide_False by (intros [= ->]; exact (Hny _ Ha eq_refl)).
           reflexivity.
    + apply NoDup_app. split; [exact Hndx|]. split; [exact Hxy'|exact Hndy].
  - (* the other lists *)
    intros l' ts' Hl' Hdll'.
    assert (Hmem : forall a, a ∈ ts' -> a <> t /\ a ∉ xs ++ ys).
    { intros a Ha. destruct (dll_member s l' _ a Hdll' Ha) as (E & _).
      split; [intros ->; congruence|].
      intros Hin.
      assert (Hin' : a ∈ xs ++ t :: ys).
      { apply elem_of_app in Hin. apply elem_of_app.
        destruct Hin; [left|right; right]; assumption. }
      destruct (dll_member s l _ a Hdll Hin') as (E' & _). congruence. }
    assert (Hposn : forall n, n <> ListNode l ->
                      (forall a, a ∈ xs ++ ys -> n <> TaskNode a) ->
                      n <> np /\ n <> nn).
    { intros n Hn1 Hn2. split.
      - subst np. apply lst_or_neq; [exact Hn1|].
        intros x Hx. apply Hn2, elem_of_app. left. exact Hx.
      - subst nn. apply fst_or_neq; [exact Hn1|].
        intros y Hy. apply Hn2, elem_of_app. right. exact Hy. }
    eapply dll_same; [| | | |exact Hdll'].
    + destruct (Hposn (ListNode l')) as [E1 E2]; [congruence|discriminate|].
      rewrite Vn, decide_False by discriminate.
      rewrite decide_False by assumption. reflexivity.
    + destruct (Hposn (ListNode l')) as [E1 E2]; [congruence|discriminate|].
      rewrite Vp, decide_False by discriminate.
      rewrite decide_False by assumption. reflexivity.
    + rewrite Vlen, decide_False by exact Hl'. reflexivity.
    + intros a Ha. destruct (Hmem a Ha) as [Hat Hain].
      destruct (Hposn (TaskNode a)) as [E1 E2]; [discriminate| |].
      { intros b Hb [= ->]. exact (Hain Hb). }
      assert (E3 : TaskNode a <> TaskNode t) by congruence.
      rewrite Vn, Vp, Vl, Vo. rewrite !decide_False by assumption. auto.
  - intros a Ha. rewrite Vl, decide_False by exact Ha. reflexivity.
  - rewrite Vl, decide_True by reflexivity. reflexivity.
  - exact Vo.
  - exact Vs.
  - exact Vt.
  - exact Vc.
Qed.

(** *** Views of the other writes *)

Lemma nnext_store_task a tk s n :
  nnext (store_task a tk s) n
  = if decide (n = TaskNode a) then Some (node_next (sched_node tk))
    else nnext s n.
Proof. destruct n; view_crush. Qed.

Lemma nprev_store_task a tk s n :
  nprev (store_task a tk s) n
  = if decide (n = TaskNode a) then Some (node_prev (sched_node tk))
    else nprev s n.
Proof. destruct n; view_crush. Qed.

Lemma nlist_store_task a tk s a' :
  nlist (store_task a tk s) a'
  = if decide (a' = a) then Some (node_list (sched_node tk)) else nlist s a'.
Proof. view_crush. Qed.

Lemma nowner_store_task a tk s a' :
  nowner (store_task a tk s) a'
  = if decide (a' = a) then Some (node_owner (sched_node tk))
    else nowner s a'.
Proof. view_crush. Qed.

Lemma statics_store_task a tk s a' :
  statics (store_task a tk s) a'
  = if decide (a' = a) then Some (func tk, param tk, priority tk)
    else statics s a'.
Proof. view_crush. Qed.

Lemma llen_store_task a tk s l : llen (store_task a tk s) l = llen s l.
Proof. view_crush. Qed.

Lemma nnext_upd_current c s n : nnext (upd_current c s) n = nnext s n.
Proof. destruct n as [| | |[]]; reflexivity. Qed.
Lemma nprev_upd_current c s n : nprev (upd_current c s) n = nprev s n.
Proof. destruct n as [| | |[]]; reflexivity. Qed.
Lemma nlist_upd_current c s a : nlist (upd_current c s) a = nlist s a.
Proof. reflexivity. Qed.
Lemma nowner_upd_current c s a : nowner (upd_current c s) a = nowner s a.
Proof. reflexivity. Qed.
Lemma statics_upd_current c s a : statics (upd_current c s) a = statics s a.
Proof. reflexivity. Qed.
Lemma llen_upd_current c s l : llen (upd_current c s) l = llen s l.
Proof. destruct l; reflexivity. Qed.

Lemma nnext_upd_tick v s n : nnext (upd_tick v s) n = nnext s n.
Proof. destruct n as [| | |[]]; reflexivity. Qed.
Lemma nprev_upd_tick v s n : nprev (upd_tick v s) n = nprev s n.
Proof. destruct n as [| | |[]]; reflexivity. Qed.
Lemma nlist_upd_tick v s a : nlist (upd_tick v s) a = nlist s a.
Proof. reflexivity. Qed.
Lemma nowner_upd_tick v s a : nowner (upd_tick v s) a = nowner s a.
Proof. reflexivity. Qed.
Lemma statics_upd_tick v s a : statics (upd_tick v s) a = statics s a.
Proof. reflexivity. Qed.
Lemma llen_upd_tick v s l : llen (upd_tick v s) l = llen s l.
Proof. destruct l; reflexivity. Qed.

#[local] Hint Rewrite
  nnext_store_task nprev_store_task nlist_store_task nowner_store_task
  statics_store_task llen_store_task
  nnext_upd_current nprev_upd_current nlist_upd_current nowner_upd_current
  statics_upd_current llen_upd_current
  nnext_upd_tick nprev_upd_tick nlist_upd_tick nowner_upd_tick
  statics_upd_tick llen_upd_tick
  : views.

Lemma dll_upd_current c s l ts : dll s l ts -> dll (upd_current c s) l ts.
Proof.
  apply dll_same; autorewrite with views; try reflexivity.
  intros a _. autorewrite with views. auto.
Qed.

Lemma dll_upd_tick v s l ts : dll s l ts -> dll (upd_tick v s) l ts.
Proof.
  apply dll_same; autorewrite with views; try reflexivity.
  intros a _. autorewrite with views. auto.
Qed.

Lemma statics_is_Some s a : is_Some (statics s a) <-> is_Some (tasks s !! a).
Proof. unfold statics. apply fmap_is_Some. Qed.

Lemma nlist_statics s a : is_Some (nlist s a) <-> is_Some (statics s a).
Proof. unfold nlist, statics. rewrite !fmap_is_Some. tauto. Qed.

(** *** The invariant of the kernel state *)

Lemma Inv_remove_at A s a l xs ys :
  Inv A s -> valid_list l -> A l = xs ++ a :: ys ->
  exists s',
    list_remove (TaskNode a) s = Ok (tt, s') /\
    PInv (upd A l (xs ++ ys)) a s' /\ same_static s s'.
Proof.
  intros [Hdll Hmem Hprio Hcur] Hl HA.
  pose proof (Hdll l Hl) as Hd. rewrite HA in Hd.
  destruct (list_remove_dll s l xs ys a Hd)
    as (s' & Hrun & Hd' & Hfr & Hnlo & Hnla & Hown & Hst & Htick & Hc).
  exists s'.
  split; [exact Hrun|]. split; [|repeat split; assumption].
  constructor.
  - intros l' Hl'. unfold upd. destruct (decide (l' = l)) as [->|Hne].
    + exact Hd'.
    + apply Hfr; [exact Hne|]. apply Hdll. exact Hl'.
  - intros a' Ha' Hne. rewrite Hst in Ha'.
    destruct (Hmem a' Ha') as (l0 & Hl0 & Hnl0 & Hin0).
    exists l0. split; [exact Hl0|]. split.
    + rewrite Hnlo by exact Hne. exact Hnl0.
    + unfold upd. destruct (decide (l0 = l)) as [->|_]; [|exact Hin0].
      rewrite HA in Hin0. apply elem_of_app in Hin0. apply elem_of_app.
      destruct Hin0 as [?|Hin0]; [left; assumption|right].
      apply elem_of_cons in Hin0. destruct Hin0; [contradiction|assumption].
  - exact Hnla.
  - rewrite Hown. apply (dll_member s l _ a Hd).
    apply elem_of_app. right. left.
  - intros a' f p pr Hs. rewrite Hst in Hs.
    destruct (Hprio a' f p pr Hs) as [Hr Hi]. split; [exact Hr|].
    intros i Hn. destruct (decide (a' = a)) as [->|Hne].
    + rewrite Hnla in Hn. discriminate.
    + rewrite Hnlo in Hn by exact Hne. apply Hi. exact Hn.
  - intros c Hc'. rewrite Hst. apply Hcur. rewrite <- Hc. exact Hc'.
Qed.

Lemma Inv_remove A s a :
  Inv A s -> is_Some (statics s a) ->
  exists l xs ys s',
    valid_list l /\ A l = xs ++ a :: ys /\ nlist s a = Some (Some l) /\
    list_remove (TaskNode a) s = Ok (tt, s') /\
    PInv (upd A l (xs ++ ys)) a s' /\ same_static s s'.
Proof.
  intros HI Ha.
  destruct (I_member _ _ HI a Ha) as (l & Hl & Hnl & Hin).
  apply list_elem_of_split in Hin. destruct Hin as (xs & ys & HA).
  destruct (Inv_remove_at A s a l xs ys HI Hl HA) as (s' & Hrun & HP & Hst).
  exists l, xs, ys, s'.
  split; [exact Hl|]. split; [exact HA|]. split; [exact Hnl|].
  split; [exact Hrun|]. split; [exact HP|exact Hst].
Qed.

Lemma PInv_insert A t s l xs ys :
  PInv A t s -> valid_list l -> A l = xs ++ ys ->
  (forall i f p pr, l = Ready i -> statics s t = Some (f, p, pr) -> pr = i) ->
  exists s',
    list_insert_after l (lst_or xs (ListNode l)) (TaskNode t) s = Ok (tt, s') /\
    Inv (upd A l (xs ++ t :: ys)) s' /\ same_static s s'.
Proof.
  intros [Hdll Hmem Hdet Hown Hprio Hcur] Hl HA Hpr.
  pose proof (Hdll l Hl) as Hd. rewrite HA in Hd.
  destruct (list_insert_after_dll s l xs ys t Hd Hdet Hown)
    as (s' & Hrun & Hd' & Hfr & Hnlo & Hnla & Hown' & Hst & Htick & Hc).
  exists s'. split; [exact Hrun|]. split; [|repeat split; assumption].
  constructor.
  - intros l' Hl'. unfold upd. destruct (decide (l' = l)) as [->|Hne].
    + exact Hd'.
    + apply Hfr; [exact Hne|]. apply Hdll. exact Hl'.
  - intros a Ha. rewrite Hst in Ha.
    destruct (decide (a = t)) as [->|Hne].
    + exists l. split; [exact Hl|]. split; [exact Hnla|].
      unfold upd. rewrite decide_True by reflexivity.
      apply elem_of_app. right. left.
    + destruct (Hmem a Ha Hne) as (l0 & Hl0 & Hnl0 & Hin0).
      exists l0. split; [exact Hl0|]. split.
      * rewrite Hnlo by exact Hne. exact Hnl0.
      * unfold upd. destruct (decide (l0 = l)) as [->|_]; [|exact Hin0].
        rewrite HA in Hin0. apply elem_of_app in Hin0. apply elem_of_app.
        destruct Hin0; [left|right; right]; assumption.
  - intros a f p pr Hs. rewrite Hst in Hs.
    destruct (Hprio a f p pr Hs) as [Hr Hi]. split; [exact Hr|].
    intros i Hn. destruct (decide (a = t)) as [->|Hne].
    + rewrite Hnla in Hn. injection Hn as ->. eapply Hpr; eauto.
    + rewrite Hnlo in Hn by exact Hne. apply Hi. exact Hn.
  - intros c Hc'. rewrite Hst. apply Hcur. rewrite <- Hc. exact Hc'.
Qed.

Lemma same_static_refl s : same_static s s.
Proof. repeat split. Qed.

Lemma same_static_trans s1 s2 s3 :
  same_static s1 s2 -> same_static s2 s3 -> same_static s1 s3.
Proof.
  intros (H1 & H2 & H3) (H1' & H2' & H3').
  split; [|split; congruence].
  intros a. rewrite H1'. apply H1.
Qed.

Lemma dll_tail s l ts :
  dll s l ts ->
  exists v, lookup_list l s = Some v /\ list_tail v = lst_or ts (ListNode l).
Proof.
  intros (_ & Ht & _). unfold nprev in Ht.
  destruct (lookup_list l s) as [v|]; [|discriminate].
  exists v. split; [reflexivity|]. simpl in Ht. congruence.
Qed.

Lemma PInv_insert_last A t s l :
  PInv A t s -> valid_list l ->
  (forall i f p pr, l = Ready i -> statics s t = Some (f, p, pr) -> pr = i) ->
  exists s',
    list_insert_last l (TaskNode t) s = Ok (tt, s') /\
    Inv (upd A l (A l ++ [t])) s' /\ same_static s s'.
Proof.
  intros HP Hl Hpr.
  destruct (dll_tail s l (A l) (P_dll _ _ _ HP l Hl)) as (v & Hv & Htl).
  destruct (PInv_insert A t s l (A l) [] HP Hl) as (s' & Hrun & HI & Hst).
  { rewrite app_nil_r. reflexivity. }
  { exact Hpr. }
  exists s'. split; [|split; assumption].
  unfold list_insert_last.
  rewrite (bind_ok _ _ s v s) by (unfold read_list; rewrite Hv; reflexivity).
  rewrite Htl. exact Hrun.
Qed.

Lemma PInv_insert_first A t s l :
  PInv A t s -> valid_list l ->
  (forall i f p pr, l = Ready i -> statics s t = Some (f, p, pr) -> pr = i) ->
  exists s',
    list_insert_first l (TaskNode t) s = Ok (tt, s') /\
    Inv (upd A l (t :: A l)) s' /\ same_static s s'.
Proof.
  intros HP Hl Hpr.
  destruct (PInv_insert A t s l [] (A l) HP Hl eq_refl Hpr)
    as (s' & Hrun & HI & Hst).
  exists s'. split; [exact Hrun|split; assumption].
Qed.

Lemma upd_same A l ts : upd A l ts l = ts.
Proof. unfold upd. rewrite decide_True by reflexivity. reflexivity. Qed.

(** [task_suspend] of a task that exists. *)
Lemma task_suspend_Inv A s task a :
  Inv A s ->
  match task with
  | Some _ => task
  | None => current_task (librertos s)
  end = Some a ->
  is_Some (statics s a) ->
  exists s' A',
    task_suspend task s = Ok (tt, s') /\ Inv A' s' /\ same_static s s'.
Proof.
  intros HI Htask Ha.
  destruct (Inv_remove A s a HI Ha)
    as (l & xs & ys & s1 & Hl & HA & Hnl & Hrun1 & HP & Hst1).
  destruct (PInv_insert_first _ a s1 Suspended HP I)
    as (s2 & Hrun2 & HI2 & Hst2).
  { intros; discriminate. }
  exists s2. eexists. split; [|split; [exact HI2|]].
  - unfold task_suspend.
    rewrite (bind_ok _ _ s (Some a) s).
    + simpl. rewrite (bind_ok _ _ _ _ _ Hrun1). exact Hrun2.
    + destruct task; simpl in *; [rewrite Htask; reflexivity|].
      unfold get_current_task_. rewrite Htask. reflexivity.
  - eapply same_static_trans; eassumption.
Qed.

Lemma statics_lookup s a tk :
  tasks s !! a = Some tk -> statics s a = Some (func tk, param tk, priority tk).
Proof. unfold statics. intros ->. reflexivity. Qed.

Lemma nlist_lookup s a tk :
  tasks s !! a = Some tk -> nlist s a = Some (node_list (sched_node tk)).
Proof. unfold nlist. intros ->. reflexivity. Qed.

(** [task_resume] of a task that exists. *)
Lemma task_resume_Inv A s a :
  config_ok -> Inv A s -> is_Some (statics s a) ->
  exists s' A',
    task_resume (Some a) s = Ok (tt, s') /\ Inv A' s' /\ same_static s s'.
Proof.
  intros (Hc0 & Hc1 & Hc2 & _) HI Ha.
  pose proof Ha as Ha'. apply statics_is_Some in Ha'. destruct Ha' as [tk Htk].
  pose proof (statics_lookup s a tk Htk) as Hs.
  pose proof (nlist_lookup s a tk Htk) as Hn.
  destruct (I_prio _ _ HI a _ _ _ Hs) as [Hrange Hready].
  unfold task_resume.
  rewrite (bind_ok _ _ s tk s) by (unfold read_task; rewrite Htk; reflexivity).
  destruct (bool_decide (node_list (sched_node tk) = Some (Ready (priority tk))))
    eqn:E; simpl.
  - exists s, A. split; [reflexivity|]. split; [exact HI|apply same_static_refl].
  - destruct (Inv_remove A s a HI Ha)
      as (l & xs & ys & s1 & Hl & HA & Hnl & Hrun1 & HP & Hst1).
    destruct (PInv_insert_last _ a s1 (Ready (priority tk)) HP)
      as (s2 & Hrun2 & HI2 & Hst2).
    { simpl. lia. }
    { intros i f p pr [= <-] Hs1. destruct Hst1 as (Hst1 & _).
      rewrite Hst1, Hs in Hs1. congruence. }
    exists s2. eexists. split; [|split; [exact HI2|]].
    + rewrite (bind_ok _ _ _ _ _ Hrun1). exact Hrun2.
    + eapply same_static_trans; eassumption.
Qed.

Lemma Inv_upd_tick A v s : Inv A s -> Inv A (upd_tick v s).
Proof.
  intros [Hdll Hmem Hprio Hcur]. constructor.
  - intros l Hl. apply dll_upd_tick, Hdll, Hl.
  - exact Hmem.
  - exact Hprio.
  - exact Hcur.
Qed.

Lemma Inv_upd_current A c s :
  Inv A s ->
  match c with Some a => is_Some (statics s a) | None => True end ->
  Inv A (upd_current c s).
Proof.
  intros [Hdll Hmem Hprio Hcur] Hc. constructor.
  - intros l Hl. apply dll_upd_current, Hdll, Hl.
  - exact Hmem.
  - exact Hprio.
  - intros c' E. simpl in E. subst c. exact Hc.
Qed.

Lemma librertos_tick_interrupt_run s :
  librertos_tick_interrupt s
  = Ok (tt, upd_tick (to_tick_t (tick (librertos s) + 1)) s).
Proof. reflexivity. Qed.

Lemma set_current_task_run c s :
  set_current_task c s = Ok (tt, upd_current c s).
Proof. reflexivity. Qed.

(** *** [librertos_create_task] *)

Lemma create_prefix_run priority_ func_ param_ a s :
  (write_task a poison_task ;;
   write_task a {| func := func_; param := param_; priority := priority_;
                   sched_node := poison_node |} ;;
   node_init (TaskNode a) (Some a)) s
  = Ok (tt, store_task a (fresh_task priority_ func_ param_ a) s).
Proof.
  unfold node_init, set_next, set_prev, set_list, set_owner, bind, read_task,
    write_task. simpl.
  repeat (rewrite ?tasks_store_task; rewrite lookup_insert_eq; simpl).
  unfold store_task. simpl. rewrite !insert_insert_eq. reflexivity.
Qed.

Lemma PInv_store_fresh A s priority_ func_ param_ a :
  Inv A s -> tasks s !! a = None ->
  LOW_PRIORITY <= priority_ <= HIGH_PRIORITY ->
  PInv A a (store_task a (fresh_task priority_ func_ param_ a) s).
Proof.
  intros [Hdll Hmem Hprio Hcur] Hfresh Hrange.
  assert (Hnone : statics s a = None) by (unfold statics; rewrite Hfresh; auto).
  constructor.
  - intros l Hl. pose proof (Hdll l Hl) as Hd.
    eapply dll_same; [| | | |exact Hd]; autorewrite with views.
    + rewrite decide_False by discriminate. reflexivity.
    + rewrite decide_False by discriminate. reflexivity.
    + reflexivity.
    + intros a' Ha'. autorewrite with views.
      assert (a' <> a).
      { intros ->. destruct (dll_member s l _ a Hd Ha') as (E & _).
        unfold nlist in E. rewrite Hfresh in E. discriminate. }
      rewrite !decide_False by congruence. auto.
  - intros a' Ha' Hne. autorewrite with views in Ha'.
    rewrite decide_False in Ha' by exact Hne.
    destruct (Hmem a' Ha') as (l & Hl & Hn & Hin).
    exists l. autorewrite with views. rewrite decide_False by exact Hne. auto.
  - autorewrite with views. rewrite decide_True by reflexivity. reflexivity.
  - autorewrite with views. rewrite decide_True by reflexivity. reflexivity.
  - intros a' f p pr Hs. autorewrite with views in *.
    destruct (decide (a' = a)) as [->|Hne].
    + simpl in Hs. injection Hs as <- <- <-. split; [exact Hrange|].
      intros; discriminate.
    + apply (Hprio a' f p pr Hs).
  - intros c Hc. autorewrite with views. simpl in Hc.
    destruct (decide (c = a)); [eauto|]. apply Hcur. exact Hc.
Qed.

Lemma librertos_create_task_Inv A s priority_ a func_ param_ :
  config_ok -> Inv A s -> tasks s !! a = None ->
  LOW_PRIORITY <= priority_ <= HIGH_PRIORITY ->
  exists s' A',
    librertos_create_task priority_ (Some a) func_ param_ s = Ok (tt, s') /\
    Inv A' s' /\
    statics s' a = Some (func_, param_, priority_) /\
    (forall a', a' <> a -> statics s' a' = statics s a') /\
    tick (librertos s') = tick (librertos s) /\
    current_task (librertos s') = current_task (librertos s).
Proof.
  intros (Hc0 & Hc1 & Hc2 & _) HI Hfresh Hrange.
  pose proof (PInv_store_fresh A s priority_ func_ param_ a HI Hfresh Hrange)
    as HP.
  set (s1 := store_task a (fresh_task priority_ func_ param_ a) s) in *.
  assert (Hs1 : statics s1 a = Some (func_, param_, priority_)).
  { subst s1. autorewrite with views. rewrite decide_True by reflexivity.
    reflexivity. }
  destruct (PInv_insert_last A a s1 (Ready priority_) HP)
    as (s2 & Hrun & HI2 & Hst & Htick & Hcur).
  { simpl. lia. }
  { intros i f p pr [= <-] E. congruence. }
  exists s2. eexists. split; [|split; [exact HI2|]].
  - unfold librertos_create_task.
    replace ((priority_ >=? LOW_PRIORITY) && (priority_ <=? HIGH_PRIORITY))
      with true by (symmetry; apply andb_true_iff; lia).
    simpl.
    pose proof (create_prefix_run priority_ func_ param_ a s) as Hpre.
    unfold bind in *. fold s1 in Hpre.
    destruct (write_task a poison_task s) as [[[] sa]|]; [|discriminate].
    destruct (write_task a _ sa) as [[[] sb]|]; [|discriminate].
    rewrite Hpre. exact Hrun.
  - split; [rewrite Hst; exact Hs1|]. split; [|split].
    + intros a' Hne. rewrite Hst. subst s1. autorewrite with views.
      rewrite decide_False by exact Hne. reflexivity.
    + rewrite Htick. reflexivity.
    + rewrite Hcur. reflexivity.
Qed.

(** *** [librertos_init] *)

Lemma init_tasks_ready_run k :
  forall pre tk cur susp tasks_,
    init_tasks_ready k (Z.of_nat (length pre))
      {| librertos := {| tick := tk; current_task := cur;
                         tasks_ready := pre ++ replicate k poison_list;
                         tasks_suspended := susp |};
         tasks := tasks_ |}
    = Ok (tt,
          {| librertos :=
               {| tick := tk; current_task := cur;
                  tasks_ready :=
                    pre ++ map (fun i : nat => init_list (Ready (Z.of_nat i)))
                               (seq (length pre) k);
                  tasks_suspended := susp |};
             tasks := tasks_ |}).
Proof.
  induction k as [|k IH]; intros pre tk cur susp tasks_; [reflexivity|].
  simpl. unfold bind, list_init, write_list, lookup_list, store_list. simpl.
  replace (0 <=? Z.of_nat (length pre)) with true
    by (symmetry; apply Z.leb_le; lia).
  rewrite Nat2Z.id, list_lookup_middle by reflexivity.
  rewrite insert_app_r_alt by lia. rewrite Nat.sub_diag. simpl.
  specialize (IH (pre ++ [init_list (Ready (Z.of_nat (length pre)))])
                 tk cur susp tasks_).
  rewrite length_app in IH. simpl in IH.
  replace (Z.of_nat (length pre + 1)) with (Z.of_nat (length pre) + 1)
    in IH by lia.
  rewrite <- !app_assoc in IH. simpl in IH.
  replace (length pre + 1)%nat with (S (length pre)) in IH by lia.
  exact IH.
Qed.

Lemma librertos_init_run s0 : librertos_init s0 = Ok (tt, init_state s0).
Proof.
  unfold librertos_init, memset_librertos, set_tick, set_current_task, bind.
  simpl.
  pose proof (init_tasks_ready_run (Z.to_nat NUM_PRIORITIES) [] 0 NULL
                poison_list (tasks s0)) as H.
  change (Z.of_nat (length (@nil list_t))) with 0 in H.
  simpl in H. rewrite H. reflexivity.
Qed.

Lemma lookup_list_init_state s0 l :
  valid_list l -> lookup_list l (init_state s0) = Some (init_list l).
Proof.
  destruct l as [i|]; simpl; [|reflexivity]. intros Hi.
  unfold lookup_list, init_state. simpl.
  replace (0 <=? i) with true by (symmetry; apply Z.leb_le; lia).
  rewrite list_lookup_fmap, lookup_seq_lt by lia. simpl.
  rewrite Z2Nat.id by lia. reflexivity.
Qed.

Lemma Inv_init_state s0 : tasks s0 = ∅ -> Inv (fun _ => []) (init_state s0).
Proof.
  intros Hempty.
  assert (Hnone : forall a, statics (init_state s0) a = None).
  { intros a. unfold statics, init_state. simpl. rewrite Hempty.
    rewrite lookup_empty. reflexivity. }
  constructor.
  - intros l Hl. unfold dll, nnext, nprev, llen.
    rewrite (lookup_list_init_state s0 l Hl). simpl.
    repeat split; try reflexivity. constructor.
  - intros a [x Ha]. rewrite Hnone in Ha. discriminate.
  - intros a f p pr Hs. rewrite Hnone in Hs. discriminate.
  - intros c Hc. discriminate.
Qed.

(** *** [librertos_sched] *)

Lemma list_empty_run s l n :
  llen s l = Some n -> list_empty l s = Ok (n =? 0, s).
Proof.
  unfold llen, list_empty, bind, read_list, ret.
  destruct (lookup_list l s); simpl; [|discriminate].
  intros [= <-]. reflexivity.
Qed.

Lemma list_get_first_run s l v :
  nnext s (ListNode l) = Some v -> list_get_first l s = Ok (v, s).
Proof.
  unfold nnext, list_get_first, bind, read_list, ret.
  destruct (lookup_list l s); simpl; [|discriminate].
  intros [= <-]. reflexivity.
Qed.

Lemma to_length_t_0 : to_length_t 0 = 0.
Proof. unfold to_length_t. apply Z.mod_0_l, Z.pow_nonzero; lia. Qed.

(** The body of the loop of [librertos_sched] on a ready list that is not
    empty: its first task goes to the back and becomes the current
    task. *)
Lemma sched_dispatch_Inv A s i h rest :
  Inv A s -> valid_list (Ready i) -> A (Ready i) = h :: rest ->
  exists s' A',
    (node <- list_get_first (Ready i) ;;
     task <- get_owner node ;;
     list_remove node ;;
     list_insert_last (Ready i) node ;;
     set_current_task task ;;
     ret (Some task)) s = Ok (Some (Some h), s') /\
    Inv A' s' /\
    A' (Ready i) = rest ++ [h] /\
    (forall l, l <> Ready i -> A' l = A l) /\
    current_task (librertos s') = Some h /\
    (forall a, statics s' a = statics s a) /\
    tick (librertos s') = tick (librertos s).
Proof.
  intros HI Hl HA.
  pose proof (I_dll _ _ HI _ Hl) as Hd. rewrite HA in Hd.
  destruct (dll_member s _ _ h Hd) as (Hnl & Hown & Hv); [left|].
  pose proof Hd as (Hh & _).
  destruct (Inv_remove_at A s h (Ready i) [] rest HI Hl HA)
    as (s1 & Hrun1 & HP & Hst1 & Htick1 & Hcur1).
  destruct (PInv_insert_last _ h s1 (Ready i) HP Hl)
    as (s2 & Hrun2 & HI2 & Hst2 & Htick2 & Hcur2).
  { intros j f p pr [= <-] Hs. rewrite Hst1 in Hs.
    apply (I_prio _ _ HI h f p pr Hs). exact Hnl. }
  exists (upd_current (Some h) s2). eexists.
  split; [|split; [apply Inv_upd_current; [exact HI2|]|]].
  - rewrite (bind_ok _ _ s (TaskNode h) s)
      by (apply list_get_first_run; exact Hh).
    rewrite (bind_ok _ _ s (Some h) s) by (apply get_owner_ok; exact Hown).
    rewrite (bind_ok _ _ _ _ _ Hrun1).
    rewrite (bind_ok _ _ _ _ _ Hrun2).
    reflexivity.
  - rewrite Hst2, Hst1. apply nlist_statics. eauto.
  - split; [|split; [|split; [|split]]].
    + rewrite !upd_same. reflexivity.
    + intros l Hne. unfold upd. rewrite !decide_False by exact Hne.
      reflexivity.
    + reflexivity.
    + intros a. autorewrite with views. rewrite Hst2. apply Hst1.
    + simpl. congruence.
Qed.

Lemma sched_loop_Inv A s cp :
  config_ok -> Inv A s -> -1 <= cp ->
  forall n,
    cp + Z.of_nat n <= HIGH_PRIORITY ->
    (sched_loop n cp s = Ok (None, s) /\
     forall j, cp < j <= cp + Z.of_nat n -> llen s (Ready j) = Some 0) \/
    (exists i h rest s' A',
       cp < i <= cp + Z.of_nat n /\
       A (Ready i) = h :: rest /\
       (forall j, i < j <= cp + Z.of_nat n -> llen s (Ready j) = Some 0) /\
       sched_loop n cp s = Ok (Some (Some h), s') /\
       Inv A' s' /\
       A' (Ready i) = rest ++ [h] /\
       (forall l, l <> Ready i -> A' l = A l) /\
       current_task (librertos s') = Some h /\
       (forall a, statics s' a = statics s a) /\
       tick (librertos s') = tick (librertos s)).
Proof.
  intros (Hc0 & Hc1 & Hc2 & _) HI Hcp.
  induction n as [|n IH]; intros Hn.
  - left. split; [reflexivity|]. intros j Hj. lia.
  - assert (Hl : valid_list (Ready (cp + Z.of_nat (S n)))) by (simpl; lia).
    pose proof (I_dll _ _ HI _ Hl) as Hd.
    pose proof Hd as (_ & _ & Hlen & _).
    cbn [sched_loop].
    rewrite (bind_ok _ _ _ _ _ (list_empty_run _ _ _ Hlen)).
    destruct (A (Ready (cp + Z.of_nat (S n)))) as [|h rest] eqn:HA.
    + simpl length in *. change (Z.of_nat 0) with 0 in *.
      rewrite to_length_t_0 in *. simpl.
      destruct IH as [[Hrun Hzero]|
                      (i & h & rest & s' & A' & Hi & HAi & Hzero & Hrun & Hrest)];
        [lia| |].
      * left. split; [exact Hrun|]. intros j Hj.
        destruct (Z.eq_dec j (cp + Z.of_nat (S n))) as [->|Hne];
          [exact Hlen|apply Hzero; lia].
      * right. exists i, h, rest, s', A'.
        split; [lia|]. split; [exact HAi|]. split; [|split; [exact Hrun|exact Hrest]].
        intros j Hj.
        destruct (Z.eq_dec j (cp + Z.of_nat (S n))) as [->|Hne];
          [exact Hlen|apply Hzero; lia].
    + destruct (to_length_t (Z.of_nat (length (h :: rest))) =? 0) eqn:E.
      * (* the length has wrapped to zero: the list is taken as empty *)
        apply Z.eqb_eq in E. rewrite E in Hlen.
        destruct IH as [[Hrun Hzero]|
                        (i & h' & rest' & s' & A' & Hi & HAi & Hzero & Hrun & Hrest)];
          [lia| |].
        -- left. split; [exact Hrun|]. intros j Hj.
           destruct (Z.eq_dec j (cp + Z.of_nat (S n))) as [->|Hne];
             [exact Hlen|apply Hzero; lia].
        -- right. exists i, h', rest', s', A'.
           split; [lia|]. split; [exact HAi|].
           split; [|split; [exact Hrun|exact Hrest]].
           intros j Hj.
           destruct (Z.eq_dec j (cp + Z.of_nat (S n))) as [->|Hne];
             [exact Hlen|apply Hzero; lia].
      * destruct (sched_dispatch_Inv A s _ h rest HI Hl HA)
          as (s' & A' & Hrun & Hrest).
        right. exists (cp + Z.of_nat (S n)), h, rest, s', A'.
        split; [lia|]. split; [exact HA|]. split; [intros j Hj; lia|].
        split; [exact Hrun|exact Hrest].
Qed.

Lemma bind_inv {A B} (m : K A) (k : A -> K B) s b s' :
  bind m k s = Ok (b, s') ->
  exists a s1, m s = Ok (a, s1) /\ k a s1 = Ok (b, s').
Proof.
  unfold bind. destruct (m s) as [[a s1]|e]; [eauto|discriminate].
Qed.

(** A run of the loop that selects nothing changes nothing. *)
Lemma sched_loop_None n cp s s' :
  sched_loop n cp s = Ok (None, s') -> s' = s.
Proof.
  induction n as [|n IH]; simpl.
  - unfold ret. congruence.
  - intros H. apply bind_inv in H. destruct H as (empty & s1 & He & H).
    assert (s1 = s) as ->.
    { unfold list_empty, bind, read_list, ret in He.
      destruct (lookup_list _ s); simpl in He; congruence. }
    destruct empty; [apply IH; exact H|].
    repeat (apply bind_inv in H; destruct H as (? & ? & _ & H)).
    unfold ret in H. discriminate.
Qed.

Lemma sched_select_None s s' : sched_select s = Ok (None, s') -> s' = s.
Proof.
  unfold sched_select. intros H.
  apply bind_inv in H. destruct H as (c & s1 & Hc & H).
  unfold get_current_task_ in Hc. injection Hc as <- <-.
  apply bind_inv in H. destruct H as (cp & s1 & Hcp & H).
  assert (s1 = s) as ->.
  { destruct (current_task (librertos s)); unfold ret, bind, read_task in Hcp.
    - destruct (tasks s !! z); congruence.
    - congruence. }
  destruct (is_cooperative KERNEL_MODE && (cp >=? 0)).
  - unfold ret in H. congruence.
  - apply bind_inv in H. destruct H as (r & s1 & Hr & H).
    unfold ret in H. destruct r as [task|]; [discriminate|].
    injection H as <-. eapply sched_loop_None. exact Hr.
Qed.

Lemma sched_select_Inv A s :
  config_ok -> Inv A s ->
  (sched_select s = Ok (None, s) /\
   (is_cooperative KERNEL_MODE = true /\ current_task (librertos s) <> None \/
    forall j, current_priority s < j <= HIGH_PRIORITY ->
              llen s (Ready j) = Some 0)) \/
  (exists i h rest s' A',
     current_priority s < i <= HIGH_PRIORITY /\
     A (Ready i) = h :: rest /\
     (forall j, i < j <= HIGH_PRIORITY -> llen s (Ready j) = Some 0) /\
     (is_cooperative KERNEL_MODE = true -> current_task (librertos s) = None) /\
     sched_select s
     = Ok (Some (Some h, current_task (librertos s)), s') /\
     Inv A' s' /\
     A' (Ready i) = rest ++ [h] /\
     (forall l, l <> Ready i -> A' l = A l) /\
     current_task (librertos s') = Some h /\
     (forall a, statics s' a = statics s a) /\
     tick (librertos s') = tick (librertos s)).
Proof.
  intros Hcfg HI. pose proof Hcfg as (Hc0 & Hc1 & Hc2 & _).
  assert (Hcp : exists cp,
            cp = current_priority s /\ -1 <= cp <= HIGH_PRIORITY /\
            (current_task (librertos s) <> None -> 0 <= cp) /\
            (current_task (librertos s) = None -> cp = -1) /\
            match current_task (librertos s) with
            | None => ret (-1)
            | Some _ => tk <- read_task (current_task (librertos s)) ;;
                        ret (priority tk)
            end s = Ok (cp, s)).
  { unfold current_priority.
    destruct (current_task (librertos s)) as [c|] eqn:Ec.
    - destruct (I_cur _ _ HI c Ec) as [[[f p] pr] Hs].
      destruct (I_prio _ _ HI c f p pr Hs) as [Hr _].
      unfold statics in Hs. unfold bind, read_task, ret.
      destruct (tasks s !! c) as [tk|]; [|discriminate].
      simpl in Hs. injection Hs as <- <- <-.
      exists (priority tk). repeat split; try lia; congruence.
    - exists (-1). repeat split; try lia; congruence. }
  destruct Hcp as (cp & Ecp & Hrange & Hpos & Hneg & Hrun).
  rewrite <- Ecp.
  unfold sched_select.
  rewrite (bind_ok _ _ s (current_task (librertos s)) s) by reflexivity.
  rewrite (bind_ok _ _ _ _ _ Hrun).
  destruct (is_cooperative KERNEL_MODE && (cp >=? 0)) eqn:Emode.
  - left. split; [reflexivity|]. left.
    apply andb_true_iff in Emode. destruct Emode as [Em Ep].
    split; [exact Em|]. intros Hnone. specialize (Hneg Hnone). lia.
  - assert (Hmode : is_cooperative KERNEL_MODE = true ->
                    current_task (librertos s) = None).
    { intros Em. rewrite Em in Emode. simpl in Emode.
      destruct (current_task (librertos s)); [|reflexivity].
      assert (0 <= cp) by (apply Hpos; discriminate). lia. }
    destruct (sched_loop_Inv A s cp Hcfg HI (proj1 Hrange)
                (Z.to_nat (HIGH_PRIORITY - cp)))
      as [[Hloop Hzero]|
          (i & h & rest & s' & A' & Hi & HA & Hzero & Hloop & Hrest)];
      [lia| |].
    + left. rewrite (bind_ok _ _ _ _ _ Hloop). split; [reflexivity|].
      right. intros j Hj. apply Hzero. lia.
    + right. exists i, h, rest, s', A'.
      split; [lia|]. split; [exact HA|].
      split; [intros j Hj; apply Hzero; lia|].
      split; [exact Hmode|].
      split; [|exact Hrest].
      rewrite (bind_ok _ _ _ _ _ Hloop). reflexivity.
Qed.

(** *** Reachable states are well formed *)

Lemma allocated_mono s s' t :
  (forall a, is_Some (statics s a) -> is_Some (statics s' a)) ->
  allocated s t -> allocated s' t.
Proof. intros H. destruct t; simpl; auto. Qed.

Lemma task_suspend_Ok_inv task s s' :
  task_suspend task s = Ok (tt, s') ->
  exists a,
    match task with
    | Some _ => task
    | None => current_task (librertos s)
    end = Some a /\ is_Some (statics s a).
Proof.
  unfold task_suspend. intros H.
  apply bind_inv in H. destruct H as (target & s1 & Ht & H).
  assert (s1 = s /\ target = match task with
                             | Some _ => task
                             | None => current_task (librertos s)
                             end) as [-> ->].
  { destruct task; unfold ret, get_current_task_ in Ht; split; congruence. }
  apply bind_inv in H. destruct H as ([] & s2 & Hrem & _).
  unfold list_remove in Hrem.
  apply bind_inv in Hrem. destruct Hrem as (l & s3 & Hget & _).
  destruct (match task with
            | Some _ => task
            | None => current_task (librertos s)
            end) as [a|]; [|discriminate].
  exists a. split; [reflexivity|]. apply statics_is_Some.
  simpl in Hget. unfold bind, read_task in Hget.
  destruct (tasks s !! a); [eauto|discriminate].
Qed.

Lemma task_resume_Ok_inv task s s' :
  task_resume task s = Ok (tt, s') ->
  exists a, task = Some a /\ is_Some (statics s a).
Proof.
  unfold task_resume. intros H.
  apply bind_inv in H. destruct H as (tk & s1 & Hread & _).
  unfold read_task in Hread. destruct task as [a|]; [|discriminate].
  exists a. split; [reflexivity|]. apply statics_is_Some.
  destruct (tasks s !! a); [eauto|discriminate].
Qed.

Lemma librertos_create_task_Ok_inv priority_ task func_ param_ s s' :
  librertos_create_task priority_ task func_ param_ s = Ok (tt, s') ->
  LOW_PRIORITY <= priority_ <= HIGH_PRIORITY.
Proof.
  unfold librertos_create_task.
  destruct (negb _) eqn:E; [discriminate|]. intros _.
  apply negb_false_iff, andb_true_iff in E. lia.
Qed.

Lemma reachable_wf s stack :
  config_ok -> reachable s stack -> wf s /\ Forall (allocated s) stack.
Proof.
  intros Hcfg Hr.
  induction Hr as
    [s0 s Hempty Hrun
    |s stack pr a f x s' Hr [[A HI] Hst] Hfresh Hrun
    |s stack s' Hr [[A HI] Hst] Hrun
    |s stack task s' Hr [[A HI] Hst] Hrun
    |s stack task s' Hr [[A HI] Hst] Hrun
    |s stack task saved s' Hr [[A HI] Hst] Hrun
    |s stack saved s' Hr [[A HI] Hst] Hrun].
  - rewrite librertos_init_run in Hrun. injection Hrun as <-.
    split; [|constructor]. eexists. apply Inv_init_state. exact Hempty.
  - pose proof (librertos_create_task_Ok_inv _ _ _ _ _ _ Hrun) as Hrange.
    destruct (librertos_create_task_Inv A s pr a f x Hcfg HI Hfresh Hrange)
      as (s2 & A' & Hrun' & HI' & Hsa & Hso & _).
    rewrite Hrun in Hrun'. injection Hrun' as <-.
    split; [exists A'; exact HI'|].
    eapply Forall_impl; [exact Hst|]. intros t. apply allocated_mono.
    intros a' Ha'. destruct (decide (a' = a)) as [->|Hne].
    + rewrite Hsa. eauto.
    + rewrite Hso by exact Hne. exact Ha'.
  - rewrite librertos_tick_interrupt_run in Hrun. injection Hrun as <-.
    split; [exists A; apply Inv_upd_tick; exact HI|exact Hst].
  - destruct (task_suspend_Ok_inv _ _ _ Hrun) as (a & Ha & Hal).
    destruct (task_suspend_Inv A s task a HI Ha Hal)
      as (s2 & A' & Hrun' & HI' & Hsame & _).
    rewrite Hrun in Hrun'. injection Hrun' as <-.
    split; [exists A'; exact HI'|].
    eapply Forall_impl; [exact Hst|]. intros t. apply allocated_mono.
    intros a' Ha'. rewrite Hsame. exact Ha'.
  - destruct (task_resume_Ok_inv _ _ _ Hrun) as (a & -> & Hal).
    destruct (task_resume_Inv A s a Hcfg HI Hal)
      as (s2 & A' & Hrun' & HI' & Hsame & _).
    rewrite Hrun in Hrun'. injection Hrun' as <-.
    split; [exists A'; exact HI'|].
    eapply Forall_impl; [exact Hst|]. intros t. apply allocated_mono.
    intros a' Ha'. rewrite Hsame. exact Ha'.
  - destruct (sched_select_Inv A s Hcfg HI)
      as [[Hnone _]|
          (i & h & rest & s2 & A' & _ & _ & _ & _ & Hrun' & HI' & _ & _ & _
             & Hsame & _)].
    + rewrite Hrun in Hnone. discriminate.
    + rewrite Hrun in Hrun'. injection Hrun' as -> -> <-.
      split; [exists A'; exact HI'|].
      assert (Hmono : forall a, is_Some (statics s a) ->
                                is_Some (statics s' a)).
      { intros a' Ha'. rewrite Hsame. exact Ha'. }
      constructor.
      * apply (allocated_mono s s' _ Hmono).
        destruct (current_task (librertos s)) as [c|] eqn:Ec; simpl; [|exact I].
        apply (I_cur _ _ HI c Ec).
      * eapply Forall_impl; [exact Hst|]. intros t.
        apply allocated_mono. exact Hmono.
  - rewrite set_current_task_run in Hrun. injection Hrun as <-.
    apply Forall_cons in Hst. destruct Hst as [Hsaved Hst].
    split; [exists A; apply Inv_upd_current; [exact HI|exact Hsaved]|].
    exact Hst.
Qed.

(** *** The scheduler and the tick *)

(** C3. In a reachable state, when [librertos_sched] selects a task, the
    priority of that task is greater than the priority of the running
    task (than -1 when none runs), never equal or lower; and in
    cooperative mode it selects a task only when none is running: called
    while a task runs, it returns at once and changes nothing. *)
Theorem sched_selects_only_higher_priority :
  forall (s : state) (stack : list task_ptr),
    config_ok -> reachable s stack ->
    (forall task current_task_ s',
       sched_select s = Ok (Some (task, current_task_), s') ->
       exists h tkh,
         task = Some h /\ tasks s' !! h = Some tkh /\
         current_task (librertos s') = Some h /\
         current_task_ = current_task (librertos s) /\
         current_priority s < priority tkh /\
         (forall c tkc,
            current_task (librertos s) = Some c -> tasks s !! c = Some tkc ->
            priority tkc < priority tkh) /\
         (KERNEL_MODE = LIBRERTOS_COOPERATIVE ->
          current_task (librertos s) = None)) /\
    (KERNEL_MODE = LIBRERTOS_COOPERATIVE ->
     current_task (librertos s) <> None ->
     sched_select s = Ok (None, s)).
Proof.
  intros s stack Hcfg Hr.
  destruct (reachable_wf s stack Hcfg Hr) as [[A HI] _].
  destruct (sched_select_Inv A s Hcfg HI)
    as [[Hnone _]|
        (i & h & rest & s2 & A' & Hi & HA & _ & Hmode & Hrun' & HI' & _ & _
           & Hcur' & Hsame & _)].
  - split.
    + intros task saved s' Hrun. rewrite Hrun in Hnone. discriminate.
    + intros _ _. exact Hnone.
  - split.
    + intros task saved s' Hrun. rewrite Hrun in Hrun'.
      injection Hrun' as -> -> <-.
      assert (Hin : h ∈ A (Ready i)) by (rewrite HA; left).
      assert (Hl : valid_list (Ready i)).
      { destruct Hcfg as (? & ? & ? & _). unfold current_priority in Hi.
        simpl. split; [|lia].
        destruct (current_task (librertos s)) as [c|] eqn:Ec; [|lia].
        destruct (I_cur _ _ HI c Ec) as [[[f p] pr] Hs].
        destruct (I_prio _ _ HI c f p pr Hs) as [Hr' _].
        unfold statics in Hs. destruct (tasks s !! c); [|discriminate].
        simpl in Hs. injection Hs as <- <- <-. lia. }
      destruct (dll_member s _ _ h (I_dll _ _ HI _ Hl) Hin) as (Hnl & _ & Hv).
      assert (Hal : is_Some (tasks s' !! h)).
      { apply statics_is_Some. rewrite Hsame. apply nlist_statics. eauto. }
      destruct Hal as [tkh Htkh].
      assert (Hp : priority tkh = i).
      { pose proof (statics_lookup s' h tkh Htkh) as Hs. rewrite Hsame in Hs.
        apply (I_prio _ _ HI h _ _ _ Hs). exact Hnl. }
      exists h, tkh. repeat split; try assumption; try reflexivity.
      * lia.
      * intros c tkc Ec Etk. unfold current_priority in Hi.
        rewrite Ec, Etk in Hi. lia.
      * intros Hm. apply Hmode. rewrite Hm. reflexivity.
    + intros Hm Hc. rewrite Hm in Hmode. specialize (Hmode eq_refl).
      contradiction.
Qed.

(** C4, as the code has it. [librertos_tick_interrupt] adds one to the
    tick counter, wrapping at the width of [tick_t], and changes nothing
    else: not the current task, not a ready list, not the suspended list,
    not a task record. *)
Theorem tick_interrupt_only_counts :
  forall s : state,
    exists s',
      librertos_tick_interrupt s = Ok (tt, s') /\
      tick (librertos s') = to_tick_t (tick (librertos s) + 1) /\
      current_task (librertos s') = current_task (librertos s) /\
      tasks_ready (librertos s') = tasks_ready (librertos s) /\
      tasks_suspended (librertos s') = tasks_suspended (librertos s) /\
      tasks s' = tasks s.
Proof.
  intros s. eexists. split; [apply librertos_tick_interrupt_run|].
  repeat split.
Qed.

(** C10. [task_suspend(NULL)] needs a running task: when [current_task]
    is null, as it is after [librertos_init], the call reads through a
    null pointer; it neither returns nor fails an assertion.  In a
    reachable state with a running task it returns normally. *)
Theorem task_suspend_null_needs_current_task :
  (forall s : state,
     current_task (librertos s) = None ->
     task_suspend NULL s = Stop NullPointer) /\
  (forall s0 : state,
     exists s, librertos_init s0 = Ok (tt, s) /\
               current_task (librertos s) = None /\
               task_suspend NULL s = Stop NullPointer) /\
  (forall (s : state) (stack : list task_ptr),
     config_ok -> reachable s stack ->
     current_task (librertos s) <> None ->
     exists s', task_suspend NULL s = Ok (tt, s')).
Proof.
  assert (Hnull : forall s : state,
            current_task (librertos s) = None ->
            task_suspend NULL s = Stop NullPointer).
  { intros s Hc. unfold task_suspend, NULL, bind, get_current_task_.
    rewrite Hc. reflexivity. }
  split; [exact Hnull|]. split.
  - intros s0. exists (init_state s0).
    split; [apply librertos_init_run|]. split; [reflexivity|].
    apply Hnull. reflexivity.
  - intros s stack Hcfg Hr Hc.
    destruct (reachable_wf s stack Hcfg Hr) as [[A HI] _].
    destruct (current_task (librertos s)) as [c|] eqn:Ec; [|congruence].
    destruct (task_suspend_Inv A s NULL c HI Ec (I_cur _ _ HI c Ec))
      as (s' & _ & Hrun & _).
    exists s'. exact Hrun.
Qed.

(** *** Further properties of the lists *)

Lemma list_insert_last_run s l ts node :
  dll s l ts ->
  list_insert_last l node s
  = list_insert_after l (lst_or ts (ListNode l)) node s.
Proof.
  intros Hd. destruct (dll_tail s l ts Hd) as (v & Hv & Htl).
  unfold list_insert_last.
  rewrite (bind_ok _ _ s v s) by (unfold read_list; rewrite Hv; reflexivity).
  rewrite Htl. reflexivity.
Qed.

Lemma list_insert_before_run s l xs ys node :
  dll s l (xs ++ ys) ->
  list_insert_before l (fst_or ys (ListNode l)) node s
  = list_insert_after l (lst_or xs (ListNode l)) node s.
Proof.
  intros Hd. destruct (dll_link s l xs ys Hd) as [_ Hp].
  unfold list_insert_before.
  rewrite (bind_ok _ _ _ _ _ (get_prev_ok _ _ _ Hp)). reflexivity.
Qed.

(** X8. [list_insert_after] links a node that is on no list into a list
    right after the given position, and [list_insert_before] right before
    it: the tasks before and after keep their order, the length field
    counts one more, and the other lists are as they were. *)
Theorem list_insert_after_and_before :
  forall (s : state) (l : list_ptr) (xs ys : list Z) (t : Z),
    dll s l (xs ++ ys) ->
    nlist s t = Some None -> nowner s t = Some (Some t) ->
    exists s',
      list_insert_after l (lst_or xs (ListNode l)) (TaskNode t) s
      = Ok (tt, s') /\
      list_insert_before l (fst_or ys (ListNode l)) (TaskNode t) s
      = Ok (tt, s') /\
      dll s' l (xs ++ t :: ys) /\
      llen s' l = Some (to_length_t (Z.of_nat (length (xs ++ ys)) + 1)) /\
      (forall l' ts', l' <> l -> dll s l' ts' -> dll s' l' ts').
Proof.
  intros s l xs ys t Hd Hdet Hown.
  destruct (list_insert_after_dll s l xs ys t Hd Hdet Hown)
    as (s' & Hrun & Hd' & Hothers & _).
  exists s'. split; [exact Hrun|]. split; [|split; [exact Hd'|split]].
  - rewrite (list_insert_before_run s l xs ys _ Hd). exact Hrun.
  - destruct Hd' as (_ & _ & Hlen & _). rewrite Hlen. f_equal. f_equal.
    rewrite !length_app. simpl. lia.
  - exact Hothers.
Qed.

(** X9. [list_insert_first] puts a node that is on no list at the front
    of a list and [list_insert_last] at its back; on an empty list both
    make it the only node. *)
Theorem list_insert_first_and_last :
  forall (s : state) (l : list_ptr) (ts : list Z) (t : Z),
    dll s l ts ->
    nlist s t = Some None -> nowner s t = Some (Some t) ->
    (exists s',
       list_insert_first l (TaskNode t) s = Ok (tt, s') /\
       dll s' l (t :: ts) /\
       list_get_first l s' = Ok (TaskNode t, s') /\
       (forall l' ts', l' <> l -> dll s l' ts' -> dll s' l' ts')) /\
    (exists s',
       list_insert_last l (TaskNode t) s = Ok (tt, s') /\
       dll s' l (ts ++ [t]) /\
       list_get_last l s' = Ok (TaskNode t, s') /\
       (forall l' ts', l' <> l -> dll s l' ts' -> dll s' l' ts')).
Proof.
  intros s l ts t Hd Hdet Hown. split.
  - destruct (list_insert_after_dll s l [] ts t Hd Hdet Hown)
      as (s' & Hrun & Hd' & Hothers & _).
    exists s'. split; [exact Hrun|]. split; [exact Hd'|]. split.
    + apply list_get_first_run. apply Hd'.
    + exact Hothers.
  - assert (Hd0 : dll s l (ts ++ [])) by (rewrite app_nil_r; exact Hd).
    destruct (list_insert_after_dll s l ts [] t Hd0 Hdet Hown)
      as (s' & Hrun & Hd' & Hothers & _).
    exists s'. split; [|split; [exact Hd'|split]].
    + rewrite (list_insert_last_run s l ts _ Hd). exact Hrun.
    + destruct (dll_tail s' l _ Hd') as (v & Hv & Htl).
      unfold list_get_last.
      rewrite (bind_ok _ _ s' v s')
        by (unfold read_list; rewrite Hv; reflexivity).
      unfold ret. rewrite Htl, lst_or_app. reflexivity.
    + exact Hothers.
Qed.

(** What [list_remove] and [list_insert_after] read, in a well-linked
    list. *)
Lemma dll_remove_pre s l xs ys t :
  dll s l (xs ++ t :: ys) ->
  let np := lst_or xs (ListNode l) in
  let nn := fst_or ys (ListNode l) in
  nlist s t = Some (Some l) /\
  nnext s (TaskNode t) = Some nn /\
  nprev s (TaskNode t) = Some np /\
  is_Some (nnext s nn) /\ is_Some (nnext s np) /\
  is_Some (nnext s (TaskNode t)) /\
  llen s l = Some (to_length_t (Z.of_nat (length (xs ++ t :: ys)))) /\
  nn <> TaskNode t /\ np <> TaskNode t.
Proof.
  intros Hdll np nn.
  pose proof Hdll as (Hh & Htl & Hlen & Hseg & Hnd).
  apply seg_app in Hseg. destruct Hseg as [Hsx Hsy]. fold np in Hsy.
  simpl in Hsx. destruct Hsy as (Htn & Htp & Htlist & Htown & Hsy).
  fold nn in Htn.
  apply NoDup_app in Hnd. destruct Hnd as (Hndx & Hxy & Hndy).
  apply NoDup_cons in Hndy. destruct Hndy as [Hty Hndy].
  assert (Hnx : forall a, a ∈ xs -> a <> t).
  { intros a Ha ->. apply (Hxy _ Ha). left. }
  assert (Hny : forall a, a ∈ ys -> a <> t).
  { intros a Ha ->. exact (Hty Ha). }
  split; [exact Htlist|]. split; [exact Htn|]. split; [exact Htp|].
  split; [|split; [|split; [eauto|split; [exact Hlen|split]]]].
  - subst nn. destruct (fst_or_cases ys (ListNode l)) as [[_ ->]|(y & Hy & ->)].
    + eauto.
    + apply (dll_member s l _ y Hdll). apply elem_of_app. right. right.
      exact Hy.
  - subst np. destruct (lst_or_cases xs (ListNode l)) as [[_ ->]|(x & Hx & ->)].
    + eauto.
    + apply (dll_member s l _ x Hdll). apply elem_of_app. left. exact Hx.
  - apply not_eq_sym, fst_or_neq; [discriminate|].
    intros y Hy [= ->]. exact (Hny _ Hy eq_refl).
  - apply not_eq_sym, lst_or_neq; [discriminate|].
    intros x Hx [= ->]. exact (Hnx _ Hx eq_refl).
Qed.

Lemma dll_insert_pre s l xs ys t :
  dll s l (xs ++ ys) -> nlist s t = Some None ->
  let pos := lst_or xs (ListNode l) in
  let pn := fst_or ys (ListNode l) in
  nnext s pos = Some pn /\ nprev s pn = Some pos /\
  is_Some (nnext s pos) /\ is_Some (nnext s pn) /\
  is_Some (nnext s (TaskNode t)) /\
  llen s l = Some (to_length_t (Z.of_nat (length (xs ++ ys)))) /\
  pos <> TaskNode t /\ pn <> TaskNode t.
Proof.
  intros Hdll Hdet pos pn.
  pose proof Hdll as (Hh & Htl & Hlen & Hseg & Hnd).
  destruct (dll_link s l xs ys Hdll) as [Hlink1 Hlink2].
  fold pos pn in Hlink1, Hlink2.
  assert (Hnotin : forall a, a ∈ xs ++ ys -> a <> t).
  { intros a Ha ->. destruct (dll_member s l _ t Hdll Ha) as (E & _). congruence. }
  split; [exact Hlink1|]. split; [exact Hlink2|]. split; [eauto|].
  split; [|split; [eapply nlist_valid; eauto|split; [exact Hlen|split]]].
  - subst pn. destruct (fst_or_cases ys (ListNode l)) as [[_ ->]|(y & Hy & ->)].
    + eauto.
    + apply (dll_member s l _ y Hdll). apply elem_of_app. right. exact Hy.
  - apply not_eq_sym, lst_or_neq; [discriminate|].
    intros x Hx [= ->]. apply (Hnotin x); [|reflexivity].
    apply elem_of_app. left. exact Hx.
  - apply not_eq_sym, fst_or_neq; [discriminate|].
    intros y Hy [= ->]. apply (Hnotin y); [|reflexivity].
    apply elem_of_app. right. exact Hy.
Qed.

Lemma list_remove_detached s t v :
  nlist s t = Some v -> nnext s (TaskNode t) = Some NullNode ->
  list_remove (TaskNode t) s = Stop NullPointer.
Proof.
  intros Hl Hn.
  destruct (nprev_is_Some s (TaskNode t)) as [p Hp]; [eauto|].
  unfold list_remove.
  rewrite (bind_ok _ _ _ _ _ (get_list_ok _ _ _ Hl)).
  rewrite (bind_ok _ _ _ _ _ (get_next_ok _ _ _ Hn)).
  rewrite (bind_ok _ _ _ _ _ (get_prev_ok _ _ _ Hp)).
  reflexivity.
Qed.

(** X10. [list_remove] takes a node out of the list it is on: the tasks
    before and after keep their order, the length field counts one less,
    the other lists are as they were, and the node is left with [next],
    [prev] and [list] null.  It needs a node that is on a list: called
    again on the node it has just removed, it reads through the null
    [next]. *)
Theorem list_remove_unlinks_the_node :
  forall (s : state) (l : list_ptr) (xs ys : list Z) (t : Z),
    dll s l (xs ++ t :: ys) ->
    exists s',
      list_remove (TaskNode t) s = Ok (tt, s') /\
      dll s' l (xs ++ ys) /\
      llen s' l = Some (to_length_t (Z.of_nat (length (xs ++ t :: ys)) - 1)) /\
      nnext s' (TaskNode t) = Some NullNode /\
      nprev s' (TaskNode t) = Some NullNode /\
      nlist s' t = Some None /\
      nowner s' t = Some (Some t) /\
      (forall l' ts', l' <> l -> dll s l' ts' -> dll s' l' ts') /\
      list_remove (TaskNode t) s' = Stop NullPointer.
Proof.
  intros s l xs ys t Hd.
  destruct (list_remove_dll s l xs ys t Hd)
    as (s' & Hrun & Hd' & Hothers & _ & Hl' & Ho' & _).
  destruct (dll_remove_pre s l xs ys t Hd)
    as (Hl & Hn & Hp & Hvn & Hvp & Hvt & Hlen & Hnn & Hnp).
  pose proof (list_remove_run s l t _ _ _ Hl Hn Hp Hvn Hvp Hlen Hnn Hnp)
    as Hrun'.
  destruct (removed_views s l _ _ t _ Hvp Hvn Hvt Hlen Hnp Hnn)
    as (Vn & Vp & Vl & Vo & Vs & Vlen & Vt & Vc).
  match type of Vn with
  | forall x, nnext ?r x = _ =>
      assert (Hs' : s' = r) by (unfold removed; congruence)
  end.
  rewrite <- Hs' in Vn, Vp, Vlen.
  assert (Hn' : nnext s' (TaskNode t) = Some NullNode).
  { rewrite Vn, decide_True by reflexivity. reflexivity. }
  exists s'. split; [exact Hrun|]. split; [exact Hd'|].
  split; [|split; [exact Hn'|split; [|split; [exact Hl'|split; [|split]]]]].
  - rewrite Vlen, decide_True by reflexivity.
    rewrite to_length_t_pred. reflexivity.
  - rewrite Vp, decide_True by reflexivity. reflexivity.
  - rewrite Ho'. apply (dll_member s l _ t Hd).
    apply elem_of_app. right. left.
  - exact Hothers.
  - exact (list_remove_detached s' t _ Hl' Hn').
Qed.

(** A state is what its views show. *)
Lemma state_ext s s' :
  (forall n, nnext s' n = nnext s n) ->
  (forall n, nprev s' n = nprev s n) ->
  (forall a, nlist s' a = nlist s a) ->
  (forall a, nowner s' a = nowner s a) ->
  (forall a, statics s' a = statics s a) ->
  (forall l, llen s' l = llen s l) ->
  tick (librertos s') = tick (librertos s) ->
  current_task (librertos s') = current_task (librertos s) ->
  s' = s.
Proof.
  intros Hn Hp Hl Ho Hs Hlen Ht Hc.
  assert (Hlist : forall l, lookup_list l s' = lookup_list l s).
  { intros l. specialize (Hn (ListNode l)). specialize (Hp (ListNode l)).
    specialize (Hlen l). unfold nnext, nprev, llen in *.
    destruct (lookup_list l s') as [[h t n]|], (lookup_list l s) as [[h' t' n']|];
      simpl in *; congruence. }
  assert (Htasks : tasks s' = tasks s).
  { apply map_eq. intros a.
    specialize (Hn (TaskNode a)). specialize (Hp (TaskNode a)).
    specialize (Hl a). specialize (Ho a). specialize (Hs a).
    unfold nnext, nprev, nlist, nowner, statics in *.
    destruct (tasks s' !! a) as [[f p pr [nx pv li ow]]|],
      (tasks s !! a) as [[f' p' pr' [nx' pv' li' ow']]|];
      simpl in *; congruence. }
  assert (Hready : tasks_ready (librertos s') = tasks_ready (librertos s)).
  { apply list_eq. intros k. specialize (Hlist (Ready (Z.of_nat k))).
    unfold lookup_list in Hlist.
    replace (0 <=? Z.of_nat k) with true in Hlist
      by (symmetry; apply Z.leb_le; lia).
    rewrite Nat2Z.id in Hlist. exact Hlist. }
  assert (Hsusp : tasks_suspended (librertos s') = tasks_suspended (librertos s)).
  { specialize (Hlist Suspended). unfold lookup_list in Hlist. congruence. }
  destruct s as [[tk c r su] ts], s' as [[tk' c' r' su'] ts']. simpl in *.
  congruence.
Qed.

(** X11. Inserting a node and removing it again, and removing a node and
    inserting it back after its former predecessor, both leave the whole
    kernel state exactly as it was. *)
Theorem list_insert_and_remove_are_inverse :
  forall (s : state) (l : list_ptr) (xs ys : list Z) (t : Z),
    (dll s l (xs ++ ys) ->
     nnext s (TaskNode t) = Some NullNode ->
     nprev s (TaskNode t) = Some NullNode ->
     nlist s t = Some None -> nowner s t = Some (Some t) ->
     (list_insert_after l (lst_or xs (ListNode l)) (TaskNode t) ;;
      list_remove (TaskNode t)) s = Ok (tt, s)) /\
    (dll s l (xs ++ t :: ys) ->
     (list_remove (TaskNode t) ;;
      list_insert_after l (lst_or xs (ListNode l)) (TaskNode t)) s
     = Ok (tt, s)).
Proof.
  intros s l xs ys t. split.
  - intros Hd Hnx Hpv Hdet Hown.
    destruct (list_insert_after_dll s l xs ys t Hd Hdet Hown)
      as (s1 & Hrun1 & Hd1 & _).
    destruct (dll_insert_pre s l xs ys t Hd Hdet)
      as (Hlk1 & Hlk2 & Hvpos & Hvpn & Hvt & Hlen & Hpos & Hpn).
    destruct (inserted_views s l _ _ t _ Hvpos Hvpn Hvt Hlen Hpos Hpn)
      as (Vn & Vp & Vl & Vo & Vs & Vlen & Vt & Vc).
    match type of Vn with
    | forall x, nnext ?r x = _ =>
        assert (Hs1 : s1 = r)
          by (pose proof (list_insert_after_run s l _ _ t _ Hlk1 Hvpn Hvt
                            Hlen Hpos Hpn); unfold inserted; congruence)
    end.
    rewrite <- Hs1 in Vn, Vp, Vl, Vo, Vs, Vlen, Vt, Vc. clear Hs1.
    destruct (list_remove_dll s1 l xs ys t Hd1) as (s2 & Hrun2 & _).
    destruct (dll_remove_pre s1 l xs ys t Hd1)
      as (Hl' & Hn' & Hp' & Hvn' & Hvp' & Hvt' & Hlen' & Hnn' & Hnp').
    destruct (removed_views s1 l _ _ t _ Hvp' Hvn' Hvt' Hlen' Hnp' Hnn')
      as (Wn & Wp & Wl & Wo & Ws & Wlen & Wt & Wc).
    match type of Wn with
    | forall x, nnext ?r x = _ =>
        assert (Hs2 : s2 = r)
          by (pose proof (list_remove_run s1 l t _ _ _ Hl' Hn' Hp' Hvn' Hvp'
                            Hlen' Hnn' Hnp'); unfold removed; congruence)
    end.
    rewrite <- Hs2 in Wn, Wp, Wl, Wo, Ws, Wlen, Wt, Wc. clear Hs2.
    rewrite (bind_ok _ _ _ _ _ Hrun1), Hrun2. f_equal. f_equal.
    apply state_ext.
    + intros x. rewrite Wn, Vn. repeat case_decide; congruence.
    + intros x. rewrite Wp, Vp. repeat case_decide; congruence.
    + intros a. rewrite Wl, Vl. repeat case_decide; congruence.
    + intros a. rewrite Wo, Vo. reflexivity.
    + intros a. rewrite Ws, Vs. reflexivity.
    + intros l'. rewrite Wlen, Vlen. case_decide; [|reflexivity]. subst l'.
      rewrite Hlen, to_length_t_pred. f_equal. f_equal.
      rewrite !length_app. simpl. lia.
    + congruence.
    + congruence.
  - intros Hd.
    destruct (list_remove_dll s l xs ys t Hd)
      as (s1 & Hrun1 & Hd1 & _ & _ & Hdet1 & Hown1 & _).
    destruct (dll_remove_pre s l xs ys t Hd)
      as (Hl & Hn & Hp & Hvn & Hvp & Hvt & Hlen & Hnn & Hnp).
    destruct (removed_views s l _ _ t _ Hvp Hvn Hvt Hlen Hnp Hnn)
      as (Vn & Vp & Vl & Vo & Vs & Vlen & Vt & Vc).
    match type of Vn with
    | forall x, nnext ?r x = _ =>
        assert (Hs1 : s1 = r)
          by (pose proof (list_remove_run s l t _ _ _ Hl Hn Hp Hvn Hvp
                            Hlen Hnn Hnp); unfold removed; congruence)
    end.
    rewrite <- Hs1 in Vn, Vp, Vl, Vo, Vs, Vlen, Vt, Vc. clear Hs1.
    assert (Hown1' : nowner s1 t = Some (Some t)).
    { rewrite Hown1. apply (dll_member s l _ t Hd).
      apply elem_of_app. right. left. }
    destruct (list_insert_after_dll s1 l xs ys t Hd1 Hdet1 Hown1')
      as (s2 & Hrun2 & _).
    destruct (dll_insert_pre s1 l xs ys t Hd1 Hdet1)
      as (Hlk1 & Hlk2 & Hvpos & Hvpn & Hvt' & Hlen' & Hpos & Hpn).
    destruct (inserted_views s1 l _ _ t _ Hvpos Hvpn Hvt' Hlen' Hpos Hpn)
      as (Wn & Wp & Wl & Wo & Ws & Wlen & Wt & Wc).
    match type of Wn with
    | forall x, nnext ?r x = _ =>
        assert (Hs2 : s2 = r)
          by (pose proof (list_insert_after_run s1 l _ _ t _ Hlk1 Hvpn Hvt'
                            Hlen' Hpos Hpn); unfold inserted; congruence)
    end.
    rewrite <- Hs2 in Wn, Wp, Wl, Wo, Ws, Wlen, Wt, Wc. clear Hs2.
    rewrite (bind_ok _ _ _ _ _ Hrun1), Hrun2. f_equal. f_equal.
    destruct (dll_link s l xs (t :: ys) Hd) as [Hk1 Hk2]. simpl in Hk1, Hk2.
    assert (Hback : nprev s (fst_or ys (ListNode l)) = Some (TaskNode t)).
    { destruct (dll_link s l (xs ++ [t]) ys) as [_ Hb].
      - rewrite <- app_assoc. exact Hd.
      - rewrite lst_or_app in Hb. exact Hb. }
    apply state_ext.
    + intros x. rewrite Wn, Vn. repeat case_decide; congruence.
    + intros x. rewrite Wp, Vp. repeat case_decide; congruence.
    + intros a. rewrite Wl, Vl. repeat case_decide; congruence.
    + intros a. rewrite Wo, Vo. reflexivity.
    + intros a. rewrite Ws, Vs. reflexivity.
    + intros l'. rewrite Wlen, Vlen. case_decide; [|reflexivity]. subst l'.
      rewrite Hlen, to_length_t_succ. f_equal. f_equal.
      rewrite !length_app. simpl. lia.
    + congruence.
    + congruence.
Qed.

(** X12. On a well-linked list [list_get_first] returns the node of the
    first task and [list_get_last] that of the last; on an empty list
    both return the list itself, taken as a node, never a null pointer.
    [list_empty] tests the length field: as long as the number of tasks
    fits the type of the field it returns true exactly on the empty
    list.  None of the three changes the state. *)
Theorem list_queries_read_the_ends :
  forall (s : state) (l : list_ptr) (ts : list Z),
    dll s l ts ->
    list_get_first l s = Ok (fst_or ts (ListNode l), s) /\
    list_get_last l s = Ok (lst_or ts (ListNode l), s) /\
    (ts = [] ->
     list_get_first l s = Ok (ListNode l, s) /\
     list_get_last l s = Ok (ListNode l, s)) /\
    list_empty l s = Ok (to_length_t (Z.of_nat (length ts)) =? 0, s) /\
    (Z.of_nat (length ts) < 2 ^ Z.of_N LENGTH_BITS ->
     list_empty l s = Ok (bool_decide (ts = []), s)).
Proof.
  intros s l ts Hd.
  pose proof Hd as (Hh & Htl & Hlen & _).
  assert (Hf : list_get_first l s = Ok (fst_or ts (ListNode l), s))
    by (apply list_get_first_run; exact Hh).
  assert (Hla : list_get_last l s = Ok (lst_or ts (ListNode l), s)).
  { destruct (dll_tail s l ts Hd) as (v & Hv & Hvt).
    unfold list_get_last.
    rewrite (bind_ok _ _ s v s) by (unfold read_list; rewrite Hv; reflexivity).
    unfold ret. rewrite Hvt. reflexivity. }
  pose proof (list_empty_run s l _ Hlen) as He.
  split; [exact Hf|]. split; [exact Hla|]. split; [|split; [exact He|]].
  - intros ->. split; assumption.
  - intros Hfit. rewrite He. f_equal. f_equal.
    unfold to_length_t. rewrite Z.mod_small by lia.
    destruct ts as [|t ts]; [reflexivity|].
    rewrite bool_decide_eq_false_2 by discriminate.
    apply Z.eqb_neq. simpl length. lia.
Qed.

(** *** Further properties of the kernel calls *)

(** X13. [librertos_init] works from any content of the memory: it
    returns with the tick at 0, no current task, and every ready list
    and the suspended list empty; it does not touch the task records, and
    calling it again changes nothing.  With no task record written the
    state it leaves is well formed.  The counter of its loop is an
    [int8_t]: [NUM_PRIORITIES] is taken to be at most 127. *)
Theorem librertos_init_resets_the_kernel :
  forall s0 : state,
    NUM_PRIORITIES <= 127 ->
    exists s,
      librertos_init s0 = Ok (tt, s) /\
      get_tick s = Ok (0, s) /\
      get_current_task s = Ok (NULL, s) /\
      (forall l, valid_list l ->
                 dll s l [] /\ list_empty l s = Ok (true, s) /\
                 list_get_first l s = Ok (ListNode l, s)) /\
      length (tasks_ready (librertos s)) = Z.to_nat NUM_PRIORITIES /\
      tasks s = tasks s0 /\
      librertos_init s = Ok (tt, s) /\
      (tasks s0 = ∅ -> wf s).
Proof.
  intros s0 _. exists (init_state s0).
  split; [apply librertos_init_run|].
  split; [reflexivity|]. split; [reflexivity|].
  assert (Hd : forall l, valid_list l -> dll (init_state s0) l []).
  { intros l Hl. unfold dll, nnext, nprev, llen.
    rewrite (lookup_list_init_state s0 l Hl). simpl.
    repeat split; try reflexivity. constructor. }
  split; [|split; [|split; [reflexivity|split]]].
  - intros l Hl. split; [exact (Hd l Hl)|].
    destruct (Hd l Hl) as (Hh & _ & Hlen & _). split.
    + rewrite (list_empty_run _ _ _ Hlen). reflexivity.
    + apply list_get_first_run. exact Hh.
  - simpl. rewrite length_map, length_seq. reflexivity.
  - rewrite librertos_init_run. reflexivity.
  - intros He. exists (fun _ => []). apply Inv_init_state. exact He.
Qed.

Lemma create_task_run A s priority_ a func_ param_ :
  config_ok -> Inv A s -> tasks s !! a = None ->
  LOW_PRIORITY <= priority_ <= HIGH_PRIORITY ->
  exists s',
    librertos_create_task priority_ (Some a) func_ param_ s = Ok (tt, s') /\
    Inv (upd A (Ready priority_) (A (Ready priority_) ++ [a])) s' /\
    statics s' a = Some (func_, param_, priority_) /\
    (forall a', a' <> a -> statics s' a' = statics s a') /\
    tick (librertos s') = tick (librertos s) /\
    current_task (librertos s') = current_task (librertos s).
Proof.
  intros (Hc0 & Hc1 & Hc2 & _) HI Hfresh Hrange.
  pose proof (PInv_store_fresh A s priority_ func_ param_ a HI Hfresh Hrange)
    as HP.
  set (s1 := store_task a (fresh_task priority_ func_ param_ a) s) in *.
  assert (Hs1 : statics s1 a = Some (func_, param_, priority_)).
  { subst s1. autorewrite with views. rewrite decide_True by reflexivity.
    reflexivity. }
  destruct (PInv_insert_last A a s1 (Ready priority_) HP)
    as (s2 & Hrun & HI2 & Hst & Htick & Hcur).
  { simpl. lia. }
  { intros i f p pr [= <-] E. congruence. }
  exists s2. split; [|split; [exact HI2|]].
  - unfold librertos_create_task.
    replace ((priority_ >=? LOW_PRIORITY) && (priority_ <=? HIGH_PRIORITY))
      with true by (symmetry; apply andb_true_iff; lia).
    simpl.
    pose proof (create_prefix_run priority_ func_ param_ a s) as Hpre.
    unfold bind in *. fold s1 in Hpre.
    destruct (write_task a poison_task s) as [[[] sa]|]; [|discriminate].
    destruct (write_task a _ sa) as [[[] sb]|]; [|discriminate].
    rewrite Hpre. exact Hrun.
  - split; [rewrite Hst; exact Hs1|]. split; [|split].
    + intros a' Hne. rewrite Hst. subst s1. autorewrite with views.
      rewrite decide_False by exact Hne. reflexivity.
    + rewrite Htick. reflexivity.
    + rewrite Hcur. reflexivity.
Qed.

(** X14. [librertos_create_task] checks the priority before anything
    else: outside [LOW_PRIORITY .. HIGH_PRIORITY] it stops at the
    assertion with the priority as value, whatever the task pointer.
    With a priority in range and a task record not in use, in a
    well-formed state, it fills the record and puts the task at the back
    of the ready list of its priority; the other lists, the other task
    records, the tick and the current task are as they were. *)
Theorem create_task_appends_to_its_ready_list :
  forall (A : list_ptr -> list Z) (s : state) (priority_ a func_ param_ : Z),
    (~ LOW_PRIORITY <= priority_ <= HIGH_PRIORITY ->
     forall task : task_ptr,
       librertos_create_task priority_ task func_ param_ s
       = Stop (Assertion priority_)) /\
    (config_ok -> Inv A s -> tasks s !! a = None ->
     LOW_PRIORITY <= priority_ <= HIGH_PRIORITY ->
     exists s',
       librertos_create_task priority_ (Some a) func_ param_ s = Ok (tt, s') /\
       Inv (upd A (Ready priority_) (A (Ready priority_) ++ [a])) s' /\
       statics s' a = Some (func_, param_, priority_) /\
       (forall a', a' <> a -> statics s' a' = statics s a') /\
       tick (librertos s') = tick (librertos s) /\
       current_task (librertos s') = current_task (librertos s)).
Proof.
  intros A s priority_ a func_ param_. split.
  - intros Hout task. unfold librertos_create_task.
    replace ((priority_ >=? LOW_PRIORITY) && (priority_ <=? HIGH_PRIORITY))
      with false; [reflexivity|].
    symmetry. apply andb_false_iff.
    rewrite Z.geb_leb, !Z.leb_gt. lia.
  - apply create_task_run.
Qed.

Lemma task_suspend_run A s task a l xs ys :
  Inv A s ->
  match task with
  | Some _ => task
  | None => current_task (librertos s)
  end = Some a ->
  valid_list l -> A l = xs ++ a :: ys ->
  exists s',
    task_suspend task s = Ok (tt, s') /\
    Inv (upd (upd A l (xs ++ ys)) Suspended
             (a :: upd A l (xs ++ ys) Suspended)) s' /\
    same_static s s'.
Proof.
  intros HI Htask Hl HA.
  destruct (Inv_remove_at A s a l xs ys HI Hl HA) as (s1 & Hrun1 & HP & Hst1).
  destruct (PInv_insert_first _ a s1 Suspended HP I)
    as (s2 & Hrun2 & HI2 & Hst2).
  { intros; discriminate. }
  exists s2. split; [|split; [exact HI2|]].
  - unfold task_suspend.
    rewrite (bind_ok _ _ s (Some a) s).
    + simpl. rewrite (bind_ok _ _ _ _ _ Hrun1). exact Hrun2.
    + destruct task; simpl in *; [rewrite Htask; reflexivity|].
      unfold get_current_task_. rewrite Htask. reflexivity.
  - eapply same_static_trans; eassumption.
Qed.

(** X15. [task_suspend] takes the task, or the current task when it is
    given a null pointer, out of the list it is on and puts it at the
    front of the suspended list; a task that is already suspended moves to
    the front.  The order of the other tasks, the tick and the current
    task are as before: a task that suspends itself stays the current
    task until its function returns. *)
Theorem task_suspend_moves_to_suspended :
  forall (A : list_ptr -> list Z) (s : state) (task : task_ptr) (a : Z),
    Inv A s ->
    match task with
    | Some _ => task
    | None => current_task (librertos s)
    end = Some a ->
    is_Some (tasks s !! a) ->
    exists l xs ys s',
      valid_list l /\ A l = xs ++ a :: ys /\
      task_suspend task s = Ok (tt, s') /\
      Inv (upd (upd A l (xs ++ ys)) Suspended
               (a :: upd A l (xs ++ ys) Suspended)) s' /\
      tick (librertos s') = tick (librertos s) /\
      current_task (librertos s') = current_task (librertos s) /\
      (forall a', statics s' a' = statics s a').
Proof.
  intros A s task a HI Htask Ha.
  assert (Ha' : is_Some (statics s a)) by (apply statics_is_Some; exact Ha).
  destruct (I_member _ _ HI a Ha') as (l & Hl & _ & Hin).
  apply list_elem_of_split in Hin. destruct Hin as (xs & ys & HA).
  destruct (task_suspend_run A s task a l xs ys HI Htask Hl HA)
    as (s' & Hrun & HI' & Hst & Ht & Hc).
  exists l, xs, ys, s'.
  split; [exact Hl|]. split; [exact HA|]. split; [exact Hrun|].
  split; [exact HI'|]. split; [exact Ht|]. split; [exact Hc|exact Hst].
Qed.

Lemma task_resume_run_ready A s a tk :
  config_ok -> Inv A s -> tasks s !! a = Some tk ->
  a ∈ A (Ready (priority tk)) ->
  task_resume (Some a) s = Ok (tt, s).
Proof.
  intros (Hc0 & Hc1 & Hc2 & _) HI Htk Hin.
  pose proof (statics_lookup s a tk Htk) as Hs.
  pose proof (nlist_lookup s a tk Htk) as Hn.
  destruct (I_prio _ _ HI a _ _ _ Hs) as [Hrange _].
  assert (Hl : valid_list (Ready (priority tk))) by (simpl; lia).
  destruct (dll_member s _ _ a (I_dll _ _ HI _ Hl) Hin) as (Hnl & _).
  unfold task_resume.
  rewrite (bind_ok _ _ s tk s) by (unfold read_task; rewrite Htk; reflexivity).
  rewrite bool_decide_eq_true_2 by congruence. reflexivity.
Qed.

Lemma task_resume_run_suspended A s a tk xs ys :
  config_ok -> Inv A s -> tasks s !! a = Some tk ->
  A Suspended = xs ++ a :: ys ->
  exists s',
    task_resume (Some a) s = Ok (tt, s') /\
    Inv (upd (upd A Suspended (xs ++ ys)) (Ready (priority tk))
             (upd A Suspended (xs ++ ys) (Ready (priority tk)) ++ [a])) s' /\
    same_static s s'.
Proof.
  intros (Hc0 & Hc1 & Hc2 & _) HI Htk HA.
  pose proof (statics_lookup s a tk Htk) as Hs.
  pose proof (nlist_lookup s a tk Htk) as Hn.
  destruct (I_prio _ _ HI a _ _ _ Hs) as [Hrange _].
  assert (Hin : a ∈ A Suspended).
  { rewrite HA. apply elem_of_app. right. left. }
  destruct (dll_member s _ _ a (I_dll _ _ HI Suspended I) Hin) as (Hnl & _).
  destruct (Inv_remove_at A s a Suspended xs ys HI I HA)
    as (s1 & Hrun1 & HP & Hst1).
  destruct (PInv_insert_last _ a s1 (Ready (priority tk)) HP)
    as (s2 & Hrun2 & HI2 & Hst2).
  { simpl. lia. }
  { intros i f p pr [= <-] Hs1. destruct Hst1 as (Hst1 & _).
    rewrite Hst1, Hs in Hs1. congruence. }
  exists s2. split; [|split; [exact HI2|]].
  - unfold task_resume.
    rewrite (bind_ok _ _ s tk s) by (unfold read_task; rewrite Htk; reflexivity).
    rewrite bool_decide_eq_false_2 by congruence. simpl.
    rewrite (bind_ok _ _ _ _ _ Hrun1). exact Hrun2.
  - eapply same_static_trans; eassumption.
Qed.

(** X16. [task_resume] of a task that is on the ready list of its
    priority does nothing: the task keeps its place.  [task_resume] of a
    suspended task takes it out of the suspended list and puts it at the
    back of the ready list of its priority, and the order of the other
    tasks, the tick and the current task are as before. *)
Theorem task_resume_moves_to_ready :
  forall (A : list_ptr -> list Z) (s : state) (a : Z) (tk : task_t),
    config_ok -> Inv A s -> tasks s !! a = Some tk ->
    (a ∈ A (Ready (priority tk)) \/ a ∈ A Suspended) /\
    (a ∈ A (Ready (priority tk)) -> task_resume (Some a) s = Ok (tt, s)) /\
    (forall xs ys,
       A Suspended = xs ++ a :: ys ->
       exists s',
         task_resume (Some a) s = Ok (tt, s') /\
         Inv (upd (upd A Suspended (xs ++ ys)) (Ready (priority tk))
                  (A (Ready (priority tk)) ++ [a])) s' /\
         tick (librertos s') = tick (librertos s) /\
         current_task (librertos s') = current_task (librertos s) /\
         (forall a', statics s' a' = statics s a')).
Proof.
  intros A s a tk Hcfg HI Htk. split; [|split].
  - pose proof (statics_lookup s a tk Htk) as Hs.
    destruct (I_member _ _ HI a) as (l & Hl & Hnl & Hin); [rewrite Hs; eauto|].
    destruct l as [i|]; [left|right; exact Hin].
    destruct (I_prio _ _ HI a _ _ _ Hs) as [_ Hi].
    rewrite (Hi i Hnl). exact Hin.
  - apply (task_resume_run_ready A s a tk Hcfg HI Htk).
  - intros xs ys HA.
    destruct (task_resume_run_suspended A s a tk xs ys Hcfg HI Htk HA)
      as (s' & Hrun & HI' & Hst & Ht & Hc).
    exists s'. split; [exact Hrun|]. split; [|split; [exact Ht|split;
      [exact Hc|exact Hst]]].
    unfold upd at 3 in HI'. rewrite decide_False in HI' by discriminate.
    exact HI'.
Qed.

Lemma Inv_ext A A' s :
  (forall l, A' l = A l) -> Inv A s -> Inv A' s.
Proof.
  intros HA [Hdll Hmem Hprio Hcur]. constructor.
  - intros l Hl. rewrite HA. apply Hdll, Hl.
  - intros a Ha. destruct (Hmem a Ha) as (l & Hl & Hn & Hin).
    exists l. rewrite HA. auto.
  - exact Hprio.
  - exact Hcur.
Qed.

(** X17. Suspending a ready task and resuming it sends it to the back of
    the ready list of its priority: the tasks that were behind it now run
    before it.  Every other list, the suspended list included, is as it
    was. *)
Theorem task_suspend_then_resume_requeues :
  forall (A : list_ptr -> list Z) (s : state) (a : Z) (tk : task_t)
         (xs ys : list Z),
    config_ok -> Inv A s -> tasks s !! a = Some tk ->
    A (Ready (priority tk)) = xs ++ a :: ys ->
    exists s',
      (task_suspend (Some a) ;; task_resume (Some a)) s = Ok (tt, s') /\
      Inv (upd A (Ready (priority tk)) (xs ++ ys ++ [a])) s' /\
      tick (librertos s') = tick (librertos s) /\
      current_task (librertos s') = current_task (librertos s) /\
      (forall a', statics s' a' = statics s a').
Proof.
  intros A s a tk xs ys Hcfg HI Htk HA.
  pose proof (statics_lookup s a tk Htk) as Hs.
  destruct (I_prio _ _ HI a _ _ _ Hs) as [Hrange _].
  assert (Hl : valid_list (Ready (priority tk))).
  { destruct Hcfg as (? & ? & ? & _). simpl. lia. }
  destruct (task_suspend_run A s (Some a) a _ xs ys HI eq_refl Hl HA)
    as (s1 & Hrun1 & HI1 & Hst1 & Ht1 & Hc1).
  set (A1 := upd (upd A (Ready (priority tk)) (xs ++ ys)) Suspended
                 (a :: upd A (Ready (priority tk)) (xs ++ ys) Suspended))
    in *.
  assert (Htk1 : exists tk1, tasks s1 !! a = Some tk1 /\
                             priority tk1 = priority tk).
  { specialize (Hst1 a). rewrite Hs in Hst1. unfold statics in Hst1.
    destruct (tasks s1 !! a) as [tk1|]; [|discriminate].
    exists tk1. split; [reflexivity|]. simpl in Hst1. congruence. }
  destruct Htk1 as (tk1 & Htk1 & Hp1).
  assert (HA1 : A1 Suspended = [] ++ a :: A Suspended).
  { subst A1. rewrite upd_same. unfold upd.
    rewrite decide_False by discriminate. reflexivity. }
  destruct (task_resume_run_suspended A1 s1 a tk1 [] _ Hcfg HI1 Htk1 HA1)
    as (s2 & Hrun2 & HI2 & Hst2 & Ht2 & Hc2).
  exists s2. split; [|split; [|split; [congruence|split; [congruence|]]]].
  - rewrite (bind_ok _ _ _ _ _ Hrun1). exact Hrun2.
  - eapply Inv_ext; [|exact HI2].
    intros l. rewrite Hp1. subst A1. unfold upd.
    repeat case_decide; simplify_eq; simpl;
      rewrite <- ?app_assoc; try reflexivity; try congruence.
  - intros a'. rewrite Hst2. apply Hst1.
Qed.

(** *** Further properties of the scheduler and the tick *)

Lemma llen_0_empty A s l :
  Inv A s -> valid_list l ->
  Z.of_nat (length (A l)) < 2 ^ Z.of_N LENGTH_BITS ->
  llen s l = Some 0 -> A l = [].
Proof.
  intros HI Hl Hfit H0.
  destruct (I_dll _ _ HI l Hl) as (_ & _ & Hlen & _).
  rewrite Hlen in H0. injection H0 as H0.
  unfold to_length_t in H0. rewrite Z.mod_small in H0 by lia.
  destruct (A l); [reflexivity|simpl in H0; lia].
Qed.

Lemma sched_select_highest A s :
  config_ok -> Inv A s ->
  (forall l, valid_list l ->
             Z.of_nat (length (A l)) < 2 ^ Z.of_N LENGTH_BITS) ->
  (is_cooperative KERNEL_MODE = true -> current_task (librertos s) = None) ->
  ((forall j, current_priority s < j <= HIGH_PRIORITY -> A (Ready j) = []) /\
   sched_select s = Ok (None, s)) \/
  (exists i h rest s',
     current_priority s < i <= HIGH_PRIORITY /\
     A (Ready i) = h :: rest /\
     (forall j, i < j <= HIGH_PRIORITY -> A (Ready j) = []) /\
     sched_select s = Ok (Some (Some h, current_task (librertos s)), s') /\
     Inv (upd A (Ready i) (rest ++ [h])) s' /\
     current_task (librertos s') = Some h /\
     tick (librertos s') = tick (librertos s) /\
     (forall a, statics s' a = statics s a)).
Proof.
  intros Hcfg HI Hfit Hcoop.
  assert (Hcp : -1 <= current_priority s).
  { unfold current_priority.
    destruct (current_task (librertos s)) as [c|] eqn:Ec; [|lia].
    destruct (tasks s !! c) as [tk|] eqn:Etk; [|lia].
    pose proof (statics_lookup s c tk Etk) as Hs.
    destruct (I_prio _ _ HI c _ _ _ Hs) as [Hr _].
    destruct Hcfg as (? & _). lia. }
  assert (Hvalid : forall j, current_priority s < j <= HIGH_PRIORITY ->
                             valid_list (Ready j)).
  { intros j Hj. destruct Hcfg as (? & ? & ? & _). simpl. lia. }
  destruct (sched_select_Inv A s Hcfg HI)
    as [[Hrun [[Hc Hcur]|Hempty]]|
        (i & h & rest & s' & A' & Hi & HA & Hempty & _ & Hrun & HI' & HA'
           & Hother & Hcur' & Hst & Htick)].
  - exfalso. apply Hcur, Hcoop, Hc.
  - left. split; [|exact Hrun].
    intros j Hj. apply (llen_0_empty A s); auto.
  - right. exists i, h, rest, s'.
    split; [exact Hi|]. split; [exact HA|]. split.
    { intros j Hj.
      assert (Hv : valid_list (Ready j)) by (apply Hvalid; lia).
      apply (llen_0_empty A s); auto. }
    split; [exact Hrun|]. split; [|auto].
    eapply Inv_ext; [|exact HI']. intros l. unfold upd.
    case_decide; [subst l; symmetry; exact HA'|symmetry; apply Hother; assumption].
Qed.

(** In cooperative mode a call of [librertos_sched] made while a task
    runs returns at once. *)
Lemma sched_select_cooperative A s :
  config_ok -> Inv A s ->
  is_cooperative KERNEL_MODE = true -> current_task (librertos s) <> None ->
  sched_select s = Ok (None, s).
Proof.
  intros Hcfg HI Hc Hcur.
  destruct (sched_select_Inv A s Hcfg HI)
    as [[Hrun _]|(i & h & rest & s' & A' & _ & _ & _ & Hmode & _)].
  - exact Hrun.
  - exfalso. apply Hcur, Hmode, Hc.
Qed.

(** [librertos_sched] after the selection: one call of the function of
    the selected task, then the assignment to [current_task]. *)
Lemma librertos_sched_run call s h saved s1 f p pr :
  sched_select s = Ok (Some (Some h, saved), s1) ->
  statics s1 h = Some (f, p, pr) ->
  librertos_sched call s = (call f p ;; set_current_task saved) s1.
Proof.
  intros Hsel Hs. unfold librertos_sched.
  rewrite (bind_ok _ _ _ _ _ Hsel).
  unfold statics in Hs.
  destruct (tasks s1 !! h) as [tk|] eqn:Etk; [|discriminate].
  simpl in Hs. injection Hs as <- <- <-.
  rewrite (bind_ok _ _ s1 tk s1) by (unfold read_task; rewrite Etk; reflexivity).
  reflexivity.
Qed.

(** C5, as the code has it. One call of [librertos_sched] runs at most one
    task function.  In cooperative mode with a task running, or with
    every ready list above the priority of the interrupted task empty, it
    runs none and returns with the state unchanged.  Otherwise it selects
    the first task of the non-empty ready list of highest priority above
    that of the interrupted task, calls the function of that task once,
    and when the function returns sets [current_task] back and returns,
    whatever the function has made ready meanwhile: it does not look at
    the ready lists again.  The lists are taken to hold fewer tasks than
    their length field can count. *)
Theorem sched_runs_at_most_one_task :
  forall (A : list_ptr -> list Z) (s : state) (call : Z -> Z -> K unit),
    config_ok -> Inv A s ->
    (forall l, valid_list l ->
               Z.of_nat (length (A l)) < 2 ^ Z.of_N LENGTH_BITS) ->
    ((is_cooperative KERNEL_MODE = true /\
      current_task (librertos s) <> None \/
      forall j, current_priority s < j <= HIGH_PRIORITY -> A (Ready j) = []) /\
     librertos_sched call s = Ok (tt, s)) \/
    (exists i h rest f p s1,
       (is_cooperative KERNEL_MODE = true ->
        current_task (librertos s) = None) /\
       current_priority s < i <= HIGH_PRIORITY /\
       A (Ready i) = h :: rest /\
       (forall j, i < j <= HIGH_PRIORITY -> A (Ready j) = []) /\
       statics s h = Some (f, p, i) /\
       sched_select s = Ok (Some (Some h, current_task (librertos s)), s1) /\
       Inv (upd A (Ready i) (rest ++ [h])) s1 /\
       current_task (librertos s1) = Some h /\
       librertos_sched call s
       = (call f p ;; set_current_task (current_task (librertos s))) s1 /\
       (forall s2,
          call f p s1 = Ok (tt, s2) ->
          librertos_sched call s
          = Ok (tt, upd_current (current_task (librertos s)) s2))).
Proof.
  intros A s call Hcfg HI Hfit.
  assert (Hd : is_cooperative KERNEL_MODE = true /\
               current_task (librertos s) <> None \/
               (is_cooperative KERNEL_MODE = true ->
                current_task (librertos s) = None)).
  { destruct (is_cooperative KERNEL_MODE);
      [|right; intros H; discriminate H].
    destruct (current_task (librertos s));
      [left; split; [reflexivity|discriminate]|right; reflexivity]. }
  destruct Hd as [[Hc Hcur]|Hmode].
  { left. split; [left; split; assumption|].
    unfold librertos_sched.
    rewrite (bind_ok _ _ _ _ _ (sched_select_cooperative A s Hcfg HI Hc Hcur)).
    reflexivity. }
  destruct (sched_select_highest A s Hcfg HI Hfit Hmode)
    as [[Hempty Hrun]|
        (i & h & rest & s1 & Hi & HA & Hhigh & Hrun & HI1 & Hcur1 & _ & Hst)].
  - left. split; [right; exact Hempty|].
    unfold librertos_sched. rewrite (bind_ok _ _ _ _ _ Hrun). reflexivity.
  - right.
    assert (Hl : valid_list (Ready i)).
    { assert (Hcp : -1 <= current_priority s).
      { unfold current_priority.
        destruct (current_task (librertos s)) as [c|] eqn:Ec; [|lia].
        destruct (tasks s !! c) as [tk|] eqn:Etk; [|lia].
        pose proof (statics_lookup s c tk Etk) as Hs.
        destruct (I_prio _ _ HI c _ _ _ Hs) as [Hr _].
        destruct Hcfg as (? & _). lia. }
      destruct Hcfg as (? & ? & ? & _). simpl. lia. }
    assert (Hin : h ∈ A (Ready i)) by (rewrite HA; left).
    destruct (dll_member s _ _ h (I_dll _ _ HI _ Hl) Hin) as (Hnl & _).
    assert (Hh : is_Some (statics s h)) by (apply nlist_statics; eauto).
    destruct Hh as [[[f p] pr] Hs].
    destruct (I_prio _ _ HI h _ _ _ Hs) as [_ Hp].
    assert (Epr : pr = i) by (apply Hp; exact Hnl). subst pr.
    assert (Hrun' : librertos_sched call s
                    = (call f p ;;
                       set_current_task (current_task (librertos s))) s1).
    { apply (librertos_sched_run call s h _ s1 f p i Hrun).
      rewrite Hst. exact Hs. }
    exists i, h, rest, f, p, s1.
    split; [exact Hmode|]. split; [exact Hi|]. split; [exact HA|].
    split; [exact Hhigh|]. split; [exact Hs|]. split; [exact Hrun|].
    split; [exact HI1|]. split; [exact Hcur1|]. split; [exact Hrun'|].
    intros s2 Hcall. rewrite Hrun'.
    rewrite (bind_ok _ _ _ _ _ Hcall). apply set_current_task_run.
Qed.

(** X18. In cooperative mode, while a task runs, [librertos_sched]
    selects nothing, whatever is ready, and leaves the state as it is.
    Otherwise (preemptive mode, or no task running), among the ready
    lists above the priority of the current task (all of them when no
    task runs) it takes the non-empty one of highest priority and selects
    its first task; that task goes to the back of its list, so that the
    tasks of one priority take turns, and becomes the current task; with
    all those lists empty it selects nothing and leaves the state as it
    is.  The lists are taken to hold fewer tasks than their length field
    can count. *)
Theorem sched_selects_first_of_highest_ready :
  forall (A : list_ptr -> list Z) (s : state),
    config_ok -> Inv A s ->
    (forall l, valid_list l ->
               Z.of_nat (length (A l)) < 2 ^ Z.of_N LENGTH_BITS) ->
    (is_cooperative KERNEL_MODE = true ->
     current_task (librertos s) <> None ->
     sched_select s = Ok (None, s)) /\
    ((is_cooperative KERNEL_MODE = true ->
      current_task (librertos s) = None) ->
     ((forall j, current_priority s < j <= HIGH_PRIORITY ->
                 A (Ready j) = []) /\
      sched_select s = Ok (None, s)) \/
     (exists i h rest s',
        current_priority s < i <= HIGH_PRIORITY /\
        A (Ready i) = h :: rest /\
        (forall j, i < j <= HIGH_PRIORITY -> A (Ready j) = []) /\
        sched_select s
        = Ok (Some (Some h, current_task (librertos s)), s') /\
        Inv (upd A (Ready i) (rest ++ [h])) s' /\
        current_task (librertos s') = Some h /\
        tick (librertos s') = tick (librertos s) /\
        (forall a, statics s' a = statics s a))).
Proof.
  intros A s Hcfg HI Hfit. split.
  - intros Hc Hcur. apply (sched_select_cooperative A); assumption.
  - intros Hmode. apply sched_select_highest; assumption.
Qed.

Lemma sched_one_round A s call i h rest :
  config_ok -> Inv A s ->
  (forall l, valid_list l ->
             Z.of_nat (length (A l)) < 2 ^ Z.of_N LENGTH_BITS) ->
  current_task (librertos s) = None ->
  (forall f p s1, call f p s1 = Ok (tt, s1)) ->
  0 <= i <= HIGH_PRIORITY ->
  A (Ready i) = h :: rest ->
  (forall j, i < j <= HIGH_PRIORITY -> A (Ready j) = []) ->
  exists s1 s',
    sched_select s = Ok (Some (Some h, None), s1) /\
    librertos_sched call s = Ok (tt, s') /\
    Inv (upd A (Ready i) (rest ++ [h])) s' /\
    current_task (librertos s') = None /\
    tick (librertos s') = tick (librertos s) /\
    (forall a, statics s' a = statics s a).
Proof.
  intros Hcfg HI Hfit Hcur Hcall Hi HA Hhigh.
  assert (Hcp : current_priority s = -1).
  { unfold current_priority. rewrite Hcur. reflexivity. }
  destruct (sched_select_highest A s Hcfg HI Hfit (fun _ => Hcur))
    as [[Hnone _]|(i' & h' & rest' & s1 & Hi' & HA' & Hhigh' & Hrun & HI1
                     & Hcur1 & Htick1 & Hst1)].
  { rewrite Hnone in HA by lia. discriminate. }
  assert (i' = i).
  { destruct (Z.lt_trichotomy i' i) as [Hlt|[Heq|Hgt]]; [|exact Heq|].
    - rewrite Hhigh' in HA by lia. discriminate.
    - rewrite Hhigh in HA' by lia. discriminate. }
  subst i'. rewrite HA in HA'. injection HA' as <- <-.
  rewrite Hcur in Hrun.
  assert (Hh : is_Some (tasks s1 !! h)).
  { apply statics_is_Some. rewrite Hst1. apply statics_is_Some.
    assert (Hl : valid_list (Ready i)).
    { destruct Hcfg as (? & ? & ? & _). simpl. lia. }
    assert (Hin : h ∈ A (Ready i)) by (rewrite HA; left).
    destruct (dll_member s _ _ h (I_dll _ _ HI _ Hl) Hin) as (Hnl & _).
    apply statics_is_Some, nlist_statics. eauto. }
  destruct Hh as [tkh Htkh].
  exists s1, (upd_current None s1).
  split; [exact Hrun|]. split; [|split; [|split; [reflexivity|split]]].
  - unfold librertos_sched. rewrite (bind_ok _ _ _ _ _ Hrun).
    rewrite (bind_ok _ _ s1 tkh s1)
      by (unfold read_task; rewrite Htkh; reflexivity).
    rewrite (bind_ok _ _ _ _ _ (Hcall _ _ s1)).
    apply set_current_task_run.
  - apply Inv_upd_current; [exact HI1|exact I].
  - exact Htick1.
  - intros a. autorewrite with views. apply Hst1.
Qed.

Lemma sched_rounds call i :
  config_ok ->
  (forall f p s1, call f p s1 = Ok (tt, s1)) ->
  0 <= i <= HIGH_PRIORITY ->
  forall k ts A s,
    Inv A s ->
    (forall l, valid_list l ->
               Z.of_nat (length (A l)) < 2 ^ Z.of_N LENGTH_BITS) ->
    current_task (librertos s) = None ->
    A (Ready i) = ts ->
    (forall j, i < j <= HIGH_PRIORITY -> A (Ready j) = []) ->
    (k <= length ts)%nat ->
    exists s',
      sched_calls call k s = Ok (tt, s') /\
      Inv (upd A (Ready i) (drop k ts ++ take k ts)) s' /\
      current_task (librertos s') = None /\
      tick (librertos s') = tick (librertos s) /\
      (forall a, statics s' a = statics s a).
Proof.
  intros Hcfg Hcall Hi.
  induction k as [|k IH]; intros ts A s HI Hfit Hcur HA Hhigh Hk.
  - exists s. split; [reflexivity|]. split; [|auto].
    eapply Inv_ext; [|exact HI]. intros l. unfold upd.
    case_decide; [subst l|reflexivity].
    rewrite drop_0, take_0, app_nil_r. symmetry. exact HA.
  - destruct ts as [|h rest]; [simpl in Hk; lia|]. simpl in Hk.
    destruct (sched_one_round A s call i h rest Hcfg HI Hfit Hcur Hcall Hi
                HA Hhigh)
      as (s0 & s1 & _ & Hrun1 & HI1 & Hcur1 & Htick1 & Hst1).
    destruct (IH (rest ++ [h]) _ s1 HI1) as (s' & Hrun & HI' & Hcur' & Htick'
                                              & Hst').
    + intros l Hl. unfold upd. case_decide; [|apply Hfit, Hl]. subst l.
      specialize (Hfit _ Hl). rewrite HA in Hfit.
      rewrite length_app. simpl length in *. lia.
    + exact Hcur1.
    + apply upd_same.
    + intros j Hj. unfold upd. rewrite decide_False by (intros [= ->]; lia).
      apply Hhigh, Hj.
    + rewrite length_app. simpl. lia.
    + exists s'. split; [|split; [|split; [exact Hcur'|split]]].
      * simpl. rewrite (bind_ok _ _ _ _ _ Hrun1). exact Hrun.
      * eapply Inv_ext; [|exact HI']. intros l. unfold upd.
        case_decide; [|reflexivity].
        rewrite drop_app_le, take_app_le by lia. simpl.
        rewrite <- app_assoc. reflexivity.
      * congruence.
      * intros a. rewrite Hst'. apply Hst1.
Qed.

(** X19. Round robin.  With no task running and task functions that
    return without a kernel call, successive calls of [librertos_sched]
    run the tasks of the highest-priority non-empty ready list one after
    the other in the order of the list: the call after [k] calls selects
    the task at position [k], and after as many calls as the list has
    tasks the list is in its first order again.  The tasks of the lower
    priorities are not run, and their lists, the tick and the task
    records are as they were.  The lists are taken to hold fewer tasks
    than their length field can count. *)
Theorem sched_round_robin :
  forall (A : list_ptr -> list Z) (s : state) (call : Z -> Z -> K unit)
         (i : Z) (ts : list Z) (k : nat),
    config_ok -> Inv A s ->
    (forall l, valid_list l ->
               Z.of_nat (length (A l)) < 2 ^ Z.of_N LENGTH_BITS) ->
    current_task (librertos s) = None ->
    (forall f p s1, call f p s1 = Ok (tt, s1)) ->
    0 <= i <= HIGH_PRIORITY ->
    A (Ready i) = ts ->
    (forall j, i < j <= HIGH_PRIORITY -> A (Ready j) = []) ->
    (k <= length ts)%nat ->
    exists s',
      sched_calls call k s = Ok (tt, s') /\
      Inv (upd A (Ready i) (drop k ts ++ take k ts)) s' /\
      (k = length ts -> Inv A s') /\
      (forall h, ts !! k = Some h ->
                 exists s'', sched_select s' = Ok (Some (Some h, None), s'')) /\
      current_task (librertos s') = None /\
      tick (librertos s') = tick (librertos s) /\
      (forall a, statics s' a = statics s a).
Proof.
  intros A s call i ts k Hcfg HI Hfit Hcur Hcall Hi HA Hhigh Hk.
  destruct (sched_rounds call i Hcfg Hcall Hi k ts A s HI Hfit Hcur HA
              Hhigh Hk) as (s' & Hrun & HI' & Hcur' & Htick' & Hst').
  exists s'. split; [exact Hrun|]. split; [exact HI'|].
  split; [|split; [|auto]].
  - intros ->. eapply Inv_ext; [|exact HI']. intros l. unfold upd.
    case_decide; [subst l|reflexivity].
    rewrite drop_all, take_ge by lia. simpl. exact HA.
  - intros h Hh.
    assert (Hd : drop k ts ++ take k ts = h :: (drop (S k) ts ++ take k ts)).
    { rewrite (drop_S ts h k Hh). reflexivity. }
    destruct (sched_one_round _ s' call i h (drop (S k) ts ++ take k ts)
                Hcfg HI') as (s1 & _ & Hsel & _).
    + intros l Hl. unfold upd. case_decide; [|apply Hfit, Hl]. subst l.
      specialize (Hfit _ Hl). rewrite HA in Hfit.
      rewrite length_app, length_drop, length_take. lia.
    + exact Hcur'.
    + exact Hcall.
    + exact Hi.
    + rewrite upd_same. exact Hd.
    + intros j Hj. unfold upd. rewrite decide_False by (intros [= ->]; lia).
      apply Hhigh, Hj.
    + exists s1. exact Hsel.
Qed.

Lemma tick_interrupts_run n :
  forall s,
    tick_interrupts n s
    = Ok (tt, match n with
              | O => s
              | S _ => upd_tick (to_tick_t (tick (librertos s) + Z.of_nat n)) s
              end).
Proof.
  induction n as [|n IH]; intros s; [reflexivity|].
  simpl tick_interrupts.
  rewrite (bind_ok _ _ _ _ _ (librertos_tick_interrupt_run s)), IH.
  destruct n as [|n].
  - reflexivity.
  - f_equal. f_equal. unfold upd_tick. simpl. f_equal. f_equal.
    unfold to_tick_t. rewrite Zplus_mod_idemp_l. f_equal. lia.
Qed.

(** X20. The tick count overflows, as the comment of [get_tick] notes:
    after [n] tick interrupts [get_tick] returns the former count plus
    [n] modulo two to the width of [tick_t], so that after that many
    interrupts it is back at its former value, and the difference of two
    readings, taken in [tick_t], is the number of interrupts between them
    as long as that number fits [tick_t].  The interrupts change nothing
    but the tick. *)
Theorem tick_count_wraps_around :
  forall (s : state) (n : nat),
    0 <= tick (librertos s) < 2 ^ Z.of_N TICK_BITS ->
    exists s',
      tick_interrupts n s = Ok (tt, s') /\
      get_tick s'
      = Ok ((tick (librertos s) + Z.of_nat n) mod 2 ^ Z.of_N TICK_BITS, s') /\
      (Z.of_nat n = 2 ^ Z.of_N TICK_BITS -> s' = s) /\
      (Z.of_nat n < 2 ^ Z.of_N TICK_BITS ->
       to_tick_t (tick (librertos s') - tick (librertos s)) = Z.of_nat n) /\
      s' = upd_tick (tick (librertos s')) s.
Proof.
  intros s n Hrange.
  assert (Hpos : 0 < 2 ^ Z.of_N TICK_BITS) by lia.
  assert (Ht : exists s',
    tick_interrupts n s = Ok (tt, s') /\
    s' = upd_tick (to_tick_t (tick (librertos s) + Z.of_nat n)) s).
  { rewrite tick_interrupts_run. eexists. split; [reflexivity|].
    destruct n as [|n]; [|reflexivity].
    destruct s as [[tk c r su] ts]. unfold upd_tick, to_tick_t. simpl in *.
    rewrite Z.add_0_r, Z.mod_small by lia. reflexivity. }
  destruct Ht as (s' & Hrun & Hs').
  exists s'. split; [exact Hrun|]. rewrite Hs'.
  split; [reflexivity|]. split; [|split].
  - intros Hn. destruct s as [[tk c r su] ts].
    unfold upd_tick, to_tick_t. simpl in *. rewrite Hn.
    rewrite <- (Z.mul_1_l (2 ^ Z.of_N TICK_BITS)) at 1.
    rewrite Z.mod_add by lia. rewrite Z.mod_small by lia. reflexivity.
  - intros Hn. simpl. unfold to_tick_t.
    rewrite Zminus_mod_idemp_l.
    replace (tick (librertos s) + Z.of_nat n - tick (librertos s))
      with (Z.of_nat n) by lia.
    apply Z.mod_small. lia.
  - reflexivity.
Qed.

(** X21. In every state the kernel can reach, each ready list and the
    suspended list is a well-linked circular list whose length field
    counts its tasks; every task record is on exactly one of them, the
    ready list of its priority or the suspended list, with its node
    naming that list; the priorities are within [LOW_PRIORITY ..
    HIGH_PRIORITY]; and the current task, and every task interrupted by
    a call of [librertos_sched] under way, is null or a created task. *)
Theorem reachable_states_are_well_formed :
  forall (s : state) (stack : list task_ptr),
    config_ok -> reachable s stack ->
    exists A : list_ptr -> list Z,
      (forall l, valid_list l -> dll s l (A l)) /\
      (forall a tk,
         tasks s !! a = Some tk ->
         LOW_PRIORITY <= priority tk <= HIGH_PRIORITY /\
         exists l,
           (l = Ready (priority tk) \/ l = Suspended) /\
           node_list (sched_node tk) = Some l /\
           node_owner (sched_node tk) = Some a /\
           a ∈ A l) /\
      (forall a l1 l2,
         valid_list l1 -> valid_list l2 -> a ∈ A l1 -> a ∈ A l2 -> l1 = l2) /\
      (forall a l, valid_list l -> a ∈ A l -> is_Some (tasks s !! a)) /\
      (forall c, current_task (librertos s) = Some c ->
                 is_Some (tasks s !! c)) /\
      Forall (fun t => match t with
                       | Some c => is_Some (tasks s !! c)
                       | None => True
                       end) stack.
Proof.
  intros s stack Hcfg Hr.
  destruct (reachable_wf s stack Hcfg Hr) as [[A HI] Hstack].
  exists A. split; [exact (I_dll _ _ HI)|]. split; [|split; [|split; [|split]]].
  - intros a tk Htk.
    pose proof (statics_lookup s a tk Htk) as Hs.
    pose proof (nlist_lookup s a tk Htk) as Hn.
    destruct (I_prio _ _ HI a _ _ _ Hs) as [Hrange Hready].
    split; [exact Hrange|].
    destruct (I_member _ _ HI a) as (l & Hl & Hnl & Hin); [rewrite Hs; eauto|].
    exists l. split; [|split; [congruence|split; [|exact Hin]]].
    + destruct l as [i|]; [left|right; reflexivity].
      rewrite (Hready i Hnl). reflexivity.
    + destruct (dll_member s l _ a (I_dll _ _ HI l Hl) Hin) as (_ & Ho & _).
      unfold nowner in Ho. rewrite Htk in Ho. simpl in Ho. congruence.
  - intros a l1 l2 Hl1 Hl2 H1 H2.
    destruct (dll_member s l1 _ a (I_dll _ _ HI l1 Hl1) H1) as (E1 & _).
    destruct (dll_member s l2 _ a (I_dll _ _ HI l2 Hl2) H2) as (E2 & _).
    congruence.
  - intros a l Hl Hin.
    destruct (dll_member s l _ a (I_dll _ _ HI l Hl) Hin) as (E & _).
    apply statics_is_Some, nlist_statics. eauto.
  - intros c Hc. apply statics_is_Some. exact (I_cur _ _ HI c Hc).
  - eapply Forall_impl; [exact Hstack|].
    intros [c|]; simpl; [|auto]. apply statics_is_Some.
Qed.

(** X22. In every state the kernel can reach, the kernel calls follow no
    null or dangling pointer and index no ready list out of range:
    [task_suspend] and [task_resume] of a created task return, so does
    [librertos_create_task] with a priority in range and a record not in
    use, and so does [librertos_sched] when the task function it calls
    returns. *)
Theorem reachable_states_are_safe :
  forall (s : state) (stack : list task_ptr),
    config_ok -> reachable s stack ->
    (forall a, is_Some (tasks s !! a) ->
       (exists s', task_suspend (Some a) s = Ok (tt, s')) /\
       (exists s', task_resume (Some a) s = Ok (tt, s'))) /\
    (current_task (librertos s) <> None ->
     exists s', task_suspend NULL s = Ok (tt, s')) /\
    (forall priority_ a func_ param_,
       tasks s !! a = None ->
       LOW_PRIORITY <= priority_ <= HIGH_PRIORITY ->
       exists s',
         librertos_create_task priority_ (Some a) func_ param_ s
         = Ok (tt, s')) /\
    (exists r s', sched_select s = Ok (r, s')) /\
    (forall call : Z -> Z -> K unit,
       (forall f p s1, exists s2, call f p s1 = Ok (tt, s2)) ->
       exists s', librertos_sched call s = Ok (tt, s')).
Proof.
  intros s stack Hcfg Hr.
  destruct (reachable_wf s stack Hcfg Hr) as [[A HI] _].
  assert (Hsel : exists r s', sched_select s = Ok (r, s') /\
                   match r with
                   | Some (task, _) =>
                       exists h, task = Some h /\ is_Some (tasks s' !! h)
                   | None => True
                   end).
  { destruct (sched_select_Inv A s Hcfg HI)
      as [[Hrun _]|
          (i & h & rest & s' & A' & Hi & HA & _ & _ & Hrun & HI' & HA' & _
             & Hcur' & _)].
    - exists None, s. split; [exact Hrun|exact I].
    - eexists _, s'. split; [exact Hrun|]. exists h. split; [reflexivity|].
      apply statics_is_Some. apply (I_cur _ _ HI' h Hcur'). }
  split; [|split; [|split; [|split]]].
  - intros a Ha. apply statics_is_Some in Ha. split.
    + destruct (task_suspend_Inv A s (Some a) a HI eq_refl Ha)
        as (s' & _ & Hrun & _).
      exists s'. exact Hrun.
    + destruct (task_resume_Inv A s a Hcfg HI Ha) as (s' & _ & Hrun & _).
      exists s'. exact Hrun.
  - intros Hc. destruct (current_task (librertos s)) as [c|] eqn:Ec;
      [|congruence].
    destruct (task_suspend_Inv A s NULL c HI Ec (I_cur _ _ HI c Ec))
      as (s' & _ & Hrun & _).
    exists s'. exact Hrun.
  - intros priority_ a func_ param_ Hfresh Hrange.
    destruct (librertos_create_task_Inv A s priority_ a func_ param_ Hcfg HI
                Hfresh Hrange) as (s' & _ & Hrun & _).
    exists s'. exact Hrun.
  - destruct Hsel as (r & s' & Hrun & _). exists r, s'. exact Hrun.
  - intros call Hcall. destruct Hsel as (r & s1 & Hrun & Hr1).
    unfold librertos_sched. rewrite (bind_ok _ _ _ _ _ Hrun).
    destruct r as [[task saved]|]; [|exists s1; reflexivity].
    destruct Hr1 as (h & -> & [tkh Htkh]).
    rewrite (bind_ok _ _ s1 tkh s1)
      by (unfold read_task; rewrite Htkh; reflexivity).
    destruct (Hcall (func tkh) (param tkh) s1) as [s2 Hc2].
    rewrite (bind_ok _ _ _ _ _ Hc2).
    eexists. apply set_current_task_run.
Qed.

(** X23. [librertos_sched] runs ready tasks only: in a well-formed state
    the task it selects is on the ready list of its own priority, so a
    suspended task is never selected, whatever its priority. *)
Theorem sched_never_selects_a_suspended_task :
  forall (A : list_ptr -> list Z) (s s' : state) (task saved : task_ptr),
    config_ok -> Inv A s ->
    sched_select s = Ok (Some (task, saved), s') ->
    exists h tk,
      task = Some h /\ tasks s !! h = Some tk /\
      h ∈ A (Ready (priority tk)) /\
      node_list (sched_node tk) = Some (Ready (priority tk)) /\
      h ∉ A Suspended.
Proof.
  intros A s s' task saved Hcfg HI Hrun.
  destruct (sched_select_Inv A s Hcfg HI)
    as [[Hnone _]|
        (i & h & rest & s1 & A' & Hi & HA & _ & _ & Hrun' & _)].
  { rewrite Hrun in Hnone. discriminate. }
  rewrite Hrun in Hrun'. injection Hrun' as -> -> ->.
  assert (Hcp : -1 <= current_priority s).
  { unfold current_priority.
    destruct (current_task (librertos s)) as [c|] eqn:Ec; [|lia].
    destruct (tasks s !! c) as [tk|] eqn:Etk; [|lia].
    pose proof (statics_lookup s c tk Etk) as Hs.
    destruct (I_prio _ _ HI c _ _ _ Hs) as [Hr _].
    destruct Hcfg as (? & _). lia. }
  assert (Hl : valid_list (Ready i)).
  { destruct Hcfg as (? & ? & ? & _). simpl. lia. }
  assert (Hin : h ∈ A (Ready i)) by (rewrite HA; left).
  destruct (dll_member s _ _ h (I_dll _ _ HI _ Hl) Hin) as (Hnl & _).
  assert (Hh : is_Some (tasks s !! h)).
  { apply statics_is_Some, nlist_statics. eauto. }
  destruct Hh as [tk Htk].
  pose proof (statics_lookup s h tk Htk) as Hs.
  pose proof (nlist_lookup s h tk Htk) as Hn.
  destruct (I_prio _ _ HI h _ _ _ Hs) as [_ Hp].
  assert (Epr : priority tk = i) by (apply Hp; exact Hnl).
  exists h, tk. rewrite Epr. split; [reflexivity|]. split; [exact Htk|].
  split; [exact Hin|]. split; [congruence|].
  intros Hsusp.
  destruct (dll_member s _ _ h (I_dll _ _ HI Suspended I) Hsusp) as (Hnl' & _).
  congruence.
Qed.

End WithConfig.

(** *** A concrete kernel

    Four priorities, 0 the lowest and 3 the highest, preemptive, 16-bit
    ticks and an 8-bit list length. *)

(** The memory before [librertos_init]: no task record written. *)
Definition boot : state :=
  {| librertos := {| tick := poison_Z; current_task := poison_task_ptr;
                     tasks_ready := []; tasks_suspended := poison_list |};
     tasks := ∅ |}.

(** The state [m] leaves when it returns. *)
Definition after {A} (m : K A) (s : state) : state :=
  match m s with
  | Ok (_, s') => s'
  | Stop _ => s
  end.

(** A task function that returns at once. *)
Definition no_call : Z -> Z -> K unit := fun _ _ => ret tt.

(** After [librertos_init]; with task 100 at priority 0; with task 200 at
    priority 1 as well; and with task 200 selected by [librertos_sched]
    and running. *)
Definition k_init : state := after (librertos_init 4) boot.
Definition k_one : state :=
  after (librertos_create_task 0 3 8 0 (Some 100) 1 0) k_init.
Definition k_two : state :=
  after (librertos_create_task 0 3 8 1 (Some 200) 2 0) k_one.
Definition k_running : state :=
  after (sched_select 3 LIBRERTOS_PREEMPTIVE 8) k_two.

(** Task 100 created and then pended: its scheduler node is off the ready
    list, and the task is on a wait list with wake tick 1. *)
Definition sys_pended : system :=
  {| kernel := after (list_remove 8 (TaskNode 100)) k_one;
     wait_list := [{| pended_task := 100; wake_tick := 1 |}] |}.

(** *** Further concrete states

    Task 300 of priority 1 created after tasks 100 and 200; the contents
    of the lists after each creation; and task 200 taken out of its
    list. *)
Definition k_three : state :=
  after (librertos_create_task 0 3 8 1 (Some 300) 3 0) k_two.

Definition k_detached : state := after (list_remove 8 (TaskNode 200)) k_two.

(** The record of task 200 once it is on its ready list. *)
Definition task_200 : task_t :=
  Eval vm_compute in default poison_task (tasks k_two !! 200).

(** The same once task 300 is behind it. *)
Definition task_200_first : task_t :=
  Eval vm_compute in default poison_task (tasks k_three !! 200).

Definition lists_init : list_ptr -> list Z := fun _ => [].
Definition lists_one : list_ptr -> list Z := upd lists_init (Ready 0) [100].
Definition lists_two : list_ptr -> list Z := upd lists_one (Ready 1) [200].
Definition lists_three : list_ptr -> list Z :=
  upd lists_two (Ready 1) (lists_two (Ready 1) ++ [300]).

Lemma config_ok_demo : config_ok 4 0 3.
Proof. unfold config_ok. lia. Qed.

Lemma reachable_k_two : reachable 4 0 3 LIBRERTOS_PREEMPTIVE 16 8 k_two [].
Proof.
  eapply Reach_create with (s := k_one) (priority_ := 1) (a := 200)
                           (func_ := 2) (param_ := 0).
  - eapply Reach_create with (s := k_init) (priority_ := 0) (a := 100)
                             (func_ := 1) (param_ := 0).
    + apply Reach_init with (s0 := boot); reflexivity.
    + vm_compute. reflexivity.
    + vm_compute. reflexivity.
  - vm_compute. reflexivity.
  - vm_compute. reflexivity.
Qed.

Lemma reachable_k_running :
  reachable 4 0 3 LIBRERTOS_PREEMPTIVE 16 8 k_running [None].
Proof.
  eapply Reach_sched_call with (s := k_two) (task := Some 200).
  - exact reachable_k_two.
  - vm_compute. reflexivity.
Qed.

(** With tasks 100 and 200 ready and none running, task 200 of priority 1
    is selected. *)
Lemma sched_selects_only_higher_priority_witness :
  config_ok 4 0 3 /\
  reachable 4 0 3 LIBRERTOS_PREEMPTIVE 16 8 k_two [] /\
  exists tkh, tasks k_running !! 200 = Some tkh /\
              current_priority k_two < priority tkh.
Proof.
  split; [exact config_ok_demo|]. split; [exact reachable_k_two|].
  destruct (sched_selects_only_higher_priority 4 0 3 LIBRERTOS_PREEMPTIVE
              16 8 k_two [] config_ok_demo reachable_k_two) as [Hsel _].
  destruct (Hsel (Some 200) None k_running) as (h & tkh & E & Htk & _ & _ & Hlt & _).
  - vm_compute. reflexivity.
  - injection E as <-. exists tkh. split; [exact Htk|exact Hlt].
Defined.

(** C5, counterexample. Tasks 100 (priority 0) and 200 (priority 1) are
    ready and no task runs. One call of [librertos_sched] runs task 200
    and returns: no task is running then, and the ready lists of
    priorities 0 and 1, both above the -1 of "no task", are not empty:
    task 100 has not run, and task 200 is ready to run again. *)
Lemma sched_returns_with_ready_tasks_left :
  exists s',
    librertos_sched 3 LIBRERTOS_PREEMPTIVE 8 no_call k_two = Ok (tt, s') /\
    current_task (librertos s') = None /\
    list_empty (Ready 0) s' = Ok (false, s') /\
    list_empty (Ready 1) s' = Ok (false, s') /\
    fst <$> (match sched_select 3 LIBRERTOS_PREEMPTIVE 8 k_two with
             | Ok (r, _) => r
             | Stop _ => None
             end) = Some (Some 200).
Proof.
  exists (after (librertos_sched 3 LIBRERTOS_PREEMPTIVE 8 no_call) k_two).
  vm_compute. repeat split; reflexivity.
Qed.

(** C4, counterexample. Task 100 is pended with wake tick 1 and the tick
    is 0. The tick interrupt makes the tick 1, the deadline is reached,
    and the task is still on its wait list and its ready list is still
    empty. *)
Lemma tick_interrupt_leaves_pended_task :
  exists sys',
    tick_interrupt_system 16 sys_pended = Ok (tt, sys') /\
    tick (librertos (kernel sys_pended)) = 0 /\
    tick (librertos (kernel sys')) = 1 /\
    {| pended_task := 100; wake_tick := 1 |} ∈ wait_list sys' /\
    list_empty (Ready 0) (kernel sys') = Ok (true, kernel sys').
Proof.
  eexists. split; [vm_compute; reflexivity|].
  split; [vm_compute; reflexivity|].
  split; [vm_compute; reflexivity|].
  split; [left|vm_compute; reflexivity].
Qed.

(** [task_suspend(NULL)] after [librertos_init], and with task 200
    running. *)
Lemma task_suspend_null_needs_current_task_witness :
  task_suspend 8 NULL k_init = Stop NullPointer /\
  exists s', task_suspend 8 NULL k_running = Ok (tt, s').
Proof.
  destruct (task_suspend_null_needs_current_task 4 0 3 LIBRERTOS_PREEMPTIVE
              16 8) as (Hnull & _ & Hrun).
  split.
  - apply Hnull. reflexivity.
  - apply (Hrun k_running [None] config_ok_demo reachable_k_running).
    vm_compute. discriminate.
Defined.


Lemma Inv_k_init : Inv 4 0 3 8 lists_init k_init.
Proof. apply (Inv_init_state 4 0 3 8 boot). reflexivity. Qed.

Lemma Inv_k_one : Inv 4 0 3 8 lists_one k_one.
Proof.
  destruct (create_task_run 4 0 3 8 lists_init k_init 0 100 1 0
              config_ok_demo Inv_k_init) as (s' & Hrun & HI & _).
  - reflexivity.
  - lia.
  - unfold k_one, after. rewrite Hrun. exact HI.
Qed.

Lemma Inv_k_two : Inv 4 0 3 8 lists_two k_two.
Proof.
  destruct (create_task_run 4 0 3 8 lists_one k_one 1 200 2 0
              config_ok_demo Inv_k_one) as (s' & Hrun & HI & _).
  - reflexivity.
  - lia.
  - unfold k_two, after. rewrite Hrun. exact HI.
Qed.

Lemma Inv_k_three : Inv 4 0 3 8 lists_three k_three.
Proof.
  destruct (create_task_run 4 0 3 8 lists_two k_two 1 300 3 0
              config_ok_demo Inv_k_two) as (s' & Hrun & HI & _).
  - reflexivity.
  - lia.
  - unfold k_three, after. rewrite Hrun. exact HI.
Qed.

Lemma lists_three_fit l :
  valid_list 4 l -> Z.of_nat (length (lists_three l)) < 2 ^ Z.of_N 8.
Proof.
  intros _. unfold lists_three, upd.
  destruct (decide (l = Ready 1)); [reflexivity|].
  unfold lists_two, upd. rewrite decide_False by assumption.
  unfold lists_one, upd.
  destruct (decide (l = Ready 0)); reflexivity.
Qed.

Lemma dll_k_detached : dll 8 k_detached (Ready 0) [100].
Proof.
  destruct (list_remove_dll 8 k_two (Ready 1) [] [] 200) as (s' & Hrun & _ & H).
  - apply (I_dll _ _ _ _ _ _ Inv_k_two (Ready 1)). simpl. lia.
  - unfold k_detached, after. rewrite Hrun.
    destruct H as (Hothers & _).
    apply (Hothers (Ready 0)); [discriminate|].
    apply (I_dll _ _ _ _ _ _ Inv_k_two (Ready 0)). simpl. lia.
Qed.

Lemma lists_three_high j : 1 < j <= 3 -> lists_three (Ready j) = [].
Proof.
  intros Hj. assert (E : j = 2 \/ j = 3) by lia.
  destruct E as [-> | ->]; reflexivity.
Qed.

Lemma lists_two_fit l :
  valid_list 4 l -> Z.of_nat (length (lists_two l)) < 2 ^ Z.of_N 8.
Proof.
  intros _. unfold lists_two, upd.
  destruct (decide (l = Ready 1)); [reflexivity|].
  unfold lists_one, upd.
  destruct (decide (l = Ready 0)); reflexivity.
Qed.

(** With tasks 100 (priority 0) and 200 (priority 1) ready and none
    running, one call selects task 200 and is one call of its function,
    at address 2 with parameter 0, followed by the assignment of null to
    [current_task]. *)
Lemma sched_runs_at_most_one_task_witness :
  exists s1,
    sched_select 3 LIBRERTOS_PREEMPTIVE 8 k_two
    = Ok (Some (Some 200, None), s1) /\
    librertos_sched 3 LIBRERTOS_PREEMPTIVE 8 no_call k_two
    = (no_call 2 0 ;; set_current_task None) s1.
Proof.
  assert (Hcp : current_priority k_two = -1) by reflexivity.
  assert (Hcur : current_task (librertos k_two) = None) by reflexivity.
  destruct (sched_runs_at_most_one_task 4 0 3 LIBRERTOS_PREEMPTIVE 8
              lists_two k_two no_call config_ok_demo Inv_k_two
              lists_two_fit)
    as [[[[Hc _]|Hnone] _]|
        (i & h & rest & f & p & s1 & _ & Hi & HA & Hhigh & Hs & Hsel & _
           & _ & Hrun & _)].
  - discriminate Hc.
  - specialize (Hnone 1). rewrite Hcp in Hnone.
    assert (H1 : lists_two (Ready 1) = []) by (apply Hnone; lia).
    discriminate H1.
  - rewrite Hcp in Hi. rewrite Hcur in Hsel, Hrun.
    assert (Ei : i = 1).
    { assert (E : i = 0 \/ i = 1 \/ i = 2 \/ i = 3) by lia.
      destruct E as [-> | [-> | [-> | ->]]].
      - assert (H1 : lists_two (Ready 1) = []) by (apply Hhigh; lia).
        discriminate H1.
      - reflexivity.
      - discriminate HA.
      - discriminate HA. }
    subst i. injection HA as <- <-.
    vm_compute in Hs. injection Hs as <- <-.
    exists s1. split; [exact Hsel|exact Hrun].
Defined.

(** Task 200, on no list, is put after task 100 on the ready list of
    priority 0. *)
Lemma list_insert_after_and_before_witness :
  exists s',
    list_insert_after 8 (Ready 0) (TaskNode 100) (TaskNode 200) k_detached
    = Ok (tt, s') /\
    list_insert_before 8 (Ready 0) (ListNode (Ready 0)) (TaskNode 200)
      k_detached = Ok (tt, s') /\
    dll 8 s' (Ready 0) [100; 200].
Proof.
  destruct (list_insert_after_and_before 8 k_detached (Ready 0) [100] [] 200)
    as (s' & Hafter & Hbefore & Hd & _).
  - exact dll_k_detached.
  - reflexivity.
  - reflexivity.
  - exists s'. split; [exact Hafter|]. split; [exact Hbefore|exact Hd].
Defined.

(** Task 200, on no list, is put before and behind task 100. *)
Lemma list_insert_first_and_last_witness :
  (exists s',
     list_insert_first 8 (Ready 0) (TaskNode 200) k_detached = Ok (tt, s') /\
     dll 8 s' (Ready 0) [200; 100]) /\
  (exists s',
     list_insert_last 8 (Ready 0) (TaskNode 200) k_detached = Ok (tt, s') /\
     dll 8 s' (Ready 0) [100; 200]).
Proof.
  destruct (list_insert_first_and_last 8 k_detached (Ready 0) [100] 200)
    as [(s1 & Hrun1 & Hd1 & _) (s2 & Hrun2 & Hd2 & _)].
  - exact dll_k_detached.
  - reflexivity.
  - reflexivity.
  - split; [exists s1|exists s2]; split; assumption.
Defined.

(** Task 200 is taken out of the ready list of priority 1, which it has
    to itself. *)
Lemma list_remove_unlinks_the_node_witness :
  exists s',
    list_remove 8 (TaskNode 200) k_two = Ok (tt, s') /\
    dll 8 s' (Ready 1) [] /\
    list_remove 8 (TaskNode 200) s' = Stop NullPointer.
Proof.
  destruct (list_remove_unlinks_the_node 8 k_two (Ready 1) [] [] 200)
    as (s' & Hrun & Hd & _ & _ & _ & _ & _ & _ & Hagain).
  - apply (I_dll _ _ _ _ _ _ Inv_k_two (Ready 1)). simpl. lia.
  - exists s'. split; [exact Hrun|]. split; [exact Hd|exact Hagain].
Defined.

(** Task 200 taken out of its list and put back. *)
Lemma list_insert_and_remove_are_inverse_witness :
  (list_remove 8 (TaskNode 200) ;;
   list_insert_after 8 (Ready 1) (ListNode (Ready 1)) (TaskNode 200)) k_two
  = Ok (tt, k_two).
Proof.
  destruct (list_insert_and_remove_are_inverse 8 k_two (Ready 1) [] [] 200)
    as [_ H].
  apply H.
  apply (I_dll _ _ _ _ _ _ Inv_k_two (Ready 1)). simpl. lia.
Defined.

(** The ready list of priority 1 holds task 200 alone. *)
Lemma list_queries_read_the_ends_witness :
  list_get_first (Ready 1) k_two = Ok (TaskNode 200, k_two) /\
  list_get_last (Ready 1) k_two = Ok (TaskNode 200, k_two) /\
  list_empty (Ready 1) k_two = Ok (false, k_two).
Proof.
  destruct (list_queries_read_the_ends 8 k_two (Ready 1) [200])
    as (Hfirst & Hlast & _ & _ & Hempty).
  - apply (I_dll _ _ _ _ _ _ Inv_k_two (Ready 1)). simpl. lia.
  - split; [exact Hfirst|]. split; [exact Hlast|].
    apply Hempty. reflexivity.
Defined.

(** [librertos_init] on the memory as it is at power-up. *)
Lemma librertos_init_resets_the_kernel_witness :
  exists s,
    librertos_init 4 boot = Ok (tt, s) /\ get_tick s = Ok (0, s) /\
    wf 4 0 3 8 s.
Proof.
  destruct (librertos_init_resets_the_kernel 4 0 3 8 boot)
    as (s & Hrun & Htick & _ & _ & _ & _ & _ & Hwf); [lia|].
  exists s. split; [exact Hrun|]. split; [exact Htick|].
  apply Hwf. reflexivity.
Defined.

(** Priority 4 is out of range; task 300 is created at priority 1 behind
    task 200. *)
Lemma create_task_appends_to_its_ready_list_witness :
  librertos_create_task 0 3 8 4 (Some 300) 3 0 k_two = Stop (Assertion 4) /\
  exists s',
    librertos_create_task 0 3 8 1 (Some 300) 3 0 k_two = Ok (tt, s') /\
    Inv 4 0 3 8 lists_three s'.
Proof.
  split.
  - destruct (create_task_appends_to_its_ready_list 4 0 3 8 lists_two k_two
                4 300 3 0) as [Hout _].
    apply Hout. lia.
  - destruct (create_task_appends_to_its_ready_list 4 0 3 8 lists_two k_two
                1 300 3 0) as [_ Hin].
    destruct Hin as (s' & Hrun & HI & _).
    + exact config_ok_demo.
    + exact Inv_k_two.
    + reflexivity.
    + lia.
    + exists s'. split; [exact Hrun|exact HI].
Defined.

(** Task 100 is suspended. *)
Lemma task_suspend_moves_to_suspended_witness :
  exists s',
    task_suspend 8 (Some 100) k_two = Ok (tt, s') /\
    current_task (librertos s') = current_task (librertos k_two).
Proof.
  destruct (task_suspend_moves_to_suspended 4 0 3 8 lists_two k_two
              (Some 100) 100 Inv_k_two eq_refl)
    as (l & xs & ys & s' & _ & _ & Hrun & _ & _ & Hcur & _).
  - eexists. reflexivity.
  - exists s'. split; [exact Hrun|exact Hcur].
Defined.

(** Task 200 is ready: resuming it changes nothing. *)
Lemma task_resume_moves_to_ready_witness :
  task_resume 8 (Some 200) k_two = Ok (tt, k_two).
Proof.
  destruct (task_resume_moves_to_ready 4 0 3 8 lists_two k_two 200 task_200
              config_ok_demo Inv_k_two) as (_ & Hready & _).
  - reflexivity.
  - apply Hready. left.
Defined.

(** Task 200, first of the two tasks of priority 1, is suspended and
    resumed: task 300 is now before it. *)
Lemma task_suspend_then_resume_requeues_witness :
  exists s',
    (task_suspend 8 (Some 200) ;; task_resume 8 (Some 200)) k_three
    = Ok (tt, s') /\
    Inv 4 0 3 8 (upd lists_three (Ready 1) [300; 200]) s'.
Proof.
  destruct (task_suspend_then_resume_requeues 4 0 3 8 lists_three k_three
              200 task_200_first [] [300] config_ok_demo Inv_k_three)
    as (s' & Hrun & HI & _).
  - reflexivity.
  - reflexivity.
  - exists s'. split; [exact Hrun|exact HI].
Defined.

(** With tasks 100 (priority 0), 200 and 300 (priority 1) ready and none
    running, task 200 is selected. *)
Lemma sched_selects_first_of_highest_ready_witness :
  exists s',
    sched_select 3 LIBRERTOS_PREEMPTIVE 8 k_three
    = Ok (Some (Some 200, None), s') /\
    Inv 4 0 3 8 (upd lists_three (Ready 1) [300; 200]) s'.
Proof.
  assert (Hcp : current_priority k_three = -1) by reflexivity.
  destruct (sched_selects_first_of_highest_ready 4 0 3 LIBRERTOS_PREEMPTIVE 8
              lists_three k_three config_ok_demo Inv_k_three
              lists_three_fit) as [_ Hsel].
  destruct Hsel
    as [[Hnone _]|(i & h & rest & s' & Hi & HA & Hhigh & Hrun & HI & _)].
  - intros H. discriminate H.
  - specialize (Hnone 1). rewrite Hcp in Hnone.
    assert (H1 : lists_three (Ready 1) = []) by (apply Hnone; lia).
    discriminate H1.
  - rewrite Hcp in Hi.
    assert (Ei : i = 1).
    { assert (E : i = 0 \/ i = 1 \/ i = 2 \/ i = 3) by lia.
      destruct E as [-> | [-> | [-> | ->]]].
      - assert (H1 : lists_three (Ready 1) = []) by (apply Hhigh; lia).
        discriminate H1.
      - reflexivity.
      - discriminate HA.
      - discriminate HA. }
    subst i. injection HA as <- <-.
    exists s'. split; [exact Hrun|exact HI].
Defined.

(** Two calls with tasks 200 and 300 at the highest priority in use run
    one after the other and leave the lists as they were. *)
Lemma sched_round_robin_witness :
  exists s',
    sched_calls 3 LIBRERTOS_PREEMPTIVE 8 no_call 2 k_three = Ok (tt, s') /\
    Inv 4 0 3 8 lists_three s'.
Proof.
  destruct (sched_round_robin 4 0 3 LIBRERTOS_PREEMPTIVE 8 lists_three
              k_three no_call 1 [200; 300] 2 config_ok_demo Inv_k_three
              lists_three_fit)
    as (s' & Hrun & _ & Hback & _).
  - reflexivity.
  - intros f p s1. reflexivity.
  - lia.
  - reflexivity.
  - exact lists_three_high.
  - simpl. lia.
  - exists s'. split; [exact Hrun|]. apply Hback. reflexivity.
Defined.

(** Three tick interrupts after the start. *)
Lemma tick_count_wraps_around_witness :
  exists s',
    tick_interrupts 16 3 k_two = Ok (tt, s') /\ get_tick s' = Ok (3, s').
Proof.
  destruct (tick_count_wraps_around 16 k_two 3) as (s' & Hrun & Hget & _).
  - vm_compute. split; [discriminate|reflexivity].
  - exists s'. split; [exact Hrun|exact Hget].
Defined.

(** The state with tasks 100 and 200 created. *)
Lemma reachable_states_are_well_formed_witness :
  exists A : list_ptr -> list Z,
    forall l, valid_list 4 l -> dll 8 k_two l (A l).
Proof.
  destruct (reachable_states_are_well_formed 4 0 3 LIBRERTOS_PREEMPTIVE 16 8
              k_two [] config_ok_demo reachable_k_two) as (A & Hd & _).
  exists A. exact Hd.
Defined.

(** In that state task 100 can be suspended and the scheduler called. *)
Lemma reachable_states_are_safe_witness :
  (exists s', task_suspend 8 (Some 100) k_two = Ok (tt, s')) /\
  (exists s',
     librertos_sched 3 LIBRERTOS_PREEMPTIVE 8 no_call k_two = Ok (tt, s')).
Proof.
  destruct (reachable_states_are_safe 4 0 3 LIBRERTOS_PREEMPTIVE 16 8
              k_two [] config_ok_demo reachable_k_two)
    as (Htask & _ & _ & _ & Hsched).
  split.
  - apply (Htask 100). eexists. reflexivity.
  - apply Hsched. intros f p s1. exists s1. reflexivity.
Defined.

(** Task 200 is selected in the state with tasks 100 and 200: it is on
    the ready list of its priority. *)
Lemma sched_never_selects_a_suspended_task_witness :
  exists h tk,
    tasks k_two !! h = Some tk /\ h ∈ lists_two (Ready (priority tk)) /\
    h ∉ lists_two Suspended.
Proof.
  destruct (sched_never_selects_a_suspended_task 4 0 3 LIBRERTOS_PREEMPTIVE 8
              lists_two k_two k_running (Some 200) None config_ok_demo
              Inv_k_two) as (h & tk & _ & Htk & Hin & _ & Hout).
  - vm_compute. reflexivity.
  - exists h, tk. split; [exact Htk|]. split; [exact Hin|exact Hout].
Defined.

End Kernel.
